(** * carparknnew: navigation core of the car-parking map application

    A shallow embedding of the TypeScript sources and the properties of
    their progress tracker, mock route provider, polyline decoder, update
    throttler, heading smoother, route simplifier and camera state machine:

    - [RoutingService]: [src/services/RoutingService.ts];
    - [PerformanceOptimizer], [MemoryManager] (imported by the component
      from [utils/PerformanceOptimizer]): the second half of
      [src/utils/SvgIcons.tsx];
    - [OrientationService] ([services/OrientationService]): [unnamed/part_002];
    - [CarParkingMap] ([components/CarParkingMap]): [unnamed/part_001].

    JavaScript numbers are modelled in two ways.  The route simplifier of
    [MemoryManager], whose termination depends on rounding, is written on
    IEEE 754 binary64 values with their rounded operations (the primitive
    floats), and so is [HeadingBinary64], a second copy of the heading
    arithmetic kept for the facts that depend on rounding.  Everywhere
    else a number is a [JS.number]: the real numbers extended with the
    three special values of IEEE 754 ([NaN], [Infinity], [-Infinity]);
    there arithmetic on finite values is exact, zero carries no sign, and
    the special values follow the IEEE 754 rules that JavaScript
    implements.  The properties stated on [JS.number] are those that do
    not depend on rounding: comparisons of computed values, bounded inputs
    and a bounded number of loop iterations, special values.  Times
    returned by [Date.now()] are integers (milliseconds) and are modelled
    in [Z].  A JavaScript exception is a [Throw]; a loop or recursion that
    may not end takes a [fuel] and yields [None] when it is still running
    after it. *)

From Stdlib Require Import String.
From Stdlib Require Import Floats.
From Stdlib Require Import Reals Lra Lia ZArith List Bool.
Import ListNotations.

(** ** JavaScript numbers *)

Module JS.

Inductive number : Type :=
| NaN : number
| PInf : number
| NInf : number
| Fin (r : R) : number.

(** Comparisons of real numbers, as booleans. *)
Definition Reqb (x y : R) : bool := if Req_dec_T x y then true else false.
Definition Rltb (x y : R) : bool := if Rlt_dec x y then true else false.

Definition zero : number := Fin 0%R.
Definition one : number := Fin 1%R.
Definition Infinity : number := PInf.

(** [-x] *)
Definition neg (x : number) : number :=
  match x with
  | NaN => NaN
  | PInf => NInf
  | NInf => PInf
  | Fin r => Fin (- r)
  end.

(** [x + y] *)
Definition add (x y : number) : number :=
  match x, y with
  | NaN, _ | _, NaN => NaN
  | PInf, NInf | NInf, PInf => NaN
  | PInf, _ | _, PInf => PInf
  | NInf, _ | _, NInf => NInf
  | Fin a, Fin b => Fin (a + b)
  end.

(** [x - y] *)
Definition sub (x y : number) : number := add x (neg y).

(** The sign of an infinite product or quotient: [s] is the sign of the
    infinite operand ([true] for positive), [r] the finite operand. *)
Definition signed_inf (s : bool) (r : R) : number :=
  if Reqb r 0 then NaN
  else if Rltb 0 r then (if s then PInf else NInf)
  else (if s then NInf else PInf).

(** [x * y] *)
Definition mul (x y : number) : number :=
  match x, y with
  | NaN, _ | _, NaN => NaN
  | PInf, PInf | NInf, NInf => PInf
  | PInf, NInf | NInf, PInf => NInf
  | PInf, Fin r | Fin r, PInf => signed_inf true r
  | NInf, Fin r | Fin r, NInf => signed_inf false r
  | Fin a, Fin b => Fin (a * b)
  end.

(** [x / y]: a finite non-zero value over zero is infinite, zero over zero
    is [NaN]. *)
Definition div (x y : number) : number :=
  match x, y with
  | NaN, _ | _, NaN => NaN
  | (PInf | NInf), (PInf | NInf) => NaN
  | PInf, Fin r => if Rltb r 0 then NInf else PInf
  | NInf, Fin r => if Rltb r 0 then PInf else NInf
  | Fin _, (PInf | NInf) => Fin 0
  | Fin a, Fin b =>
      if Reqb b 0 then
        (if Reqb a 0 then NaN else if Rltb 0 a then PInf else NInf)
      else Fin (a / b)
  end.

(** [x < y]; every comparison with [NaN] is false. *)
Definition lt (x y : number) : bool :=
  match x, y with
  | NaN, _ | _, NaN => false
  | _, NInf => false
  | NInf, _ => true
  | PInf, _ => false
  | Fin _, PInf => true
  | Fin a, Fin b => Rltb a b
  end.

(** [x === y] on numbers: [NaN] differs from itself. *)
Definition eqb (x y : number) : bool :=
  match x, y with
  | PInf, PInf | NInf, NInf => true
  | Fin a, Fin b => Reqb a b
  | _, _ => false
  end.

Definition gt (x y : number) : bool := lt y x.
Definition le (x y : number) : bool := lt x y || eqb x y.
Definition ge (x y : number) : bool := le y x.

(** [x || d] for a numeric [x]: [0] and [NaN] are falsy. *)
Definition or_else (x d : number) : number :=
  match x with
  | NaN => d
  | Fin r => if Reqb r 0 then d else x
  | _ => x
  end.

(** [Math.sqrt] *)
Definition sqrt (x : number) : number :=
  match x with
  | NaN | NInf => NaN
  | PInf => PInf
  | Fin r => if Rltb r 0 then NaN else Fin (R_sqrt.sqrt r)
  end.

(** [Math.sin], [Math.cos] *)
Definition sin (x : number) : number :=
  match x with Fin r => Fin (Rtrigo_def.sin r) | _ => NaN end.
Definition cos (x : number) : number :=
  match x with Fin r => Fin (Rtrigo_def.cos r) | _ => NaN end.

(** [Math.PI] *)
Definition PI : number := Fin Rtrigo1.PI.

(** [Math.atan2] on finite arguments: the angle of the point [(x, y)]. *)
Definition Ratan2 (y x : R) : R :=
  if Rltb 0 x then atan (y / x)
  else if Rltb x 0 then
    (if Rltb y 0 then atan (y / x) - Rtrigo1.PI else atan (y / x) + Rtrigo1.PI)
  else if Rltb 0 y then Rtrigo1.PI / 2
  else if Rltb y 0 then - (Rtrigo1.PI / 2)
  else 0.

(** [Math.atan2 y x] *)
Definition atan2 (y x : number) : number :=
  match y, x with
  | NaN, _ | _, NaN => NaN
  | Fin a, Fin b => Fin (Ratan2 a b)
  | Fin a, PInf => Fin 0
  | Fin a, NInf => if Rltb a 0 then Fin (- Rtrigo1.PI) else Fin Rtrigo1.PI
  | PInf, Fin _ => Fin (Rtrigo1.PI / 2)
  | NInf, Fin _ => Fin (- (Rtrigo1.PI / 2))
  | PInf, PInf => Fin (Rtrigo1.PI / 4)
  | NInf, PInf => Fin (- (Rtrigo1.PI / 4))
  | PInf, NInf => Fin (3 * Rtrigo1.PI / 4)
  | NInf, NInf => Fin (- (3 * Rtrigo1.PI / 4))
  end.

(** [Math.max], [Math.min] *)
Definition max (x y : number) : number :=
  match x, y with
  | NaN, _ | _, NaN => NaN
  | _, _ => if lt x y then y else x
  end.
Definition min (x y : number) : number :=
  match x, y with
  | NaN, _ | _, NaN => NaN
  | _, _ => if lt y x then y else x
  end.

Definition is_finite (x : number) : Prop := exists r, x = Fin r.


(** [x] is a number: finite or infinite. *)
Definition notNaN (x : number) : Prop := x <> NaN.

(** A loop counter or an array index, and an integer, as numbers. *)
Definition ofNat (n : nat) : number := Fin (INR n).
Definition ofZ (z : Z) : number := Fin (IZR z).

(** [Math.round]: the nearest integer, a tie going up. *)
Definition round (x : number) : number :=
  match x with
  | Fin r => Fin (IZR (Zfloor (r + 1 / 2)))
  | _ => x
  end.

(** *** The bitwise operators

    Their operands are converted to 32-bit integers ([NaN] to 0) and their
    result is a 32-bit integer.  Integer-valued numbers are given in [Z];
    [None] is [NaN]. *)

Definition toInt32 (z : Z) : Z := ((z + 2 ^ 31) mod 2 ^ 32 - 2 ^ 31)%Z.

Definition toInt32_opt (x : option Z) : Z :=
  match x with
  | Some z => toInt32 z
  | None => 0%Z
  end.

(** [x & y], [x | y], [~x] *)
Definition bitand (x y : Z) : Z := Z.land (toInt32 x) (toInt32 y).
Definition bitor (x y : Z) : Z := Z.lor (toInt32 x) (toInt32 y).
Definition bitnot (x : Z) : Z := Z.lnot (toInt32 x).

(** [x << s], [x >> s]: only the low five bits of the count are used. *)
Definition shl (x s : Z) : Z := toInt32 (Z.shiftl (toInt32 x) (s mod 32)).
Definition sar (x s : Z) : Z := Z.shiftr (toInt32 x) (s mod 32).

(** [arr.slice(start, end)] with integer bounds: a negative bound counts
    from the end of the array, and both are clamped to it. *)
Definition slice {A : Type} (arr : list A) (start end_ : Z) : list A :=
  let len := Z.of_nat (length arr) in
  let k := if (start <? 0)%Z then Z.max (len + start) 0 else Z.min start len in
  let final := if (end_ <? 0)%Z then Z.max (len + end_) 0 else Z.min end_ len in
  firstn (Z.to_nat (final - k)) (skipn (Z.to_nat k) arr).

(** [arr.slice(start)] *)
Definition sliceFrom {A : Type} (arr : list A) (start : Z) : list A :=
  slice arr start (Z.of_nat (length arr)).

End JS.

(** ** Exceptions *)

(** What a JavaScript call produces: a value, or an exception. *)
Inductive exn : Type :=
| TypeError : exn               (* a property of [undefined] was read *)
| Error (message : string) : exn.

Inductive result (A : Type) : Type :=
| Ok (a : A) : result A
| Throw (e : exn) : result A.
Arguments Ok {A} a.
Arguments Throw {A} e.

Definition bind {A B : Type} (r : result A) (k : A -> result B) : result B :=
  match r with
  | Ok a => k a
  | Throw e => Throw e
  end.

Notation "x <- r ;; k" := (bind r (fun x => k))
  (at level 61, r at next level, right associativity).

(** ** types/index.ts *)

Record Coordinates : Type := mkCoordinates {
  latitude : JS.number;
  longitude : JS.number
}.

Record Maneuver : Type := mkManeuver {
  maneuver_type : string;
  modifier : option string
}.

Record RouteStep : Type := mkRouteStep {
  instruction : string;
  distance : JS.number;
  duration : JS.number;
  coordinates : list Coordinates;
  maneuver : option Maneuver
}.

Record NavigationRoute : Type := mkNavigationRoute {
  route_distance : JS.number;
  route_duration : JS.number;
  steps : list RouteStep;
  route_coordinates : list Coordinates
}.

Record UserLocation : Type := mkUserLocation {
  loc_coordinates : Coordinates;
  loc_heading : option JS.number;
  speed : option JS.number;
  accuracy : option JS.number;
  timestamp : Z
}.

Record CameraState : Type := mkCameraState {
  center : Coordinates;
  zoom : JS.number;
  bearing : JS.number;
  pitch : JS.number;
  isUserControlled : bool;
  lastUserInteraction : Z
}.

Record ParkingSlot : Type := mkParkingSlot {
  slot_id : string;
  slot_name : string;
  slot_coordinates : Coordinates
}.

(** A [Date]: the clock reading it was created with ([new Date()]) and the
    seconds added to it since ([setSeconds(getSeconds() + s)]). *)
Record Date : Type := mkDate {
  date_created : Z;
  date_addedSeconds : JS.number
}.

Record NavigationState : Type := mkNavigationState {
  isNavigating : bool;
  currentRoute : option NavigationRoute;
  targetParkingSlot : option ParkingSlot;
  currentStepIndex : nat;
  nav_remainingDistance : JS.number;
  estimatedTimeArrival : Date;
  nav_nextTurnInstruction : option string;
  nav_nextTurnDistance : option JS.number
}.

(** ** services/RoutingService.ts *)

Module RoutingService.

(** The object [calculateProgress] returns. *)
Record Progress : Type := mkProgress {
  remainingDistance : JS.number;
  remainingTime : JS.number;
  nextTurnInstruction : option string;
  nextTurnDistance : option JS.number
}.

(** [calculateDistance]: the haversine formula. *)
Definition calculateDistance (coord1 coord2 : Coordinates) : JS.number :=
  let R := JS.Fin 6371000 in
  let phi1 := JS.div (JS.mul (latitude coord1) JS.PI) (JS.Fin 180) in
  let phi2 := JS.div (JS.mul (latitude coord2) JS.PI) (JS.Fin 180) in
  let dphi :=
    JS.div (JS.mul (JS.sub (latitude coord2) (latitude coord1)) JS.PI) (JS.Fin 180) in
  let dlambda :=
    JS.div (JS.mul (JS.sub (longitude coord2) (longitude coord1)) JS.PI) (JS.Fin 180) in
  let a :=
    JS.add
      (JS.mul (JS.sin (JS.div dphi (JS.Fin 2))) (JS.sin (JS.div dphi (JS.Fin 2))))
      (JS.mul
         (JS.mul (JS.mul (JS.cos phi1) (JS.cos phi2)) (JS.sin (JS.div dlambda (JS.Fin 2))))
         (JS.sin (JS.div dlambda (JS.Fin 2)))) in
  let c :=
    JS.mul (JS.Fin 2) (JS.atan2 (JS.sqrt a) (JS.sqrt (JS.sub JS.one a))) in
  JS.mul R c.

(** [calculateDistance(p, arr[i])] where the array element may be
    [undefined]: reading [coord2.latitude] then throws. *)
Definition calculateDistanceTo (coord1 : Coordinates) (coord2 : option Coordinates)
  : result JS.number :=
  match coord2 with
  | Some c => Ok (calculateDistance coord1 c)
  | None => Throw TypeError
  end.

(** [arr[arr.length - 1]]; [undefined] on the empty array. *)
Definition lastElement {A : Type} (arr : list A) : option A :=
  match arr with
  | [] => None
  | _ => nth_error arr (length arr - 1)
  end.

(** The loop [for (let i = from; i < steps.length; i++)] of
    [calculateProgress], run for [n] iterations from index [i], on the
    pair (remainingDistance, remainingTime). *)
Fixpoint addRemainingSteps (n i : nat) (stepsArr : list RouteStep)
  (acc : JS.number * JS.number) : JS.number * JS.number :=
  match n with
  | O => acc
  | S n' =>
      match nth_error stepsArr i with
      | Some s =>
          addRemainingSteps n' (S i) stepsArr
            (JS.add (fst acc) (distance s), JS.add (snd acc) (duration s))
      | None => acc
      end
  end.

Definition calculateProgress (currentPosition : Coordinates)
  (route : NavigationRoute) (currentStepIndex : nat) : result Progress :=
  let remainingDistance := JS.zero in
  let remainingTime := JS.zero in
  totals <-
    (if (currentStepIndex <? length (steps route))%nat then
       match nth_error (steps route) currentStepIndex with
       | None => Throw TypeError
       | Some currentStep =>
           distanceToStepEnd <-
             calculateDistanceTo currentPosition
               (lastElement (coordinates currentStep)) ;;
           let remainingDistance := JS.add remainingDistance distanceToStepEnd in
           let remainingTime :=
             JS.add remainingTime
               (JS.mul (JS.div distanceToStepEnd (distance currentStep))
                  (duration currentStep)) in
           Ok (addRemainingSteps
                 (length (steps route) - (currentStepIndex + 1))
                 (currentStepIndex + 1) (steps route)
                 (remainingDistance, remainingTime))
       end
     else Ok (remainingDistance, remainingTime)) ;;
  next <-
    (if (currentStepIndex + 1 <? length (steps route))%nat then
       match nth_error (steps route) (currentStepIndex + 1) with
       | None => Throw TypeError
       | Some nextStep =>
           d <- calculateDistanceTo currentPosition
                  (nth_error (coordinates nextStep) 0) ;;
           Ok (Some (instruction nextStep), Some d)
       end
     else Ok (None, None)) ;;
  Ok {| remainingDistance := fst totals;
        remainingTime := snd totals;
        nextTurnInstruction := fst next;
        nextTurnDistance := snd next |}.

(** One iteration of the inner [forEach] of [findCurrentStepIndex], on the
    pair (minDistance, currentStepIndex). *)
Definition visitCoord (currentPosition : Coordinates) (index : nat)
  (acc : JS.number * nat) (coord : Coordinates) : JS.number * nat :=
  let distance := calculateDistance currentPosition coord in
  if JS.lt distance (fst acc) then (distance, index) else acc.

(** The outer [forEach] over the steps, from index [index]. *)
Fixpoint visitSteps (currentPosition : Coordinates) (stepsArr : list RouteStep)
  (index : nat) (acc : JS.number * nat) : JS.number * nat :=
  match stepsArr with
  | [] => acc
  | step :: rest =>
      visitSteps currentPosition rest (S index)
        (fold_left (visitCoord currentPosition index) (coordinates step) acc)
  end.

Definition findCurrentStepIndex (currentPosition : Coordinates)
  (route : NavigationRoute) : nat :=
  let minDistance := JS.Infinity in
  let currentStepIndex := 0%nat in
  snd (visitSteps currentPosition (steps route) 0 (minDistance, currentStepIndex)).

(** What the configured provider does for a request; the providers
    ([getGoogleRoute], [getOpenRouteRoute], [getMockRoute]) are external
    calls, so only their outcome is modelled. *)
Inductive ProviderOutcome : Type :=
| Fetched (route : NavigationRoute)
| Failed (e : exn).

(** [getRoute]: the [try]/[catch] around the provider call. *)
Definition getRoute (outcome : ProviderOutcome) : result NavigationRoute :=
  match outcome with
  | Fetched route => Ok route
  | Failed _ => Throw (Error "Failed to fetch route"%string)
  end.

(** The service's stored route ([currentRoute]). *)
Definition getCurrentRoute (stored : option NavigationRoute) := stored.
Definition setCurrentRoute (route : option NavigationRoute)
  (stored : option NavigationRoute) : option NavigationRoute := route.
Definition clearRoute (stored : option NavigationRoute) : option NavigationRoute :=
  None.

(** *** The mock provider *)

(** [generateMockInstruction]; [stepIndex] is the loop counter of
    [getMockRoute]. *)
Definition generateMockInstruction (stepIndex : nat) (totalSteps : JS.number) : string :=
  if JS.eqb (JS.ofNat stepIndex) JS.zero then "Head north on current road"
  else if JS.eqb (JS.ofNat stepIndex) (JS.sub totalSteps JS.one)
  then "Arrive at destination"
  else
    let directions := ["left"; "right"; "straight"]%string in
    let roads := ["Main Road"; "Boulevard"; "Street"; "Avenue"; "Lane"]%string in
    let direction := nth (stepIndex mod length directions) directions ""%string in
    let road := nth (stepIndex mod length roads) roads ""%string in
    if String.eqb direction "straight" then ("Continue straight on " ++ road)%string
    else ("Turn " ++ direction ++ " onto " ++ road)%string.

(** The loop [for (let i = 0; i <= numberOfSteps; i++)] of [getMockRoute],
    from counter [i], on the arrays [coordinates] and [steps]; at most
    [fuel] tests of its condition. *)
Fixpoint mockLoop (fuel : nat) (i : nat) (origin destination : Coordinates)
  (totalDistance totalDuration numberOfSteps : JS.number)
  (coordinatesArr : list Coordinates) (stepsArr : list RouteStep)
  : option (list Coordinates * list RouteStep) :=
  match fuel with
  | O => None
  | S fuel' =>
      if JS.le (JS.ofNat i) numberOfSteps then
        let ratio := JS.div (JS.ofNat i) numberOfSteps in
        let lat :=
          JS.add (latitude origin)
            (JS.mul (JS.sub (latitude destination) (latitude origin)) ratio) in
        let lng :=
          JS.add (longitude origin)
            (JS.mul (JS.sub (longitude destination) (longitude origin)) ratio) in
        let coordinatesArr :=
          coordinatesArr ++ [{| latitude := lat; longitude := lng |}] in
        let stepsArr :=
          if JS.lt (JS.ofNat i) numberOfSteps then
            let stepDistance := JS.div totalDistance numberOfSteps in
            let stepDuration := JS.div totalDuration numberOfSteps in
            stepsArr ++
            [{| instruction := generateMockInstruction i numberOfSteps;
                distance := stepDistance;
                duration := stepDuration;
                coordinates := [{| latitude := lat; longitude := lng |}];
                maneuver :=
                  Some {| maneuver_type :=
                            if JS.eqb (JS.ofNat i) JS.zero then "depart"
                            else if JS.eqb (JS.ofNat i) (JS.sub numberOfSteps JS.one)
                                 then "arrive" else "turn";
                          modifier :=
                            Some (if (i mod 3 =? 0)%nat then "left"
                                  else if (i mod 3 =? 1)%nat then "right"
                                  else "straight")%string |} |}]
          else stepsArr in
        mockLoop fuel' (S i) origin destination
          totalDistance totalDuration numberOfSteps coordinatesArr stepsArr
      else Some (coordinatesArr, stepsArr)
  end.

(** [getMockRoute]; [None] when its loop is still running after [fuel]
    tests of the condition. *)
Definition getMockRoute (fuel : nat) (origin destination : Coordinates)
  (waypoints : option (list Coordinates)) : option NavigationRoute :=
  let totalDistance := calculateDistance origin destination in
  let totalDuration := JS.round (JS.div totalDistance (JS.Fin (1389 / 100))) in
  let numberOfSteps :=
    JS.min (JS.max (JS.Fin 3) (JS.round (JS.div totalDistance (JS.Fin 1000))))
      (JS.Fin 8) in
  match mockLoop fuel 0 origin destination totalDistance totalDuration
          numberOfSteps [] [] with
  | None => None
  | Some (coordinatesArr, stepsArr) =>
      Some {| route_distance := totalDistance;
              route_duration := totalDuration;
              steps := stepsArr;
              route_coordinates := coordinatesArr |}
  end.

(** *** Polylines *)

(** [encoded.charCodeAt(index)]: the code of the character at [index], or
    [NaN] ([None]) past the end of the string. *)
Definition charCodeAt (encoded : string) (index : nat) : option Z :=
  option_map (fun c => Z.of_nat (Ascii.nat_of_ascii c)) (String.get index encoded).

(** One [do ... while (byte >= 0x20)] loop of [decodePolyline], from
    [index], on [shift] and [result]; returns the index after the last
    character read and [result]. *)
Fixpoint readValue (fuel : nat) (encoded : string) (index : nat) (shift result : Z)
  : option (nat * Z) :=
  match fuel with
  | O => None
  | S fuel' =>
      let byte := option_map (fun c => (c - 63)%Z) (charCodeAt encoded index) in
      let index := S index in
      let result :=
        JS.bitor result (JS.shl (JS.bitand (JS.toInt32_opt byte) 31) shift) in
      let shift := (shift + 5)%Z in
      if match byte with Some b => (32 <=? b)%Z | None => false end
      then readValue fuel' encoded index shift result
      else Some (index, result)
  end.

(** [result & 1 ? ~(result >> 1) : result >> 1] *)
Definition delta (result : Z) : Z :=
  if (JS.bitand result 1 =? 0)%Z then JS.sar result 1
  else JS.bitnot (JS.sar result 1).

(** The loop [while (index < encoded.length)] of [decodePolyline]; [lat]
    and [lng] hold integers. *)
Fixpoint decodeLoop (fuel : nat) (encoded : string) (index : nat) (lat lng : Z)
  (coordinatesArr : list Coordinates) : option (list Coordinates) :=
  match fuel with
  | O => None
  | S fuel' =>
      if (index <? String.length encoded)%nat then
        match readValue fuel encoded index 0 0 with
        | None => None
        | Some (index, result) =>
            let deltaLat := delta result in
            let lat := (lat + deltaLat)%Z in
            match readValue fuel encoded index 0 0 with
            | None => None
            | Some (index, result) =>
                let deltaLng := delta result in
                let lng := (lng + deltaLng)%Z in
                decodeLoop fuel' encoded index lat lng
                  (coordinatesArr ++
                   [{| latitude := JS.div (JS.ofZ lat) (JS.Fin 100000);
                       longitude := JS.div (JS.ofZ lng) (JS.Fin 100000) |}])
            end
        end
      else Some coordinatesArr
  end.

(** [decodePolyline]; [None] when a loop is still running after [fuel]
    tests of its condition. *)
Definition decodePolyline (fuel : nat) (encoded : string) : option (list Coordinates) :=
  decodeLoop fuel encoded 0 0 0 [].

End RoutingService.

(** ** utils/PerformanceOptimizer.ts *)

Module PerformanceOptimizer.

Local Open Scope Z_scope.

(** The private fields of the class. *)
Record t : Type := mkState {
  lastLocationUpdate : Z;
  lastOrientationUpdate : Z;
  isStationary : bool;
  stationaryStartTime : Z;
  lastMapUpdateLocation : option Coordinates
}.

(** Field initialisers. *)
Definition init : t :=
  {| lastLocationUpdate := 0;
     lastOrientationUpdate := 0;
     isStationary := false;
     stationaryStartTime := 0;
     lastMapUpdateLocation := None |}.

Definition LOCATION_UPDATE_INTERVAL : Z := 1000.
Definition ORIENTATION_UPDATE_INTERVAL : Z := 100.
Definition STATIONARY_THRESHOLD : Z := 30000.
Definition STATIONARY_SPEED_THRESHOLD : JS.number := JS.Fin 1.
Definition MAP_UPDATE_DISTANCE_THRESHOLD : JS.number := JS.Fin 10.

(** [updateStationaryState]; [now] is its own reading of [Date.now()]. *)
Definition updateStationaryState (location : UserLocation) (now : Z) (st : t) : t :=
  let speed :=
    match speed location with
    | Some v => JS.or_else v JS.zero
    | None => JS.zero
    end in
  if JS.lt speed STATIONARY_SPEED_THRESHOLD then
    if negb (isStationary st) then
      {| lastLocationUpdate := lastLocationUpdate st;
         lastOrientationUpdate := lastOrientationUpdate st;
         isStationary := true;
         stationaryStartTime := now;
         lastMapUpdateLocation := lastMapUpdateLocation st |}
    else st
  else
    {| lastLocationUpdate := lastLocationUpdate st;
       lastOrientationUpdate := lastOrientationUpdate st;
       isStationary := false;
       stationaryStartTime := 0;
       lastMapUpdateLocation := lastMapUpdateLocation st |}.

Definition setLastLocationUpdate (now : Z) (st : t) : t :=
  {| lastLocationUpdate := now;
     lastOrientationUpdate := lastOrientationUpdate st;
     isStationary := isStationary st;
     stationaryStartTime := stationaryStartTime st;
     lastMapUpdateLocation := lastMapUpdateLocation st |}.

(** [shouldUpdateLocation]; [now] is the reading of [Date.now()] at its
    first line and [now'] the later reading inside
    [updateStationaryState]. *)
Definition shouldUpdateLocation (location : UserLocation) (now now' : Z) (st : t)
  : bool * t :=
  if lastLocationUpdate st =? 0 then (true, setLastLocationUpdate now st)
  else if now - lastLocationUpdate st <? LOCATION_UPDATE_INTERVAL then (false, st)
  else
    let st := updateStationaryState location now' st in
    if isStationary st && (now - stationaryStartTime st >? STATIONARY_THRESHOLD)
       && (now - lastLocationUpdate st <? 5000)
    then (false, st)
    else (true, setLastLocationUpdate now st).

Definition shouldUpdateOrientation (now : Z) (st : t) : bool * t :=
  if now - lastOrientationUpdate st <? ORIENTATION_UPDATE_INTERVAL then (false, st)
  else
    (true,
     {| lastLocationUpdate := lastLocationUpdate st;
        lastOrientationUpdate := now;
        isStationary := isStationary st;
        stationaryStartTime := stationaryStartTime st;
        lastMapUpdateLocation := lastMapUpdateLocation st |}).

Definition setLastMapUpdateLocation (c : Coordinates) (st : t) : t :=
  {| lastLocationUpdate := lastLocationUpdate st;
     lastOrientationUpdate := lastOrientationUpdate st;
     isStationary := isStationary st;
     stationaryStartTime := stationaryStartTime st;
     lastMapUpdateLocation := Some c |}.

(** The class has its own copy of the haversine formula, identical to the
    one of [RoutingService]. *)
Definition calculateDistance := RoutingService.calculateDistance.

Definition shouldUpdateMap (location : UserLocation) (st : t) : bool * t :=
  match lastMapUpdateLocation st with
  | None => (true, setLastMapUpdateLocation (loc_coordinates location) st)
  | Some lastLoc =>
      let distance := calculateDistance lastLoc (loc_coordinates location) in
      if JS.ge distance MAP_UPDATE_DISTANCE_THRESHOLD
      then (true, setLastMapUpdateLocation (loc_coordinates location) st)
      else (false, st)
  end.

(** [isPowerSavingMode]: a placeholder in the source; it reads no field. *)
Definition isPowerSavingMode (st : t) : bool := false.

Record AdaptiveIntervals : Type := mkIntervals {
  locationInterval : Z;
  orientationInterval : Z;
  mapUpdateInterval : Z
}.

(** The body of [getAdaptiveIntervals] below the reading of
    [isPowerSavingMode()]. *)
Definition intervalsFor (isPowerSaving : bool) : AdaptiveIntervals :=
  let multiplier := if isPowerSaving then 2 else 1 in
  {| locationInterval := LOCATION_UPDATE_INTERVAL * multiplier;
     orientationInterval := ORIENTATION_UPDATE_INTERVAL * multiplier;
     mapUpdateInterval := 500 * multiplier |}.

Definition getAdaptiveIntervals (st : t) : AdaptiveIntervals :=
  let isPowerSaving := isPowerSavingMode st in
  intervalsFor isPowerSaving.

Definition reset (st : t) : t :=
  {| lastLocationUpdate := 0;
     lastOrientationUpdate := 0;
     isStationary := false;
     stationaryStartTime := 0;
     lastMapUpdateLocation := None |}.

Definition isCurrentlyStationary (st : t) : bool := isStationary st.

(** [getStationaryDuration] at clock reading [now]. *)
Definition getStationaryDuration (now : Z) (st : t) : Z :=
  if negb (isStationary st) then 0 else now - stationaryStartTime st.

Record LocationConfig : Type := mkLocationConfig {
  distanceFilter : Z;
  interval : Z;
  fastestInterval : Z
}.

Definition getOptimizedLocationConfig (st : t) : LocationConfig :=
  if isStationary st then
    {| distanceFilter := 50; interval := 10000; fastestInterval := 5000 |}
  else
    {| distanceFilter := 5; interval := 2000; fastestInterval := 1000 |}.

(** [throttle(func, delay)]: the closure keeps [lastCallTime]; a call at
    time [now] runs [func] (first component [true]) or is dropped. *)
Definition throttle (delay : Z) (now : Z) (lastCallTime : Z) : bool * Z :=
  if now - lastCallTime >=? delay then (true, now) else (false, lastCallTime).

(** [debounce(func, delay)]: the closure keeps [timeoutId], the pending
    timer; it is modelled by the time at which the timer is due and the
    arguments it will pass to [func] ([None]: no timer is pending).  A call
    at time [now] clears the pending timer and sets a new one. *)
Definition debounce {A : Type} (delay : Z) (now : Z) (args : A)
  (timeoutId : option (Z * A)) : option (Z * A) :=
  Some (now + delay, args).

(** A turn of the event loop at time [now]: a timer that is due runs its
    callback [() => func(...args)].  Returns the arguments [func] is called
    with, if it is, and the pending timer. *)
Definition runTimers {A : Type} (now : Z) (timeoutId : option (Z * A))
  : option A * option (Z * A) :=
  match timeoutId with
  | Some (due, args) => if due <=? now then (Some args, None) else (None, timeoutId)
  | None => (None, None)
  end.

End PerformanceOptimizer.

Module MemoryManager.

Definition MAX_ROUTE_POINTS : nat := 1000.
Definition MAX_LOCATION_HISTORY : nat := 100.

(** The points of the simplifier, [{ latitude: number; longitude: number }].
    Whether the simplifier returns depends on how its distances are
    rounded, so its numbers are modelled as what they are: IEEE 754
    binary64 values with their rounded operations and their comparisons
    (the primitive floats), not real numbers. *)
Record LatLng : Type := mkLatLng { latitude : float; longitude : float }.

(** [pointToLineDistance] *)
Definition pointToLineDistance (point lineStart lineEnd : LatLng) : float :=
  let A := (latitude point - latitude lineStart)%float in
  let B := (longitude point - longitude lineStart)%float in
  let C := (latitude lineEnd - latitude lineStart)%float in
  let D := (longitude lineEnd - longitude lineStart)%float in
  let dot := (A * C + B * D)%float in
  let lenSq := (C * C + D * D)%float in
  if (lenSq =? 0)%float then PrimFloat.sqrt (A * A + B * B)%float
  else
    let param := (dot / lenSq)%float in
    let '(xx, yy) :=
      if (param <? 0)%float then (latitude lineStart, longitude lineStart)
      else if (1 <? param)%float then (latitude lineEnd, longitude lineEnd)
      else ((latitude lineStart + param * C)%float,
            (longitude lineStart + param * D)%float) in
    let dx := (latitude point - xx)%float in
    let dy := (longitude point - yy)%float in
    PrimFloat.sqrt (dx * dx + dy * dy)%float.

(** The [for] loop of [douglasPeucker] over [middle], from index [i], on the
    pair (maxDistance, maxIndex). *)
Fixpoint scanMiddle (middle : list LatLng) (i : nat)
  (first last : LatLng) (acc : float * nat) : float * nat :=
  match middle with
  | [] => acc
  | m :: rest =>
      let distance := pointToLineDistance m first last in
      scanMiddle rest (S i) first last
        (if (fst acc <? distance)%float then (distance, (i + 1)%nat) else acc)
  end.

(** [douglasPeucker]; [fuel] is the depth of recursion that the call stack
    of the engine admits, and [None] is a call that needs more: the engine
    then throws a [RangeError], also when the recursion would never end. *)
Fixpoint douglasPeucker (fuel : nat) (points : list LatLng)
  (tolerance : float) : option (list LatLng) :=
  match fuel with
  | O => None
  | S fuel' =>
      if (length points <=? 2)%nat then Some points
      else
        match points with
        | [] => Some points
        | first :: middle =>
            let last := List.last points first in
            let '(maxDistance, maxIndex) :=
              scanMiddle middle 0 first last (0%float, 0%nat) in
            if (tolerance <? maxDistance)%float then
              match douglasPeucker fuel' (firstn (maxIndex + 1) points) tolerance with
              | None => None
              | Some left_ =>
                  match douglasPeucker fuel' (skipn maxIndex points) tolerance with
                  | None => None
                  | Some right_ => Some (removelast left_ ++ right_)
                  end
              end
            else Some [first; last]
        end
  end.

(** [simplifyRoute]; the tolerance is the binary64 value nearest to
    0.0001. *)
Definition simplifyRoute (fuel : nat) (coordinates : list LatLng)
  : option (list LatLng) :=
  if (length coordinates <=? MAX_ROUTE_POINTS)%nat then Some coordinates
  else douglasPeucker fuel coordinates 0x1.a36e2eb1c432dp-14%float.

(** [manageLocationHistory] *)
Definition manageLocationHistory (history : list UserLocation) : list UserLocation :=
  if (length history <=? MAX_LOCATION_HISTORY)%nat then history
  else JS.sliceFrom history (- Z.of_nat MAX_LOCATION_HISTORY).

End MemoryManager.

(** ** services/OrientationService.ts *)

Module OrientationService.

Record OrientationData : Type := mkOrientationData {
  heading : JS.number;
  accuracy : JS.number;
  timestamp : Z
}.

(** The fields of the service that the heading path reads and writes. *)
Record t : Type := mkState {
  lastOrientation : option OrientationData;
  smoothingFactor : JS.number
}.

Definition init : t :=
  {| lastOrientation := None; smoothingFactor := JS.Fin (8 / 10) |}.

Record Magnetometer : Type := mkMagnetometer {
  mag_x : JS.number;
  mag_y : JS.number;
  mag_z : JS.number
}.

(** The argument of [handleOrientationChange] (typed [any]): a number, or
    an object with optional [heading], [magnetometer] and [accuracy]. *)
Inductive OrientationEvent : Type :=
| NumberEvent (n : JS.number)
| ObjectEvent (heading_field : option JS.number)
    (magnetometer_field : option Magnetometer) (accuracy_field : option JS.number).

Definition calculateHeadingFromMagnetometer (magnetometer : Magnetometer) : JS.number :=
  let heading :=
    JS.mul (JS.atan2 (mag_y magnetometer) (mag_x magnetometer))
      (JS.div (JS.Fin 180) JS.PI) in
  if JS.lt heading JS.zero then JS.add heading (JS.Fin 360) else heading.

(** [while (heading < 0) heading += 360], at most [fuel] tests of the
    condition; [None] when the loop is still running after them. *)
Fixpoint whileNegative (fuel : nat) (heading : JS.number) : option JS.number :=
  match fuel with
  | O => None
  | S fuel' =>
      if JS.lt heading JS.zero then whileNegative fuel' (JS.add heading (JS.Fin 360))
      else Some heading
  end.

(** [while (heading >= 360) heading -= 360] *)
Fixpoint whileTooLarge (fuel : nat) (heading : JS.number) : option JS.number :=
  match fuel with
  | O => None
  | S fuel' =>
      if JS.ge heading (JS.Fin 360) then whileTooLarge fuel' (JS.sub heading (JS.Fin 360))
      else Some heading
  end.

Definition normalizeHeading (fuel : nat) (heading : JS.number) : option JS.number :=
  match whileNegative fuel heading with
  | None => None
  | Some heading => whileTooLarge fuel heading
  end.

Definition applySmoothingToHeading (fuel : nat) (smoothingFactor : JS.number)
  (currentHeading newHeading : JS.number) : option JS.number :=
  let diff := JS.sub newHeading currentHeading in
  let diff :=
    if JS.gt diff (JS.Fin 180) then JS.sub diff (JS.Fin 360)
    else if JS.lt diff (JS.Fin (-180)) then JS.add diff (JS.Fin 360)
    else diff in
  let smoothedDiff := JS.mul diff (JS.sub JS.one smoothingFactor) in
  let smoothedHeading := JS.add currentHeading smoothedDiff in
  normalizeHeading fuel smoothedHeading.

(** The heading [handleOrientationChange] extracts from its argument, before
    it is normalised. *)
Definition extractHeading (orientation : OrientationEvent) : JS.number :=
  match orientation with
  | NumberEvent n => n
  | ObjectEvent (Some h) _ _ => h
  | ObjectEvent None (Some m) _ => calculateHeadingFromMagnetometer m
  | ObjectEvent None None _ => JS.zero
  end.

(** [orientation.accuracy || 0] *)
Definition extractAccuracy (orientation : OrientationEvent) : JS.number :=
  match orientation with
  | ObjectEvent _ _ (Some a) => JS.or_else a JS.zero
  | _ => JS.zero
  end.

(** [handleOrientationChange]: returns the [OrientationData] passed to the
    callbacks, and the new state. *)
Definition handleOrientationChange (fuel : nat) (orientation : OrientationEvent)
  (now : Z) (st : t) : option (OrientationData * t) :=
  let timestamp := now in
  let extracted := extractHeading orientation in
  match normalizeHeading fuel extracted with
  | None => None
  | Some normalized =>
      let smoothed :=
        match lastOrientation st with
        | Some last =>
            applySmoothingToHeading fuel (smoothingFactor st) (heading last) normalized
        | None => Some normalized
        end in
      match smoothed with
      | None => None
      | Some final =>
          let orientationData :=
            {| heading := final;
               accuracy := extractAccuracy orientation;
               timestamp := timestamp |} in
          Some (orientationData,
                {| lastOrientation := Some orientationData;
                   smoothingFactor := smoothingFactor st |})
      end
  end.

Definition setSmoothingFactor (factor : JS.number) (st : t) : t :=
  {| lastOrientation := lastOrientation st;
     smoothingFactor := JS.max JS.zero (JS.min JS.one factor) |}.

Definition getSmoothingFactor (st : t) : JS.number := smoothingFactor st.

Definition getLastKnownOrientation (st : t) : option OrientationData :=
  lastOrientation st.

(** [handleDeviceOrientationChange]: the orientation string of the
    orientation locker, converted to degrees. *)
Definition handleDeviceOrientationChange (fuel : nat) (orientation : string)
  (now : Z) (st : t) : option (OrientationData * t) :=
  let heading :=
    if String.eqb orientation "PORTRAIT" then JS.Fin 0
    else if String.eqb orientation "LANDSCAPE-LEFT" then JS.Fin 90
    else if String.eqb orientation "PORTRAIT-UPSIDEDOWN" then JS.Fin 180
    else if String.eqb orientation "LANDSCAPE-RIGHT" then JS.Fin 270
    else JS.Fin 0 in
  handleOrientationChange fuel (ObjectEvent (Some heading) None (Some (JS.Fin 1))) now st.

(** [calculateGPSBearing] *)
Definition calculateGPSBearing (fuel : nat) (from to : Coordinates) : option JS.number :=
  let phi1 := JS.div (JS.mul (latitude from) JS.PI) (JS.Fin 180) in
  let phi2 := JS.div (JS.mul (latitude to) JS.PI) (JS.Fin 180) in
  let dlambda :=
    JS.div (JS.mul (JS.sub (longitude to) (longitude from)) JS.PI) (JS.Fin 180) in
  let y := JS.mul (JS.sin dlambda) (JS.cos phi2) in
  let x :=
    JS.sub (JS.mul (JS.cos phi1) (JS.sin phi2))
      (JS.mul (JS.mul (JS.sin phi1) (JS.cos phi2)) (JS.cos dlambda)) in
  let bearing := JS.div (JS.mul (JS.atan2 y x) (JS.Fin 180)) JS.PI in
  normalizeHeading fuel bearing.

(** [updateWithGPSBearing] *)
Definition updateWithGPSBearing (fuel : nat) (from to : Coordinates)
  (now : Z) (st : t) : option (OrientationData * t) :=
  match calculateGPSBearing fuel from to with
  | None => None
  | Some gpsHeading =>
      let smoothed :=
        match lastOrientation st with
        | Some last =>
            applySmoothingToHeading fuel (smoothingFactor st) (heading last) gpsHeading
        | None => Some gpsHeading
        end in
      match smoothed with
      | None => None
      | Some final =>
          let orientationData :=
            {| heading := final;
               accuracy := JS.Fin (5 / 10);
               timestamp := now |} in
          Some (orientationData,
                {| lastOrientation := Some orientationData;
                   smoothingFactor := smoothingFactor st |})
      end
  end.

(** [cleanup], on the fields of [t]. *)
Definition cleanup (st : t) : t :=
  {| lastOrientation := None; smoothingFactor := smoothingFactor st |}.

End OrientationService.

(** *** The heading arithmetic in double precision

    [normalizeHeading] and [applySmoothingToHeading] once more, on IEEE 754
    binary64 values with their rounded operations (the primitive floats),
    for what depends on the rounding: whether the loops end on a large
    heading, and whether a smoothing factor of 0 gives back the new
    heading exactly. *)

Module HeadingBinary64.

Fixpoint whileNegative (fuel : nat) (heading : float) : option float :=
  match fuel with
  | O => None
  | S fuel' =>
      if (heading <? 0)%float then whileNegative fuel' (heading + 360)%float
      else Some heading
  end.

Fixpoint whileTooLarge (fuel : nat) (heading : float) : option float :=
  match fuel with
  | O => None
  | S fuel' =>
      if (360 <=? heading)%float then whileTooLarge fuel' (heading - 360)%float
      else Some heading
  end.

Definition normalizeHeading (fuel : nat) (heading : float) : option float :=
  match whileNegative fuel heading with
  | None => None
  | Some heading => whileTooLarge fuel heading
  end.

Definition applySmoothingToHeading (fuel : nat) (smoothingFactor : float)
  (currentHeading newHeading : float) : option float :=
  let diff := (newHeading - currentHeading)%float in
  let diff :=
    if (180 <? diff)%float then (diff - 360)%float
    else if (diff <? -180)%float then (diff + 360)%float
    else diff in
  let smoothedDiff := (diff * (1 - smoothingFactor))%float in
  let smoothedHeading := (currentHeading + smoothedDiff)%float in
  normalizeHeading fuel smoothedHeading.

End HeadingBinary64.

(** ** components/CarParkingMap.tsx *)

Module CarParkingMap.

Local Open Scope Z_scope.

Definition USER_IDLE_TIMEOUT : Z := 10000.
Definition TURN_HIGHLIGHT_DISTANCE : JS.number := JS.Fin 50.

Definition INITIAL_REGION : Coordinates :=
  {| latitude := JS.Fin (314659 / 10000); longitude := JS.Fin (742734 / 10000) |}.

(** The component's state: its [useState] cells and refs, the state of
    the [routingService] singleton it drives, and the alerts it has shown.

    [userIdleTimeout] is the pending timer of [userIdleTimeoutRef]: the time
    at which it is due, [None] when no timer is pending.

    [interactionLastCallTime] is the [lastCallTime] of the throttled closure
    that [useCallback] currently returns for [handleUserMapInteraction], and
    [interactionIsNavigating] the value of [navigationState.isNavigating]
    that this closure read when the render built it;
    [callbackStale] records that one of its dependencies
    ([navigationState.isNavigating], [userLocation], and [animateToLocation],
    which is re-created with [cameraState]) changed since it was created, so
    that the next render replaces it by a fresh closure. *)
Record t : Type := mkMap {
  userLocation : option UserLocation;
  selectedParkingSlot : option ParkingSlot;
  isBottomSheetVisible : bool;
  navigationState : NavigationState;
  cameraState : CameraState;
  userIdleTimeout : option Z;
  interactionLastCallTime : Z;
  interactionIsNavigating : bool;
  callbackStale : bool;
  routingCurrentRoute : option NavigationRoute;
  alerts : list (string * string)
}.

(** The initial values of the [useState] cells; [now] is the clock at mount. *)
Definition init (now : Z) : t :=
  {| userLocation := None;
     selectedParkingSlot := None;
     isBottomSheetVisible := false;
     navigationState :=
       {| isNavigating := false;
          currentRoute := None;
          targetParkingSlot := None;
          currentStepIndex := 0;
          nav_remainingDistance := JS.zero;
          estimatedTimeArrival := {| date_created := now; date_addedSeconds := JS.zero |};
          nav_nextTurnInstruction := None;
          nav_nextTurnDistance := None |};
     cameraState :=
       {| center := INITIAL_REGION;
          zoom := JS.Fin 15;
          bearing := JS.zero;
          pitch := JS.zero;
          isUserControlled := false;
          lastUserInteraction := 0 |};
     userIdleTimeout := None;
     interactionLastCallTime := 0;
     interactionIsNavigating := false;
     callbackStale := false;
     routingCurrentRoute := None;
     alerts := [] |}.

(** [setCameraState(prev => f prev)]: the new object also makes the
    memoised interaction handler stale. *)
Definition setCameraState (f : CameraState -> CameraState) (st : t) : t :=
  {| userLocation := userLocation st;
     selectedParkingSlot := selectedParkingSlot st;
     isBottomSheetVisible := isBottomSheetVisible st;
     navigationState := navigationState st;
     cameraState := f (cameraState st);
     userIdleTimeout := userIdleTimeout st;
     interactionLastCallTime := interactionLastCallTime st;
     interactionIsNavigating := interactionIsNavigating st;
     callbackStale := true;
     routingCurrentRoute := routingCurrentRoute st;
     alerts := alerts st |}.

(** [setUserLocation(location)], from the location listener. *)
Definition setUserLocation (location : UserLocation) (st : t) : t :=
  {| userLocation := Some location;
     selectedParkingSlot := selectedParkingSlot st;
     isBottomSheetVisible := isBottomSheetVisible st;
     navigationState := navigationState st;
     cameraState := cameraState st;
     userIdleTimeout := userIdleTimeout st;
     interactionLastCallTime := interactionLastCallTime st;
     interactionIsNavigating := interactionIsNavigating st;
     callbackStale := true;
     routingCurrentRoute := routingCurrentRoute st;
     alerts := alerts st |}.

(** [setNavigationState(n)] *)
Definition setNavigationState (n : NavigationState) (st : t) : t :=
  {| userLocation := userLocation st;
     selectedParkingSlot := selectedParkingSlot st;
     isBottomSheetVisible := isBottomSheetVisible st;
     navigationState := n;
     cameraState := cameraState st;
     userIdleTimeout := userIdleTimeout st;
     interactionLastCallTime := interactionLastCallTime st;
     interactionIsNavigating := interactionIsNavigating st;
     callbackStale :=
       callbackStale st
       || negb (Bool.eqb (isNavigating n) (isNavigating (navigationState st)));
     routingCurrentRoute := routingCurrentRoute st;
     alerts := alerts st |}.

(** [setIsBottomSheetVisible(false); setSelectedParkingSlot(null)] *)
Definition closeBottomSheet (st : t) : t :=
  {| userLocation := userLocation st;
     selectedParkingSlot := None;
     isBottomSheetVisible := false;
     navigationState := navigationState st;
     cameraState := cameraState st;
     userIdleTimeout := userIdleTimeout st;
     interactionLastCallTime := interactionLastCallTime st;
     interactionIsNavigating := interactionIsNavigating st;
     callbackStale := callbackStale st;
     routingCurrentRoute := routingCurrentRoute st;
     alerts := alerts st |}.

(** Assignments to [userIdleTimeoutRef.current] ([setTimeout]) and
    [clearTimeout]. *)
Definition setUserIdleTimeout (timer : option Z) (st : t) : t :=
  {| userLocation := userLocation st;
     selectedParkingSlot := selectedParkingSlot st;
     isBottomSheetVisible := isBottomSheetVisible st;
     navigationState := navigationState st;
     cameraState := cameraState st;
     userIdleTimeout := timer;
     interactionLastCallTime := interactionLastCallTime st;
     interactionIsNavigating := interactionIsNavigating st;
     callbackStale := callbackStale st;
     routingCurrentRoute := routingCurrentRoute st;
     alerts := alerts st |}.

Definition setInteractionLastCallTime (lastCallTime : Z) (stale : bool) (st : t) : t :=
  {| userLocation := userLocation st;
     selectedParkingSlot := selectedParkingSlot st;
     isBottomSheetVisible := isBottomSheetVisible st;
     navigationState := navigationState st;
     cameraState := cameraState st;
     userIdleTimeout := userIdleTimeout st;
     interactionLastCallTime := lastCallTime;
     interactionIsNavigating := interactionIsNavigating st;
     callbackStale := stale;
     routingCurrentRoute := routingCurrentRoute st;
     alerts := alerts st |}.

(** [Alert.alert(title, message)] *)
Definition alert (title message : string) (st : t) : t :=
  {| userLocation := userLocation st;
     selectedParkingSlot := selectedParkingSlot st;
     isBottomSheetVisible := isBottomSheetVisible st;
     navigationState := navigationState st;
     cameraState := cameraState st;
     userIdleTimeout := userIdleTimeout st;
     interactionLastCallTime := interactionLastCallTime st;
     interactionIsNavigating := interactionIsNavigating st;
     callbackStale := callbackStale st;
     routingCurrentRoute := routingCurrentRoute st;
     alerts := (alerts st ++ [(title, message)])%list |}.

(** [routingService.clearRoute()] *)
Definition clearStoredRoute (st : t) : t :=
  {| userLocation := userLocation st;
     selectedParkingSlot := selectedParkingSlot st;
     isBottomSheetVisible := isBottomSheetVisible st;
     navigationState := navigationState st;
     cameraState := cameraState st;
     userIdleTimeout := userIdleTimeout st;
     interactionLastCallTime := interactionLastCallTime st;
     interactionIsNavigating := interactionIsNavigating st;
     callbackStale := callbackStale st;
     routingCurrentRoute := RoutingService.clearRoute (routingCurrentRoute st);
     alerts := alerts st |}.

(** The throttled closure that a render builds: its [lastCallTime] is [0]
    and it reads the [navigationState.isNavigating] of that render. *)
Definition renewInteractionClosure (st : t) : t :=
  {| userLocation := userLocation st;
     selectedParkingSlot := selectedParkingSlot st;
     isBottomSheetVisible := isBottomSheetVisible st;
     navigationState := navigationState st;
     cameraState := cameraState st;
     userIdleTimeout := userIdleTimeout st;
     interactionLastCallTime := 0;
     interactionIsNavigating := isNavigating (navigationState st);
     callbackStale := false;
     routingCurrentRoute := routingCurrentRoute st;
     alerts := alerts st |}.

(** A render of the component: [useCallback] keeps the throttled closure
    while its dependencies are unchanged and otherwise returns the one just
    built by [throttle(...)]. *)
Definition render (st : t) : t :=
  if callbackStale st then renewInteractionClosure st else st.

(** The body passed to [throttle] in [handleUserMapInteraction].  It tests
    the [navigationState.isNavigating] that the closure captured when it was
    built, not the current one: between a change of the navigation state
    and the next render the two differ. *)
Definition onInteraction (now : Z) (st : t) : t :=
  let st :=
    setCameraState
      (fun prev =>
         {| center := center prev;
            zoom := zoom prev;
            bearing := bearing prev;
            pitch := pitch prev;
            isUserControlled := true;
            lastUserInteraction := now |}) st in
  (* clearTimeout(userIdleTimeoutRef.current) *)
  let st := setUserIdleTimeout None st in
  if interactionIsNavigating st
  then setUserIdleTimeout (Some (now + USER_IDLE_TIMEOUT)) st
  else st.

(** A call of [handleUserMapInteraction] at time [now] (the readings of
    [Date.now()] during one call are taken to be the same instant): the
    throttled closure runs [onInteraction] or drops the call. *)
Definition handleUserMapInteraction (now : Z) (st : t) : t :=
  let '(run, lastCallTime) :=
    PerformanceOptimizer.throttle 100 now (interactionLastCallTime st) in
  if run
  then onInteraction now (setInteractionLastCallTime lastCallTime (callbackStale st) st)
  else st.

(** The callback given to [setTimeout] in [handleUserMapInteraction]. *)
Definition onIdleTimeout (st : t) : t :=
  let st :=
    setCameraState
      (fun prev =>
         {| center := center prev;
            zoom := zoom prev;
            bearing := JS.zero;
            pitch := pitch prev;
            isUserControlled := false;
            lastUserInteraction := lastUserInteraction prev |}) st in
  setUserIdleTimeout None st.

(** [handleEndNavigation] at time [now]. *)
Definition handleEndNavigation (now : Z) (st : t) : t :=
  let st :=
    setNavigationState
      {| isNavigating := false;
         currentRoute := None;
         targetParkingSlot := None;
         currentStepIndex := 0;
         nav_remainingDistance := JS.zero;
         estimatedTimeArrival := {| date_created := now; date_addedSeconds := JS.zero |};
         nav_nextTurnInstruction := None;
         nav_nextTurnDistance := None |} st in
  let st := clearStoredRoute st in
  let st :=
    setCameraState
      (fun prev =>
         {| center := center prev;
            zoom := zoom prev;
            bearing := JS.zero;
            pitch := JS.zero;
            isUserControlled := false;
            lastUserInteraction := lastUserInteraction prev |}) st in
  setUserIdleTimeout None st.

(** [handleStartNavigation(parkingSlot)] at time [now]; [outcome] is what
    the route provider does when [getRoute] calls it. *)
Definition handleStartNavigation (parkingSlot : ParkingSlot)
  (outcome : RoutingService.ProviderOutcome) (now : Z) (st : t) : t :=
  match userLocation st with
  | None =>
      alert "Location Required" "Current location is required for navigation." st
  | Some _ =>
      match RoutingService.getRoute outcome with
      | Ok route =>
          let eta := {| date_created := now; date_addedSeconds := route_duration route |} in
          let st :=
            setNavigationState
              {| isNavigating := true;
                 currentRoute := Some route;
                 targetParkingSlot := Some parkingSlot;
                 currentStepIndex := 0;
                 nav_remainingDistance := route_distance route;
                 estimatedTimeArrival := eta;
                 nav_nextTurnInstruction :=
                   option_map instruction (nth_error (steps route) 0);
                 nav_nextTurnDistance :=
                   option_map distance (nth_error (steps route) 0) |} st in
          closeBottomSheet st
      | Throw _ =>
          alert "Navigation Error" "Failed to calculate route. Please try again." st
      end
  end.

(** What happens to the component, in order. *)
Inductive Event : Type :=
| Interact (now : Z)      (* [onPanDrag] / [onRegionChangeComplete] at [now] *)
| Tick (now : Z)          (* the event loop runs the timers due at [now] *)
| Render.                 (* React renders the component *)

Definition step (e : Event) (st : t) : t :=
  match e with
  | Interact now => handleUserMapInteraction now st
  | Tick now =>
      match userIdleTimeout st with
      | Some due => if due <=? now then onIdleTimeout st else st
      | None => st
      end
  | Render => render st
  end.

Fixpoint run (events : list Event) (st : t) : t :=
  match events with
  | [] => st
  | e :: rest => run rest (step e st)
  end.

(** The states after each event of a run. *)
Fixpoint states (events : list Event) (st : t) : list t :=
  match events with
  | [] => []
  | e :: rest => step e st :: states rest (step e st)
  end.

(** [setSelectedParkingSlot(parkingSlot); setIsBottomSheetVisible(true)] *)
Definition openBottomSheet (parkingSlot : ParkingSlot) (st : t) : t :=
  {| userLocation := userLocation st;
     selectedParkingSlot := Some parkingSlot;
     isBottomSheetVisible := true;
     navigationState := navigationState st;
     cameraState := cameraState st;
     userIdleTimeout := userIdleTimeout st;
     interactionLastCallTime := interactionLastCallTime st;
     interactionIsNavigating := interactionIsNavigating st;
     callbackStale := callbackStale st;
     routingCurrentRoute := routingCurrentRoute st;
     alerts := alerts st |}.

(** [handleMapPress] *)
Definition handleMapPress (st : t) : t :=
  if isBottomSheetVisible st then closeBottomSheet st else st.

(** [handleParkingMarkerPress] *)
Definition handleParkingMarkerPress (parkingSlot : ParkingSlot) (st : t) : t :=
  openBottomSheet parkingSlot st.

(** The [onClose] handler given to the bottom sheet. *)
Definition onClose (st : t) : t := closeBottomSheet st.

(** [calculateDistanceToSlot]; [locationService.calculateDistance] is one
    more copy of the haversine formula of [RoutingService]. *)
Definition calculateDistanceToSlot (slot : ParkingSlot) (st : t) : JS.number :=
  match userLocation st with
  | None => JS.zero
  | Some location =>
      RoutingService.calculateDistance (loc_coordinates location) (slot_coordinates slot)
  end.

(** [updateNavigationProgress(location)].  [useCallback] returns a function
    that reads the [navigationState] of the render that created it:
    [closed] is that value, while [setNavigationState(prev => ...)] updates
    the current one.  The camera animations it may start on the map view
    are not part of the state. *)
Definition updateNavigationProgress (closed : NavigationState)
  (location : UserLocation) (st : t) : result t :=
  if negb (isNavigating closed) then Ok st
  else
    match currentRoute closed with
    | None => Ok st
    | Some route =>
        let currentStepIndex :=
          RoutingService.findCurrentStepIndex (loc_coordinates location) route in
        progress <-
          RoutingService.calculateProgress (loc_coordinates location) route
            currentStepIndex ;;
        Ok (setNavigationState
              (let prev := navigationState st in
               {| isNavigating := isNavigating prev;
                  currentRoute := currentRoute prev;
                  targetParkingSlot := targetParkingSlot prev;
                  currentStepIndex := currentStepIndex;
                  nav_remainingDistance := RoutingService.remainingDistance progress;
                  estimatedTimeArrival := estimatedTimeArrival prev;
                  nav_nextTurnInstruction := RoutingService.nextTurnInstruction progress;
                  nav_nextTurnDistance := RoutingService.nextTurnDistance progress |})
              st)
    end.

(** The listener that [initializeLocation] gives to
    [locationService.addLocationListener].  The effect that calls
    [initializeLocation] has no dependencies: it runs once, after the first
    render, so the listener calls the [updateNavigationProgress] of that
    render, which closes over the initial [navigationState] ([mounted] is
    the clock at mount).  [optimizer] is the state of the
    [performanceOptimizer] singleton. *)
Definition onLocation (mounted : Z) (location : UserLocation) (now now' : Z)
  (optimizer : PerformanceOptimizer.t) (st : t)
  : result (PerformanceOptimizer.t * t) :=
  let '(accepted, optimizer) :=
    PerformanceOptimizer.shouldUpdateLocation location now now' optimizer in
  if accepted then
    st <- updateNavigationProgress (navigationState (init mounted)) location
            (setUserLocation location st) ;;
    Ok (optimizer, st)
  else Ok (optimizer, st).

(** What the user and the environment do to the component. *)
Inductive Action : Type :=
| MapPress                                   (* [onPress] of the map *)
| MarkerPress (parkingSlot : ParkingSlot)    (* [onPress] of a parking marker *)
| SheetClose                                 (* [onClose] of the bottom sheet *)
| Navigate (parkingSlot : ParkingSlot)
    (outcome : RoutingService.ProviderOutcome) (now : Z)
                                             (* [onNavigate] of the bottom sheet *)
| EndNavigation (now : Z)                    (* [onEndNavigation] of the bar *)
| Located (currentLocation : UserLocation)
    (* [setUserLocation(currentLocation)] of [initializeLocation] *)
| Sample (location : UserLocation) (now now' : Z)
    (optimizer : PerformanceOptimizer.t)
    (* the location listener, the throttler being in state [optimizer] *)
| MapEvent (e : Event).

(** One action on the component mounted at [mounted].  An exception thrown
    in the location listener leaves the state as it was before the call. *)
Definition act (mounted : Z) (a : Action) (st : t) : t :=
  match a with
  | MapPress => handleMapPress st
  | MarkerPress parkingSlot => handleParkingMarkerPress parkingSlot st
  | SheetClose => onClose st
  | Navigate parkingSlot outcome now => handleStartNavigation parkingSlot outcome now st
  | EndNavigation now => handleEndNavigation now st
  | Located currentLocation => setUserLocation currentLocation st
  | Sample location now now' optimizer =>
      match onLocation mounted location now now' optimizer st with
      | Ok (_, st') => st'
      | Throw _ => st
      end
  | MapEvent e => step e st
  end.

Fixpoint perform (mounted : Z) (actions : list Action) (st : t) : t :=
  match actions with
  | [] => st
  | a :: rest => perform mounted rest (act mounted a st)
  end.

End CarParkingMap.

(** * Vocabulary of the properties, and sample data *)

Module RoutingSpec.

(** The sum of the distances, and of the durations, of a list of steps. *)
Definition sumDistances (l : list RouteStep) : JS.number :=
  fold_right (fun s acc => JS.add (distance s) acc) JS.zero l.

Definition sumDurations (l : list RouteStep) : JS.number :=
  fold_right (fun s acc => JS.add (duration s) acc) JS.zero l.

(** Latitude 0, longitude 0. *)
Definition origin : Coordinates := {| latitude := JS.Fin 0; longitude := JS.Fin 0 |}.

(** A point with real coordinates. *)
Definition at_ (lat lon : R) : Coordinates :=
  {| latitude := JS.Fin lat; longitude := JS.Fin lon |}.

Definition stepAt (text : string) (dist dur : JS.number) (geometry : list Coordinates)
  : RouteStep :=
  {| instruction := text; distance := dist; duration := dur;
     coordinates := geometry; maneuver := None |}.

Definition routeOf (l : list RouteStep) : NavigationRoute :=
  {| route_distance := sumDistances l; route_duration := sumDurations l;
     steps := l; route_coordinates := concat (map coordinates l) |}.

(** A route whose second step has no geometry. *)
Definition routeWithBareStep : NavigationRoute :=
  routeOf [stepAt "Head north" (JS.Fin 100) (JS.Fin 10) [origin];
           stepAt "Arrive" (JS.Fin 50) (JS.Fin 5) []].

(** One iteration of the loop of [calculateProgress] over the subsequent
    steps. *)
Definition stepAcc (acc : JS.number * JS.number) (s : RouteStep) :=
  (JS.add (fst acc) (distance s), JS.add (snd acc) (duration s)).

(** The quantity [a] of the haversine formula, on real coordinates. *)
Definition haversine_a (lat1 lon1 lat2 lon2 : R) : R :=
  (sin ((lat2 + - lat1) * PI / 180 / 2) * sin ((lat2 + - lat1) * PI / 180 / 2)
   + cos (lat1 * PI / 180) * cos (lat2 * PI / 180)
     * sin ((lon2 + - lon1) * PI / 180 / 2) * sin ((lon2 + - lon1) * PI / 180 / 2))%R.

(** A route of three steps of 1000 m each. *)
Definition routeThreeLegs : NavigationRoute :=
  routeOf [stepAt "Head north on current road" (JS.Fin 1000) (JS.Fin 72) [origin];
           stepAt "Turn right onto Boulevard" (JS.Fin 1000) (JS.Fin 72) [at_ 0 1];
           stepAt "Arrive at destination" (JS.Fin 1000) (JS.Fin 72) [at_ 0 2]].

(** A single step of distance 0 and duration 60 s that ends at the
    antipode of [origin]. *)
Definition routeZeroLength : NavigationRoute :=
  routeOf [stepAt "Head north on current road" JS.zero (JS.Fin 60) [at_ 0 180]].

End RoutingSpec.

Module SimplifierSpec.

Import MemoryManager.

(** The shape of a result: same first and last point, no more points. *)
Definition simplifies {A : Type} (points r : list A) : Prop :=
  hd_error r = hd_error points /\
  (forall d, List.last r d = List.last points d) /\
  (length r <= length points)%nat /\
  (2 <= length points -> 2 <= length r)%nat /\
  (points <> [] -> r <> []).

(** A call that returns within no recursion depth. *)
Definition neverReturns {A : Type} (call : nat -> option A) : Prop :=
  forall fuel, call fuel = None.

(** A binary64 value that is a number. *)
Definition isNumber (x : float) : Prop := (x =? x)%float = true.

(** For every chord between two points of the list, the distance that
    [pointToLineDistance] computes from the end point of the chord to the
    chord does not exceed the tolerance.  In exact arithmetic that distance
    is 0; as computed it can be a rounding error. *)
Definition endsWithin (tolerance : float) (points : list LatLng) : bool :=
  forallb
    (fun a =>
       forallb (fun b => negb (tolerance <? pointToLineDistance b a b)%float) points)
    points.

Definition latLng (lat lon : float) : LatLng :=
  {| latitude := lat; longitude := lon |}.

(** Three equal points, three points on the equator, and three points on
    the meridian 0 whose chord has a rounded end. *)
Definition threeTimesOrigin : list LatLng :=
  [latLng 0 0; latLng 0 0; latLng 0 0].

Definition shortRoute : list LatLng :=
  [latLng 0 0; latLng 0 1; latLng 0 2].

Definition roundedEnd : list LatLng :=
  [latLng (-90) 0; latLng (-90) 0; latLng (-0x1.f333333333333p+4) 0].

End SimplifierSpec.

Module ThrottleSpec.

Import PerformanceOptimizer.

Local Open Scope Z_scope.

(** A sample reports a speed of at least 1 m/s. *)
Definition isMoving (location : UserLocation) : bool :=
  match speed location with
  | Some v => JS.ge v (JS.Fin 1)
  | None => false
  end.

(** A position sample at [origin] with the given speed and timestamp. *)
Definition sampleWithSpeed (v : option JS.number) (time : Z) : UserLocation :=
  {| loc_coordinates := RoutingSpec.origin;
     loc_heading := None;
     speed := v;
     accuracy := None;
     timestamp := time |}.

(** A clock reading of the year 2023. *)
Definition t0 : Z := 1700000000000.

(** The throttler after it accepted a first sample at [t0]. *)
Definition afterFirstSample : t := setLastLocationUpdate t0 init.

(** A run of the position gate over a sequence of samples, each with its two
    clock readings; returns the verdicts and the final state. *)
Fixpoint feedLocations (samples : list (UserLocation * Z * Z)) (st : t)
  : list bool * t :=
  match samples with
  | [] => ([], st)
  | (location, now, now') :: rest =>
      let '(b, st1) := shouldUpdateLocation location now now' st in
      let '(bs, st2) := feedLocations rest st1 in
      (b :: bs, st2)
  end.

(** A run in which a fast sample arrives 500 ms after an accepted slow one. *)
Definition slowThenFast : list (UserLocation * Z * Z) :=
  [(sampleWithSpeed None t0, t0, t0);
   (sampleWithSpeed None (t0 + 1000), t0 + 1000, t0 + 1000);
   (sampleWithSpeed (Some (JS.Fin 5)) (t0 + 1500), t0 + 1500, t0 + 1500)].

(** The state after the second sample of [slowThenFast]. *)
Definition stationarySince : t :=
  {| lastLocationUpdate := t0 + 1000;
     lastOrientationUpdate := 0;
     isStationary := true;
     stationaryStartTime := t0 + 1000;
     lastMapUpdateLocation := None |}.

(** The throttler after it accepted a first heading sample at [t0]. *)
Definition afterFirstHeading : t :=
  snd (shouldUpdateOrientation t0 init).

End ThrottleSpec.

Module SmootherSpec.

Import OrientationService.

Local Open Scope R_scope.

(** [r'] is [r] reduced into [[0, 360)]. *)
Definition normalized (r r' : R) : Prop :=
  0 <= r' < 360 /\ exists z : Z, r' = r + 360 * IZR z.

(** The last smoothed heading, when there is one, is a real in [[0, 360)]. *)
Definition wellFormed (st : t) : Prop :=
  match lastOrientation st with
  | Some last => exists c, heading last = JS.Fin c /\ 0 <= c < 360
  | None => True
  end.

(** A heading event of 90 degrees. *)
Definition eastEvent : OrientationEvent :=
  ObjectEvent (Some (JS.Fin 90)) None (Some (JS.Fin 1)).

(** A whole number of degrees.  Sums and differences of such headings in
    the range of the smoother are computed without rounding. *)
Definition wholeDegrees (r : R) : Prop := exists z : Z, r = IZR z.

(** The service after a heading of 10 degrees, with the smoothing factor
    set to 0. *)
Definition unsmoothed : t :=
  {| lastOrientation :=
       Some {| heading := JS.Fin 10; accuracy := JS.Fin 1;
               timestamp := 1700000000000 |};
     smoothingFactor := JS.zero |}.

End SmootherSpec.

(** *** Vocabulary for the heading arithmetic in double precision *)

Module RoundingSpec.
Import HeadingBinary64.

(** The double that is [n], a whole number of degrees. *)
Fixpoint degrees (n : nat) : float :=
  match n with
  | O => 0%float
  | S n' => (degrees n' + 1)%float
  end.

(** With smoothing factor 0 and last heading [c], the smoothed heading for
    the new heading [r] is [r] itself, bit for bit. *)
Definition unchangedAtZero (c r : float) : bool :=
  match applySmoothingToHeading 3 0%float c r with
  | Some h => PrimFloat.Leibniz.eqb h r
  | None => false
  end.

End RoundingSpec.

Module MapSpec.

Import CarParkingMap.

Local Open Scope Z_scope.

(** The interaction at [now] is let through by the 100 ms throttle. *)
Definition passesThrottle (now : Z) (st : t) : Prop :=
  100 <= now - interactionLastCallTime st.

(** Events during which the idle timer due at [due] does not fire and the
    user does nothing: renders, and turns of the event loop before [due]. *)
Definition quiet (due : Z) (events : list Event) : Prop :=
  Forall (fun e => match e with
                   | Interact _ => False
                   | Tick now => now < due
                   | Render => True
                   end) events.

(** A sequence of events in which every interaction passes the throttle and
    every interaction and timer turn comes less than 10 s after the latest
    interaction, the first of them after the one at [lastInteraction]. *)
Fixpoint keptAlive (lastInteraction : Z) (events : list Event) (st : t) : Prop :=
  match events with
  | [] => True
  | Interact now :: rest =>
      now < lastInteraction + USER_IDLE_TIMEOUT /\ passesThrottle now st /\
      keptAlive now rest (step (Interact now) st)
  | Tick now :: rest =>
      now < lastInteraction + USER_IDLE_TIMEOUT /\
      keptAlive lastInteraction rest (step (Tick now) st)
  | Render :: rest => keptAlive lastInteraction rest (step Render st)
  end.

(** The throttled closure reads the current [navigationState.isNavigating]:
    the component has rendered since that value last changed. *)
Definition inStep (st : t) : Prop :=
  interactionIsNavigating st = isNavigating (navigationState st).

(** The camera is user-controlled, the closure is in step and the idle
    timer, which exists exactly during navigation, is due at [due]. *)
Definition armed (due : Z) (st : t) : Prop :=
  isUserControlled (cameraState st) = true /\
  inStep st /\
  userIdleTimeout st =
    if isNavigating (navigationState st) then Some due else None.

(** A position, a parking slot. *)
Definition someLocation : UserLocation :=
  {| loc_coordinates := RoutingSpec.origin;
     loc_heading := None;
     speed := Some (JS.Fin 5);
     accuracy := None;
     timestamp := ThrottleSpec.t0 |}.

Definition someSlot : ParkingSlot :=
  {| slot_id := "slot-1"; slot_name := "Emporium Mall Parking";
     slot_coordinates := RoutingSpec.at_ 0 2 |}.

(** The component during navigation, freshly rendered. *)
Definition navigating : t :=
  render
    (handleStartNavigation someSlot
       (RoutingService.Fetched RoutingSpec.routeThreeLegs) ThrottleSpec.t0
       (setUserLocation someLocation (init ThrottleSpec.t0))).

End MapSpec.

(** Runs of the gates of the throttler over sequences of samples. *)

Module GateSpec.
Import PerformanceOptimizer.
Import ThrottleSpec.
Local Open Scope Z_scope.

(** Each element of the list comes at least [gap] after the one before it,
    the first of them after [prev] when there is one. *)
Fixpoint spacedAfter (gap : Z) (prev : option Z) (l : list Z) : Prop :=
  match l with
  | [] => True
  | x :: rest =>
      match prev with Some p => gap <= x - p | None => True end /\
      spacedAfter gap (Some x) rest
  end.

(** The clock readings at which the heading gate accepts, over a sequence of
    calls, and the final state. *)
Fixpoint feedOrientation (times : list Z) (st : t) : list Z * t :=
  match times with
  | [] => ([], st)
  | now :: rest =>
      let '(b, st1) := shouldUpdateOrientation now st in
      let '(accepted, st2) := feedOrientation rest st1 in
      (if b then now :: accepted else accepted, st2)
  end.

(** The clock readings at which a throttled function runs, over a sequence
    of calls of the closure, and the final [lastCallTime]. *)
Fixpoint feedThrottle (delay : Z) (times : list Z) (lastCallTime : Z) : list Z * Z :=
  match times with
  | [] => ([], lastCallTime)
  | now :: rest =>
      let '(b, last1) := throttle delay now lastCallTime in
      let '(ran, last2) := feedThrottle delay rest last1 in
      (if b then now :: ran else ran, last2)
  end.

(** The first clock readings of the samples that the position gate accepts. *)
Fixpoint acceptedTimes (samples : list (UserLocation * Z * Z)) (verdicts : list bool)
  : list Z :=
  match samples, verdicts with
  | (_, now, _) :: samples, b :: verdicts =>
      if b then now :: acceptedTimes samples verdicts
      else acceptedTimes samples verdicts
  | _, _ => []
  end.

(** The last accepted position sample, if any: [lastLocationUpdate] is 0
    until one is accepted. *)
Definition lastAccepted (st : t) : option Z :=
  if lastLocationUpdate st =? 0 then None else Some (lastLocationUpdate st).

(** The coordinates that the map gate accepts, over a sequence of
    locations, and the final state. *)
Fixpoint feedMap (locations : list UserLocation) (st : t) : list Coordinates * t :=
  match locations with
  | [] => ([], st)
  | location :: rest =>
      let '(b, st1) := shouldUpdateMap location st in
      let '(accepted, st2) := feedMap rest st1 in
      (if b then loc_coordinates location :: accepted else accepted, st2)
  end.

(** Each point of the list is at least 10 m from the one before it, the
    first of them from [prev] when there is one. *)
Fixpoint movedApart (prev : option Coordinates) (l : list Coordinates) : Prop :=
  match l with
  | [] => True
  | x :: rest =>
      match prev with
      | Some p => JS.ge (calculateDistance p x) (JS.Fin 10) = true
      | None => True
      end /\
      movedApart (Some x) rest
  end.

(** A coordinate of the point is not a number. *)
Definition undefinedPoint (c : Coordinates) : Prop :=
  latitude c = JS.NaN \/ longitude c = JS.NaN.

(** A position fix whose latitude is not a number. *)
Definition fixWithoutLatitude : UserLocation :=
  {| loc_coordinates := {| latitude := JS.NaN; longitude := JS.Fin (-122) |};
     loc_heading := None;
     speed := None;
     accuracy := None;
     timestamp := t0 |}.

End GateSpec.

(** What a simplified line keeps of the original one. *)

Module CoverSpec.
Import MemoryManager.

(** [r] is made of elements of [l], in the order they have in [l]. *)
Inductive Subsequence {A : Type} : list A -> list A -> Prop :=
| sub_nil : Subsequence [] []
| sub_keep (x : A) (r l : list A) : Subsequence r l -> Subsequence (x :: r) (x :: l)
| sub_drop (x : A) (r l : list A) : Subsequence r l -> Subsequence r (x :: l).

(** [a] and [b] follow each other in [r]. *)
Definition consecutive {A : Type} (a b : A) (r : list A) : Prop :=
  exists pre post, r = pre ++ a :: b :: post.

(** Every point of [points] is a point of [r] or is, as
    [pointToLineDistance] computes it, not farther than [tolerance] from a
    segment joining two consecutive points of [r]. *)
Definition coveredBy (tolerance : float) (points r : list LatLng) : Prop :=
  forall p, In p points ->
  In p r \/
  exists a b, consecutive a b r /\
              (tolerance <? pointToLineDistance p a b)%float = false.

End CoverSpec.

(** Runs of a debounced closure. *)

Module DebounceSpec.
Import PerformanceOptimizer.
Local Open Scope Z_scope.

(** What happens to a debounced closure: it is called, or the event loop
    takes a turn. *)
Inductive DebounceEvent (A : Type) : Type :=
| Call (now : Z) (args : A)
| Turn (now : Z).
Arguments Call {A} now args.
Arguments Turn {A} now.

(** The arguments [func] is called with over a sequence of events, in
    order, and the timer left pending. *)
Fixpoint runDebounce {A : Type} (delay : Z) (events : list (DebounceEvent A))
  (timeoutId : option (Z * A)) : list A * option (Z * A) :=
  match events with
  | [] => ([], timeoutId)
  | Call now args :: rest => runDebounce delay rest (debounce delay now args timeoutId)
  | Turn now :: rest =>
      let '(fired, timeoutId) := runTimers now timeoutId in
      let '(calls, final) := runDebounce delay rest timeoutId in
      (match fired with Some a => a :: calls | None => calls end, final)
  end.

(** Every turn of the event loop comes before the pending timer, set by the
    latest call, is due ([due] is the time at which the timer pending at
    the start is due). *)
Fixpoint busy {A : Type} (delay : Z) (due : option Z) (events : list (DebounceEvent A))
  : Prop :=
  match events with
  | [] => True
  | Call now _ :: rest => busy delay (Some (now + delay)) rest
  | Turn now :: rest =>
      match due with Some d => now < d | None => True end /\ busy delay due rest
  end.

End DebounceSpec.

(** Sample data of the orientation service. *)

Module HeadingSpec.
Import OrientationService.
Local Open Scope R_scope.

(** The service after a heading of 10 degrees, with the smoothing factor
    set to 1. *)
Definition fullySmoothed : t :=
  {| lastOrientation :=
       Some {| heading := JS.Fin 10; accuracy := JS.Fin 1;
               timestamp := 1700000000000 |};
     smoothingFactor := JS.one |}.

(** A magnetometer reading along the x axis. *)
Definition alongX : Magnetometer :=
  {| mag_x := JS.Fin 1; mag_y := JS.Fin 0; mag_z := JS.Fin 0 |}.

End HeadingSpec.

(** The route of the mock provider. *)

Module MockSpec.
Import RoutingService.

(** The point and the step that the loop of [getMockRoute] adds at counter
    [i]. *)
Definition mockPoint (origin destination : Coordinates) (numberOfSteps : JS.number)
  (i : nat) : Coordinates :=
  let ratio := JS.div (JS.ofNat i) numberOfSteps in
  {| latitude :=
       JS.add (latitude origin)
         (JS.mul (JS.sub (latitude destination) (latitude origin)) ratio);
     longitude :=
       JS.add (longitude origin)
         (JS.mul (JS.sub (longitude destination) (longitude origin)) ratio) |}.

Definition mockStep (origin destination : Coordinates)
  (totalDistance totalDuration numberOfSteps : JS.number) (i : nat) : RouteStep :=
  {| instruction := generateMockInstruction i numberOfSteps;
     distance := JS.div totalDistance numberOfSteps;
     duration := JS.div totalDuration numberOfSteps;
     coordinates := [mockPoint origin destination numberOfSteps i];
     maneuver :=
       Some {| maneuver_type :=
                 if JS.eqb (JS.ofNat i) JS.zero then "depart"
                 else if JS.eqb (JS.ofNat i) (JS.sub numberOfSteps JS.one)
                      then "arrive" else "turn";
               modifier :=
                 Some (if (i mod 3 =? 0)%nat then "left"
                       else if (i mod 3 =? 1)%nat then "right"
                       else "straight")%string |} |}.

(** Every step of the route has at least one geometry point. *)
Definition hasGeometry (route : NavigationRoute) : Prop :=
  Forall (fun s => coordinates s <> []) (steps route).

(** A point whose latitude is not a number. *)
Definition noLatitude : Coordinates :=
  {| latitude := JS.NaN; longitude := JS.Fin 0 |}.

End MockSpec.

(** The polyline encoding. *)

Module PolylineSpec.
Import RoutingService.
Local Open Scope Z_scope.

(** The Encoded Polyline Algorithm Format that [decodePolyline] reads: a
    signed value is doubled, and inverted when negative; the result is cut
    into 5-bit chunks, lowest first; 32 is added to every chunk but the
    last, and 63 to each. *)
Definition zigzag (v : Z) : Z := if v <? 0 then - (2 * v) - 1 else 2 * v.

Fixpoint chunks (fuel : nat) (n : Z) : list Z :=
  match fuel with
  | O => []
  | S fuel' =>
      if 32 <=? n then (n mod 32 + 32 + 63) :: chunks fuel' (n / 32)
      else [n + 63]
  end.

Fixpoint stringOfCodes (codes : list Z) : string :=
  match codes with
  | [] => EmptyString
  | c :: rest => String (Ascii.ascii_of_nat (Z.to_nat c)) (stringOfCodes rest)
  end.

Definition encodeValue (v : Z) : string := stringOfCodes (chunks 7 (zigzag v)).

(** The encoding of a path of points given in units of 1e-5 degrees, each
    as its difference from the point before it ([prev] at the start). *)
Fixpoint encodePath (prevLat prevLng : Z) (points : list (Z * Z)) : string :=
  match points with
  | [] => EmptyString
  | (lat, lng) :: rest =>
      (encodeValue (lat - prevLat) ++ encodeValue (lng - prevLng)
       ++ encodePath lat lng rest)%string
  end.

Definition encodePolyline (points : list (Z * Z)) : string := encodePath 0 0 points.

(** The coordinates of a point given in units of 1e-5 degrees. *)
Definition e5 (p : Z * Z) : Coordinates :=
  {| latitude := JS.div (JS.ofZ (fst p)) (JS.Fin 100000);
     longitude := JS.div (JS.ofZ (snd p)) (JS.Fin 100000) |}.

(** A latitude from -90 to 90 degrees and a longitude from -180 to 180. *)
Definition onEarth (p : Z * Z) : Prop :=
  -9000000 <= fst p <= 9000000 /\ -18000000 <= snd p <= 18000000.

(** Three points of the western United States, in units of 1e-5 degrees:
    (38.5, -120.2), (40.7, -120.95) and (43.252, -126.453). *)
Definition westernPath : list (Z * Z) :=
  [(3850000, -12020000); (4070000, -12095000); (4325200, -12645300)].

End PolylineSpec.

(** Invariants of the component. *)

Module ComponentSpec.
Import CarParkingMap.
Local Open Scope Z_scope.

(** The bottom sheet is visible exactly when a parking slot is selected. *)
Definition sheetConsistent (st : t) : Prop :=
  isBottomSheetVisible st = true <-> selectedParkingSlot st <> None.

(** An idle timer is pending only with the camera under the user's
    control. *)
Definition timerConsistent (st : t) : Prop :=
  userIdleTimeout st <> None -> isUserControlled (cameraState st) = true.

(** Once the component has rendered, the throttled handler reads the
    current [navigationState.isNavigating]. *)
Definition closureConsistent (st : t) : Prop :=
  callbackStale st = false ->
  interactionIsNavigating st = isNavigating (navigationState st).

(** During navigation the progress shown is the one set when navigation
    started: the first step and the whole distance of the route. *)
Definition progressFrozen (st : t) : Prop :=
  isNavigating (navigationState st) = true ->
  userLocation st <> None /\
  exists route,
    currentRoute (navigationState st) = Some route /\
    currentStepIndex (navigationState st) = 0%nat /\
    nav_remainingDistance (navigationState st) = route_distance route /\
    nav_nextTurnInstruction (navigationState st)
      = option_map instruction (nth_error (steps route) 0) /\
    nav_nextTurnDistance (navigationState st)
      = option_map distance (nth_error (steps route) 0).

(** The user does not touch the map: the events are renders and turns of
    the event loop. *)
Definition untouched (events : list Event) : Prop :=
  Forall (fun e => match e with Interact _ => False | _ => True end) events.

End ComponentSpec.

(** * Properties *)

(** ** Facts about JavaScript numbers *)

Module JSFacts.

Import JS.

Ltac Rdecide :=
  unfold Reqb, Rltb in *;
  repeat match goal with
  | |- context [Req_dec_T ?a ?b] => destruct (Req_dec_T a b)
  | |- context [Rlt_dec ?a ?b] => destruct (Rlt_dec a b)
  | H : context [Req_dec_T ?a ?b] |- _ => destruct (Req_dec_T a b)
  | H : context [Rlt_dec ?a ?b] |- _ => destruct (Rlt_dec a b)
  end.

Lemma Reqb_true (x y : R) : Reqb x y = true <-> x = y.
Proof. unfold Reqb; destruct (Req_dec_T x y); split; congruence. Qed.

Lemma Reqb_false (x y : R) : Reqb x y = false <-> x <> y.
Proof. unfold Reqb; destruct (Req_dec_T x y); split; congruence. Qed.

Lemma Rltb_true (x y : R) : Rltb x y = true <-> (x < y)%R.
Proof. unfold Rltb; destruct (Rlt_dec x y); split; intros; congruence || lra. Qed.

Lemma Rltb_false (x y : R) : Rltb x y = false <-> (y <= x)%R.
Proof. unfold Rltb; destruct (Rlt_dec x y); split; intros; congruence || lra. Qed.

Lemma Reqb_refl (x : R) : Reqb x x = true.
Proof. now apply Reqb_true. Qed.

Lemma add_zero_l (x : number) : add zero x = x.
Proof. destruct x; simpl; try reflexivity. f_equal; lra. Qed.

Lemma add_zero_r (x : number) : add x zero = x.
Proof. destruct x; simpl; try reflexivity. f_equal; lra. Qed.

Lemma add_comm (x y : number) : add x y = add y x.
Proof. destruct x, y; simpl; try reflexivity. f_equal; lra. Qed.

Lemma add_assoc (x y z : number) : add (add x y) z = add x (add y z).
Proof. destruct x, y, z; simpl; try reflexivity. f_equal; lra. Qed.

Lemma lt_irrefl (x : number) : lt x x = false.
Proof. destruct x; simpl; try reflexivity. apply Rltb_false; lra. Qed.

Lemma lt_trans (x y z : number) : lt x y = true -> lt y z = true -> lt x z = true.
Proof.
  destruct x, y, z; simpl; try congruence.
  rewrite !Rltb_true; lra.
Qed.

Lemma lt_asym (x y : number) : lt x y = true -> lt y x = false.
Proof.
  destruct x, y; simpl; try congruence.
  rewrite Rltb_true, Rltb_false; lra.
Qed.

Lemma le_lt_trans (x y z : number) : le x y = true -> lt y z = true -> lt x z = true.
Proof.
  unfold le; destruct x, y, z; simpl; try congruence.
  rewrite orb_true_iff, !Rltb_true, Reqb_true; lra.
Qed.

(** On finite numbers the comparisons are those of the reals. *)
Lemma lt_Fin (a b : R) : lt (Fin a) (Fin b) = true <-> (a < b)%R.
Proof. apply Rltb_true. Qed.

Lemma le_Fin (a b : R) : le (Fin a) (Fin b) = true <-> (a <= b)%R.
Proof.
  unfold le; simpl. rewrite orb_true_iff, Rltb_true, Reqb_true. lra.
Qed.

Lemma eqb_Fin (a b : R) : eqb (Fin a) (Fin b) = true <-> a = b.
Proof. apply Reqb_true. Qed.

(** [a < b <= c] gives [a < c]; [b <= c] is stated as [c < b] being false
    for a [c] that is a number. *)
Lemma lt_nlt_trans (a b c : number) :
  lt a b = true -> lt c b = false -> notNaN c -> lt a c = true.
Proof.
  unfold notNaN; destruct a, b, c; simpl; try congruence.
  rewrite !Rltb_true, Rltb_false; lra.
Qed.

Lemma lt_notNaN_l (a b : number) : lt a b = true -> notNaN a.
Proof. unfold notNaN; destruct a; simpl; congruence. Qed.

Lemma nlt_refl_trans (a b c : number) :
  lt a b = false -> lt b c = false -> notNaN b -> lt a c = false.
Proof.
  unfold notNaN; destruct a, b, c; simpl; try congruence.
  rewrite !Rltb_false; lra.
Qed.

Lemma div_Fin (a b : R) : b <> 0%R -> div (Fin a) (Fin b) = Fin (a / b).
Proof. intros H; simpl. apply Reqb_false in H. now rewrite H. Qed.

Lemma sqrt_Fin (r : R) : (0 <= r)%R -> sqrt (Fin r) = Fin (R_sqrt.sqrt r).
Proof. intros H; simpl. apply Rltb_false in H. now rewrite H. Qed.

(** A value that is not finite stays so under sums, products and quotients
    by zero. *)
Lemma add_not_finite_l (x y : number) : ~ is_finite x -> ~ is_finite (add x y).
Proof.
  unfold is_finite; intros Hx [r Hr]; apply Hx.
  destruct x, y; simpl in Hr; try discriminate; eauto.
Qed.

Lemma mul_not_finite_l (x y : number) : ~ is_finite x -> ~ is_finite (mul x y).
Proof.
  unfold is_finite; intros Hx [r Hr]; apply Hx.
  destruct x, y; simpl in Hr; unfold signed_inf in Hr; Rdecide;
    try discriminate; eauto.
Qed.

Lemma div_zero_not_finite (x : number) : ~ is_finite (div x zero).
Proof.
  unfold is_finite, zero; intros [r Hr].
  destruct x; simpl in Hr; Rdecide; try discriminate; lra.
Qed.

Lemma div_zero_zero : div zero zero = NaN.
Proof. unfold zero; simpl. now rewrite Reqb_refl. Qed.

Lemma div_pos_zero (a : R) : (0 < a)%R -> div (Fin a) zero = PInf.
Proof. intros H; unfold zero; simpl. Rdecide; try lra; reflexivity. Qed.

Lemma mul_PInf_pos (u : R) : (0 < u)%R -> mul PInf (Fin u) = PInf.
Proof. intros H; simpl; unfold signed_inf. Rdecide; try lra; reflexivity. Qed.

Lemma add_PInf_finite (y : number) : is_finite y -> add PInf y = PInf.
Proof. intros [r ->]; reflexivity. Qed.

End JSFacts.

(** ** Facts about binary64 comparisons *)

Module Float64Facts.

Import SimplifierSpec.

Lemma compare_cont_Eq (m1 m2 : positive) :
  Pos.compare_cont Eq m1 m2 = Pos.compare m1 m2.
Proof. reflexivity. Qed.

Ltac cases_cmp :=
  repeat match goal with
  | |- context [Z.compare ?a ?b] =>
      let H := fresh in destruct (Z.compare_spec a b) as [H|H|H]; try subst
  | |- context [Pos.compare_cont Eq ?a ?b] =>
      rewrite (compare_cont_Eq a b);
      let H := fresh in destruct (Pos.compare_spec a b) as [H|H|H]; try subst
  | H : context [Z.compare ?a ?b] |- _ =>
      let H' := fresh in destruct (Z.compare_spec a b) as [H'|H'|H']; try subst
  | H : context [Pos.compare_cont Eq ?a ?b] |- _ =>
      rewrite (compare_cont_Eq a b) in H;
      let H' := fresh in destruct (Pos.compare_spec a b) as [H'|H'|H']; try subst
  end.

Lemma SFltb_irrefl (x : spec_float) : SFltb x x = false.
Proof.
  unfold SFltb, SFcompare.
  destruct x as [s|s| |s m e]; try destruct s; try reflexivity;
    cases_cmp; cbn; try reflexivity; try lia.
Qed.

Lemma SFltb_number_r (x y : spec_float) : SFltb x y = true -> SFeqb y y = true.
Proof.
  unfold SFltb, SFeqb, SFcompare.
  destruct x as [s|s| |s m e], y as [s'|s'| |s' m' e'];
    try destruct s; try destruct s';
    try discriminate; try reflexivity; intros _;
    cases_cmp; cbn; try reflexivity; try lia.
Qed.

Lemma SFltb_asym (x y : spec_float) : SFltb x y = true -> SFltb y x = false.
Proof.
  unfold SFltb, SFcompare.
  destruct x as [s|s| |s m e], y as [s'|s'| |s' m' e'];
    try destruct s; try destruct s';
    try discriminate; try reflexivity;
    cases_cmp; cbn; try reflexivity; try discriminate; try lia.
Qed.

(** [a <= b] and [b <= c] give [a <= c], written with the negations of
    [<] that the code tests; [b] must be a number. *)
Lemma SFltb_nlt_trans (a b c : spec_float) :
  SFeqb b b = true -> SFltb b a = false -> SFltb c b = false -> SFltb c a = false.
Proof.
  unfold SFltb, SFeqb, SFcompare.
  destruct a as [sa|sa| |sa ma ea], b as [sb|sb| |sb mb eb], c as [sc|sc| |sc mc ec];
    try destruct sa; try destruct sb; try destruct sc;
    try discriminate; try reflexivity; intros _;
    cases_cmp; cbn; try reflexivity; try discriminate; try lia.
Qed.

Lemma ltb_irrefl (x : float) : (x <? x)%float = false.
Proof. rewrite ltb_spec. apply SFltb_irrefl. Qed.

Lemma ltb_asym (x y : float) : (x <? y)%float = true -> (y <? x)%float = false.
Proof. rewrite !ltb_spec. apply SFltb_asym. Qed.

Lemma ltb_number_r (x y : float) : (x <? y)%float = true -> isNumber y.
Proof. unfold isNumber. rewrite ltb_spec, FloatAxioms.eqb_spec. apply SFltb_number_r. Qed.

Lemma ltb_nlt_trans (a b c : float) :
  isNumber b -> (b <? a)%float = false -> (c <? b)%float = false ->
  (c <? a)%float = false.
Proof. unfold isNumber. rewrite !ltb_spec, FloatAxioms.eqb_spec. apply SFltb_nlt_trans. Qed.

End Float64Facts.

(** ** The progress tracker ([RoutingService]) *)

Module RoutingProps.

Import RoutingSpec.
Import RoutingService.
Import JSFacts.

Lemma skipn_nth_error {A : Type} (l : list A) (i : nat) (x : A) :
  nth_error l i = Some x -> skipn i l = x :: skipn (S i) l.
Proof.
  revert i; induction l as [|y l IH]; intros [|i] H; simpl in *; try discriminate.
  - now inversion H.
  - now apply IH.
Qed.

Lemma addRemainingSteps_skipn (l : list RouteStep) :
  forall n i acc, n = (length l - i)%nat ->
  addRemainingSteps n i l acc = fold_left stepAcc (skipn i l) acc.
Proof.
  induction n as [|n IH]; intros i acc Hn; simpl.
  - rewrite skipn_all2 by lia. reflexivity.
  - destruct (nth_error l i) as [s|] eqn:Hs.
    + rewrite (skipn_nth_error _ _ _ Hs). simpl. apply IH. lia.
    + apply nth_error_None in Hs. lia.
Qed.

Lemma fold_stepAcc_fst (l : list RouteStep) :
  forall acc, fst (fold_left stepAcc l acc) = JS.add (fst acc) (sumDistances l).
Proof.
  induction l as [|s l IH]; intros acc; simpl.
  - now rewrite add_zero_r.
  - rewrite IH. simpl. apply add_assoc.
Qed.

Lemma fold_stepAcc_snd (l : list RouteStep) :
  forall acc, snd (fold_left stepAcc l acc) = JS.add (snd acc) (sumDurations l).
Proof.
  induction l as [|s l IH]; intros acc; simpl.
  - now rewrite add_zero_r.
  - rewrite IH. simpl. apply add_assoc.
Qed.

(** What [calculateProgress] returns when the current step has a last
    geometry point [e] and the following step, if any, has a first one. *)
Lemma calculateProgress_returns (pos : Coordinates) (route : NavigationRoute)
  (i : nat) (cur : RouteStep) (e : Coordinates) :
  nth_error (steps route) i = Some cur ->
  lastElement (coordinates cur) = Some e ->
  (forall nxt, nth_error (steps route) (i + 1) = Some nxt -> coordinates nxt <> []) ->
  exists p,
    calculateProgress pos route i = Ok p /\
    remainingDistance p =
      JS.add (calculateDistance pos e) (sumDistances (skipn (i + 1) (steps route))) /\
    remainingTime p =
      JS.add (JS.mul (JS.div (calculateDistance pos e) (distance cur)) (duration cur))
        (sumDurations (skipn (i + 1) (steps route))) /\
    match nth_error (steps route) (i + 1) with
    | Some nxt =>
        nextTurnInstruction p = Some (instruction nxt) /\
        exists c, nth_error (coordinates nxt) 0 = Some c /\
                  nextTurnDistance p = Some (calculateDistance pos c)
    | None => nextTurnInstruction p = None /\ nextTurnDistance p = None
    end.
Proof.
  intros Hcur Hlast Hnext.
  assert (Hi : (i < length (steps route))%nat)
    by (apply nth_error_Some; congruence).
  unfold calculateProgress.
  apply Nat.ltb_lt in Hi. rewrite Hi, Hcur, Hlast. cbn [calculateDistanceTo bind].
  rewrite addRemainingSteps_skipn by reflexivity.
  destruct (nth_error (steps route) (i + 1)) as [nxt|] eqn:Hn.
  - assert (Hlt : (i + 1 <? length (steps route))%nat = true).
    { apply Nat.ltb_lt, nth_error_Some. congruence. }
    rewrite Hlt.
    destruct (coordinates nxt) as [|c cs] eqn:Hc.
    + exfalso. apply (Hnext nxt eq_refl). exact Hc.
    + cbn [nth_error calculateDistanceTo bind fst snd].
      eexists; split; [reflexivity|]. cbn [remainingDistance remainingTime
        nextTurnInstruction nextTurnDistance].
      rewrite fold_stepAcc_fst, fold_stepAcc_snd. cbn [fst snd].
      rewrite !add_zero_l. repeat split; eauto.
  - assert (Hlt : (i + 1 <? length (steps route))%nat = false).
    { apply Nat.ltb_ge, nth_error_None. exact Hn. }
    rewrite Hlt. cbn [bind fst snd].
    eexists; split; [reflexivity|]. cbn [remainingDistance remainingTime
      nextTurnInstruction nextTurnDistance].
    rewrite fold_stepAcc_fst, fold_stepAcc_snd. cbn [fst snd].
    rewrite !add_zero_l. repeat split; eauto.
Qed.

(** *** [findCurrentStepIndex] *)

Lemma atan2_not_infinite (y x : JS.number) :
  JS.atan2 y x = JS.NaN \/ JS.is_finite (JS.atan2 y x).
Proof.
  unfold JS.is_finite; destruct y, x; simpl; Rdecide; eauto.
Qed.

Lemma mul_Fin_not_infinite (a : R) (t : JS.number) :
  t = JS.NaN \/ JS.is_finite t ->
  JS.mul (JS.Fin a) t = JS.NaN \/ JS.is_finite (JS.mul (JS.Fin a) t).
Proof.
  unfold JS.is_finite; intros [-> | [r ->]]; simpl; eauto.
Qed.

(** The haversine distance is a real number or [NaN], never infinite. *)
Lemma calculateDistance_not_infinite (c1 c2 : Coordinates) :
  calculateDistance c1 c2 = JS.NaN \/ JS.is_finite (calculateDistance c1 c2).
Proof.
  unfold calculateDistance.
  apply mul_Fin_not_infinite, mul_Fin_not_infinite, atan2_not_infinite.
Qed.

Section Closest.

Variable pos : Coordinates.

Local Abbreviation d := (calculateDistance pos).

(** The inner loop over one step's geometry. *)
Lemma visitCoord_fold (idx : nat) (cs : list Coordinates) :
  forall m i, JS.notNaN m ->
  let acc := fold_left (visitCoord pos idx) cs (m, i) in
  JS.notNaN (fst acc) /\
  JS.lt m (fst acc) = false /\
  (forall q, In q cs -> JS.lt (d q) (fst acc) = false) /\
  (acc = (m, i) \/
   (JS.lt (fst acc) m = true /\ snd acc = idx /\ exists p, In p cs /\ d p = fst acc)).
Proof.
  induction cs as [|c cs IH]; intros m i Hm; cbn [fold_left].
  - cbn. repeat split; auto using lt_irrefl. intros q [].
  - assert (Hv : visitCoord pos idx (m, i) c
                 = if JS.lt (d c) m then (d c, idx) else (m, i)) by reflexivity.
    rewrite Hv. cbv zeta. destruct (JS.lt (d c) m) eqn:Hlt.
    + destruct (IH (d c) idx (lt_notNaN_l _ _ Hlt)) as (Hn & Hle & Hall & Hcase).
      split; [exact Hn|]. split.
      { destruct (JS.lt m (fst (fold_left (visitCoord pos idx) cs (d c, idx)))) eqn:E;
          [|reflexivity].
        pose proof (lt_trans _ _ _ Hlt E) as F.
        rewrite Hle in F. discriminate. }
      split.
      { intros q [<- | Hq]; [exact Hle | now apply Hall]. }
      right. destruct Hcase as [Heq | (Hlt' & Hi & p & Hp & Hd)].
      * rewrite Heq. cbn. repeat split; auto. exists c; cbn; auto.
      * repeat split; auto.
        -- eapply lt_trans; eauto.
        -- exists p; cbn; auto.
    + destruct (IH m i Hm) as (Hn & Hle & Hall & Hcase).
      split; [exact Hn|]. split; [exact Hle|]. split.
      { intros q [<- | Hq]; [|now apply Hall].
        eapply nlt_refl_trans; eauto. }
      destruct Hcase as [Heq | (Hlt' & Hi & p & Hp & Hd)]; [left; exact Heq|].
      right. repeat split; auto. exists p; cbn; auto.
Qed.

(** The outer loop: when the pair changes, the final index is that of the
    first step holding a point at the final minimum, and every point of an
    earlier step is not at or below it. *)
Lemma visitSteps_spec (l : list RouteStep) :
  forall idx m i, JS.notNaN m ->
  let acc := visitSteps pos l idx (m, i) in
  JS.notNaN (fst acc) /\
  JS.lt m (fst acc) = false /\
  (forall k s q, nth_error l k = Some s -> In q (coordinates s) ->
                 JS.lt (d q) (fst acc) = false) /\
  (acc = (m, i) \/
   (JS.lt (fst acc) m = true /\
    exists k s p, nth_error l k = Some s /\ In p (coordinates s) /\
                  d p = fst acc /\ snd acc = (idx + k)%nat /\
                  forall k' s' q', (k' < k)%nat -> nth_error l k' = Some s' ->
                                   In q' (coordinates s') ->
                                   JS.le (d q') (fst acc) = false)).
Proof.
  induction l as [|s l IH]; intros idx m i Hm; cbn [visitSteps].
  - cbn. repeat split; auto using lt_irrefl. intros [|k] s q H; discriminate.
  - pose proof (visitCoord_fold idx (coordinates s) m i Hm) as Hin.
    cbv zeta in Hin.
    destruct (fold_left (visitCoord pos idx) (coordinates s) (m, i)) as [m1 i1] eqn:E1.
    cbn [fst snd] in Hin. destruct Hin as (Hn1 & Hle1 & Hall1 & Hcase1).
    specialize (IH (S idx) m1 i1 Hn1). cbv zeta in IH.
    destruct (visitSteps pos l (S idx) (m1, i1)) as [m2 i2] eqn:E2.
    cbn [fst snd] in *. destruct IH as (Hn2 & Hle2 & Hall2 & Hcase2).
    split; [exact Hn2|]. split.
    { eapply nlt_refl_trans; eauto. }
    split.
    { intros [|k] s' q Hk Hq; cbn in Hk.
      - inversion Hk; subst s'. eapply nlt_refl_trans; eauto.
      - eapply Hall2; eauto. }
    destruct Hcase2 as [Heq | (Hlt2 & k & s' & p & Hk & Hp & Hd & Hi & Hearlier)].
    + inversion Heq; subst m2 i2.
      destruct Hcase1 as [Heq1 | (Hlt1 & Hi1 & p & Hp & Hd)]; [left; exact Heq1|].
      right. split; [exact Hlt1|].
      exists 0%nat, s, p. cbn. repeat split; auto; try lia.
    + right. split.
      { destruct Hcase1 as [Heq1 | (Hlt1 & _)].
        - inversion Heq1; subst. exact Hlt2.
        - eapply lt_trans; eauto. }
      exists (S k), s', p. cbn [nth_error]. repeat split; auto; try lia.
      intros [|k'] s'' q' Hlt Hk' Hq'; cbn in Hk'.
      * inversion Hk'; subst s''.
        destruct (JS.le (d q') m2) eqn:Hle; [|reflexivity].
        pose proof (le_lt_trans _ _ _ Hle Hlt2) as F.
        rewrite (Hall1 q' Hq') in F. discriminate.
      * eapply Hearlier; eauto. lia.
Qed.

End Closest.

(** *** The haversine formula on real coordinates *)

Lemma calculateDistance_real (lat1 lon1 lat2 lon2 : R) :
  (0 <= haversine_a lat1 lon1 lat2 lon2 <= 1)%R ->
  calculateDistance (at_ lat1 lon1) (at_ lat2 lon2) =
  JS.Fin (6371000 * (2 * JS.Ratan2 (sqrt (haversine_a lat1 lon1 lat2 lon2))
                           (sqrt (1 + - haversine_a lat1 lon1 lat2 lon2)))).
Proof.
  intros Ha. unfold calculateDistance, at_.
  cbn [latitude longitude JS.sub JS.neg JS.add JS.mul JS.PI JS.one].
  rewrite !div_Fin by lra.
  cbn [JS.sin JS.cos JS.add JS.mul JS.neg JS.sub].
  fold (haversine_a lat1 lon1 lat2 lon2).
  rewrite !sqrt_Fin by lra. reflexivity.
Qed.

Lemma calculateDistance_origin : calculateDistance origin origin = JS.Fin 0.
Proof.
  change origin with (at_ 0 0).
  assert (Ha : haversine_a 0 0 0 0 = 0%R).
  { unfold haversine_a.
    replace ((0 + - 0) * PI / 180 / 2)%R with 0%R by lra.
    rewrite sin_0. lra. }
  rewrite calculateDistance_real by (rewrite Ha; lra).
  rewrite Ha. f_equal.
  replace (1 + - 0)%R with 1%R by lra. rewrite R_sqrt.sqrt_0, R_sqrt.sqrt_1.
  unfold JS.Ratan2. Rdecide; try lra.
  replace (0 / 1)%R with 0%R by lra. rewrite atan_0. lra.
Qed.

(** From the equator at longitude 0 to the equator at longitude 180: half
    the circumference. *)
Lemma calculateDistance_antipode :
  calculateDistance origin (at_ 0 180) = JS.Fin (6371000 * PI).
Proof.
  change origin with (at_ 0 0).
  assert (Ha : haversine_a 0 0 0 180 = 1%R).
  { unfold haversine_a.
    replace ((0 + - 0) * PI / 180 / 2)%R with 0%R by lra.
    replace ((180 + - 0) * PI / 180 / 2)%R with (PI / 2)%R by lra.
    replace (0 * PI / 180)%R with 0%R by lra.
    rewrite sin_0, cos_0, sin_PI2. lra. }
  rewrite calculateDistance_real by (rewrite Ha; lra).
  rewrite Ha. f_equal.
  replace (1 + - (1))%R with 0%R by lra. rewrite R_sqrt.sqrt_0, R_sqrt.sqrt_1.
  unfold JS.Ratan2. Rdecide; try lra.
Qed.

(** For latitudes between -90 and 90 degrees the quantity [a] lies in
    [[0, 1]], so that both square roots of the formula are defined. *)
Lemma haversine_a_bounds (lat1 lon1 lat2 lon2 : R) :
  (-90 <= lat1 <= 90)%R -> (-90 <= lat2 <= 90)%R ->
  (0 <= haversine_a lat1 lon1 lat2 lon2 <= 1)%R.
Proof.
  intros H1 H2. unfold haversine_a.
  set (p1 := (lat1 * PI / 180)%R). set (p2 := (lat2 * PI / 180)%R).
  replace ((lat2 + - lat1) * PI / 180 / 2)%R with ((p2 - p1) / 2)%R
    by (unfold p1, p2; lra).
  set (s2 := sin ((lon2 + - lon1) * PI / 180 / 2)).
  pose proof PI_RGT_0 as Hpi.
  assert (Hc1 : (0 <= cos p1)%R) by (apply cos_ge_0; unfold p1; nra).
  assert (Hc2 : (0 <= cos p2)%R) by (apply cos_ge_0; unfold p2; nra).
  assert (Hs2 : (0 <= s2 * s2 <= 1)%R).
  { pose proof (SIN_bound ((lon2 + - lon1) * PI / 180 / 2)) as B.
    fold s2 in B. nra. }
  assert (Hhalf : (sin ((p2 - p1) / 2) * sin ((p2 - p1) / 2)
                   = (1 - cos (p2 - p1)) / 2)%R).
  { pose proof (cos_2a_sin ((p2 - p1) / 2)) as E.
    replace (2 * ((p2 - p1) / 2))%R with (p2 - p1)%R in E by lra. lra. }
  rewrite Hhalf, cos_minus.
  pose proof (cos_plus p1 p2) as Eplus.
  pose proof (COS_bound (p1 + p2)) as Bplus.
  pose proof (COS_bound (p2 - p1)) as Bminus. rewrite cos_minus in Bminus.
  split; nra.
Qed.

Lemma Ratan2_nonneg (y x : R) : (0 <= y)%R -> (0 <= x)%R -> (0 <= JS.Ratan2 y x)%R.
Proof.
  intros Hy Hx. unfold JS.Ratan2. pose proof PI_RGT_0 as Hpi. Rdecide; try lra.
  assert (Hq : (0 <= y / x)%R).
  { unfold Rdiv. pose proof (Rinv_0_lt_compat x ltac:(assumption)). nra. }
  rewrite <- atan_0.
  destruct (Req_dec_T (y / x) 0) as [-> | Hne]; [lra|].
  left. apply atan_increasing. lra.
Qed.

(** The distance between two points with real coordinates and latitudes
    between -90 and 90 degrees is a non-negative real. *)
Lemma calculateDistance_valid (lat1 lon1 lat2 lon2 : R) :
  (-90 <= lat1 <= 90)%R -> (-90 <= lat2 <= 90)%R ->
  exists dist, calculateDistance (at_ lat1 lon1) (at_ lat2 lon2) = JS.Fin dist /\
               (0 <= dist)%R.
Proof.
  intros H1 H2.
  pose proof (haversine_a_bounds lat1 lon1 lat2 lon2 H1 H2) as Ha.
  rewrite (calculateDistance_real _ _ _ _ Ha).
  eexists; split; [reflexivity|].
  pose proof (Ratan2_nonneg _ _ (sqrt_pos (haversine_a lat1 lon1 lat2 lon2))
                (sqrt_pos (1 + - haversine_a lat1 lon1 lat2 lon2))).
  lra.
Qed.

(** *** The claims on [calculateProgress] and [findCurrentStepIndex] *)

(** C1 (as amended): for every route and current step index below the
    number of steps such that the current step has a last geometry point and
    the following step, when there is one, has a first geometry point,
    [calculateProgress] returns; its [remainingDistance] is the haversine
    distance from the position to the last geometry point of the current
    step plus the sum of the distances of all subsequent steps; its
    [nextTurnInstruction] is the instruction of the following step when
    there is one, and [nextTurnInstruction] and [nextTurnDistance] are
    absent at the final step. *)
Theorem calculateProgress_remaining_distance (pos : Coordinates)
  (route : NavigationRoute) (i : nat) (cur : RouteStep) (e : Coordinates) :
  nth_error (steps route) i = Some cur ->
  lastElement (coordinates cur) = Some e ->
  (forall nxt, nth_error (steps route) (i + 1) = Some nxt -> coordinates nxt <> []) ->
  exists p,
    calculateProgress pos route i = Ok p /\
    remainingDistance p =
      JS.add (calculateDistance pos e) (sumDistances (skipn (i + 1) (steps route))) /\
    match nth_error (steps route) (i + 1) with
    | Some nxt =>
        nextTurnInstruction p = Some (instruction nxt) /\
        exists c, nth_error (coordinates nxt) 0 = Some c /\
                  nextTurnDistance p = Some (calculateDistance pos c)
    | None => nextTurnInstruction p = None /\ nextTurnDistance p = None
    end.
Proof.
  intros Hcur Hlast Hnext.
  destruct (calculateProgress_returns pos route i cur e Hcur Hlast Hnext)
    as (p & Hp & Hd & _ & Hn).
  exists p; auto.
Qed.

Lemma calculateProgress_remaining_distance_witness :
  exists p,
    calculateProgress (at_ 0 1) routeThreeLegs 1 = Ok p /\
    remainingDistance p =
      JS.add (calculateDistance (at_ 0 1) (at_ 0 1))
        (JS.add (JS.Fin 1000) JS.zero) /\
    nextTurnInstruction p = Some "Arrive at destination"%string /\
    exists c, Some (at_ 0 2) = Some c /\
              nextTurnDistance p = Some (calculateDistance (at_ 0 1) c).
Proof.
  apply (calculateProgress_remaining_distance (at_ 0 1) routeThreeLegs 1
           (stepAt "Turn right onto Boulevard" (JS.Fin 1000) (JS.Fin 72) [at_ 0 1])
           (at_ 0 1)).
  - reflexivity.
  - reflexivity.
  - intros nxt H. cbn in H. injection H as <-. discriminate.
Defined.

(** C1, counterexample: the index is below the number of steps, and the call
    throws because the following step has no geometry. *)
Lemma calculateProgress_throws_on_bare_step :
  (0 < length (steps routeWithBareStep))%nat /\
  calculateProgress origin routeWithBareStep 0 = Throw TypeError.
Proof. split; [cbn; lia | reflexivity]. Qed.

(** On a route without any step the function returns its initial index. *)
Lemma findCurrentStepIndex_no_step (pos : Coordinates) :
  findCurrentStepIndex pos (routeOf []) = 0%nat.
Proof. reflexivity. Qed.

(** C2, counterexample: on a route without any step the index returned
    from the origin is 0, which is the index of no step; and on a route
    whose only step has no geometry it is the index of a step that contains
    no point. *)
Lemma findCurrentStepIndex_without_points :
  findCurrentStepIndex origin (routeOf []) = 0%nat /\
  nth_error (steps (routeOf [])) (findCurrentStepIndex origin (routeOf [])) = None /\
  (forall s,
     nth_error (steps (routeOf [stepAt "Arrive" (JS.Fin 0) (JS.Fin 0) []]))
       (findCurrentStepIndex origin (routeOf [stepAt "Arrive" (JS.Fin 0) (JS.Fin 0) []]))
     = Some s -> coordinates s = []).
Proof.
  split; [reflexivity|]. split; [reflexivity|].
  intros s H. cbn in H. injection H as <-. reflexivity.
Qed.

(** C2 (as amended): for every position and every route that has a
    geometry point [q0] at a defined distance from the position, the step
    whose index [findCurrentStepIndex] returns contains a geometry point at
    the globally minimal haversine distance [m], and no earlier step
    contains a point at that distance. *)
Theorem findCurrentStepIndex_closest (pos : Coordinates) (route : NavigationRoute)
  (j0 : nat) (s0 : RouteStep) (q0 : Coordinates) (r0 : R) :
  nth_error (steps route) j0 = Some s0 ->
  In q0 (coordinates s0) ->
  calculateDistance pos q0 = JS.Fin r0 ->
  exists s p m,
    nth_error (steps route) (findCurrentStepIndex pos route) = Some s /\
    In p (coordinates s) /\
    calculateDistance pos p = JS.Fin m /\
    forall j sj q r,
      nth_error (steps route) j = Some sj ->
      In q (coordinates sj) ->
      calculateDistance pos q = JS.Fin r ->
      (m <= r)%R /\ (r = m -> (findCurrentStepIndex pos route <= j)%nat).
Proof.
  intros Hj0 Hq0 Hr0. unfold findCurrentStepIndex.
  assert (Hinf : JS.notNaN JS.Infinity) by discriminate.
  pose proof (visitSteps_spec pos (steps route) 0 JS.Infinity 0 Hinf) as H.
  cbv zeta in H.
  destruct (visitSteps pos (steps route) 0 (JS.Infinity, 0%nat)) as [m i] eqn:E.
  cbn [fst snd] in *. destruct H as (Hn & _ & Hall & Hcase).
  pose proof (Hall j0 s0 q0 Hj0 Hq0) as Hq. rewrite Hr0 in Hq.
  destruct Hcase as [Heq | (Hlt & k & s & p & Hk & Hp & Hd & Hi & Hearlier)].
  - inversion Heq; subst. discriminate.
  - destruct (calculateDistance_not_infinite pos p) as [Hnan | [mr Hm]].
    + rewrite Hnan in Hd. subst m. now elim Hn.
    + rewrite Hm in Hd. subst m i. cbn [Nat.add].
      exists s, p, mr. repeat split; auto.
      * specialize (Hall j sj q H H0). rewrite H1 in Hall.
        now apply Rltb_false in Hall.
      * intros ->. destruct (Nat.le_gt_cases k j) as [|Hlt']; [assumption|].
        specialize (Hearlier j sj q Hlt' H H0). rewrite H1 in Hearlier.
        assert (JS.le (JS.Fin mr) (JS.Fin mr) = true) by (apply le_Fin; lra).
        congruence.
Qed.

Lemma findCurrentStepIndex_closest_witness :
  exists s p m,
    nth_error (steps routeThreeLegs) (findCurrentStepIndex origin routeThreeLegs)
      = Some s /\
    In p (coordinates s) /\
    calculateDistance origin p = JS.Fin m /\
    forall j sj q r,
      nth_error (steps routeThreeLegs) j = Some sj ->
      In q (coordinates sj) ->
      calculateDistance origin q = JS.Fin r ->
      (m <= r)%R /\ (r = m -> (findCurrentStepIndex origin routeThreeLegs <= j)%nat).
Proof.
  apply (findCurrentStepIndex_closest origin routeThreeLegs 0
           (stepAt "Head north on current road" (JS.Fin 1000) (JS.Fin 72) [origin])
           origin 0).
  - reflexivity.
  - left; reflexivity.
  - exact calculateDistance_origin.
Defined.




End RoutingProps.

Module SimplifierProps.

Import SimplifierSpec.
Import MemoryManager.
Import Float64Facts.

Lemma endsWithin_spec (tolerance : float) (points : list LatLng) :
  endsWithin tolerance points = true <->
  forall a b, In a points -> In b points ->
              (tolerance <? pointToLineDistance b a b)%float = false.
Proof.
  unfold endsWithin. rewrite forallb_forall. split.
  - intros H a b Ha Hb. specialize (H a Ha). rewrite forallb_forall in H.
    apply negb_true_iff. exact (H b Hb).
  - intros H a Ha. rewrite forallb_forall. intros b Hb.
    apply negb_true_iff. exact (H a b Ha Hb).
Qed.

Lemma endsWithin_sub (tolerance : float) (points sub : list LatLng) :
  (forall p, In p sub -> In p points) ->
  endsWithin tolerance points = true -> endsWithin tolerance sub = true.
Proof.
  rewrite !endsWithin_spec. intros Hs H a b Ha Hb. apply H; auto.
Qed.

Lemma In_firstn {A : Type} (p : A) (l : list A) (k : nat) :
  In p (firstn k l) -> In p l.
Proof.
  intros H. rewrite <- (firstn_skipn k l). apply in_or_app. left. exact H.
Qed.

Lemma In_skipn {A : Type} (p : A) (l : list A) (k : nat) :
  In p (skipn k l) -> In p l.
Proof.
  intros H. rewrite <- (firstn_skipn k l). apply in_or_app. right. exact H.
Qed.

(** The scan leaves the pair as it was, or ends on the index of a point of
    [middle] and on the distance computed for that point. *)
Lemma scanMiddle_spec (first lst : LatLng) (middle : list LatLng) :
  forall i acc,
  let res := scanMiddle middle i first lst acc in
  res = acc \/
  ((i + 1 <= snd res <= i + length middle)%nat /\
   fst res = pointToLineDistance (nth (snd res - (i + 1)) middle first) first lst).
Proof.
  induction middle as [|m middle IH]; intros i acc; cbn [scanMiddle].
  - left. reflexivity.
  - cbv zeta. set (dist := pointToLineDistance m first lst).
    destruct (fst acc <? dist)%float.
    + right. destruct (IH (S i) (dist, (i + 1)%nat)) as [-> | (Hi & Hd)].
      * cbn [fst snd length]. split; [lia|].
        replace (i + 1 - (i + 1))%nat with 0%nat by lia. reflexivity.
      * cbn [length]. split; [lia|]. rewrite Hd.
        replace (snd (scanMiddle middle (S i) first lst (dist, (i + 1)%nat)) - (i + 1))%nat
          with (S (snd (scanMiddle middle (S i) first lst (dist, (i + 1)%nat))
                   - (S i + 1)))%nat by lia.
        reflexivity.
    + destruct (IH (S i) acc) as [-> | (Hi & Hd)]; [left; reflexivity|].
      right. cbn [length]. split; [lia|]. rewrite Hd.
      replace (snd (scanMiddle middle (S i) first lst acc) - (i + 1))%nat
        with (S (snd (scanMiddle middle (S i) first lst acc) - (S i + 1)))%nat by lia.
      reflexivity.
Qed.

(** A deeper call stack does not change a result. *)
Lemma douglasPeucker_fuel_mono (tolerance : float) :
  forall fuel fuel' points r,
  (fuel <= fuel')%nat ->
  douglasPeucker fuel points tolerance = Some r ->
  douglasPeucker fuel' points tolerance = Some r.
Proof.
  induction fuel as [|fuel IH]; intros fuel' points r Hle H; [discriminate|].
  destruct fuel' as [|fuel']; [lia|].
  cbn [douglasPeucker] in *.
  destruct (length points <=? 2)%nat; [exact H|].
  destruct points as [|first middle]; [exact H|].
  destruct (scanMiddle middle 0 first (List.last (first :: middle) first)
              (0%float, 0%nat)) as [maxDistance maxIndex].
  destruct (tolerance <? maxDistance)%float; [|exact H].
  destruct (douglasPeucker fuel (firstn (maxIndex + 1) (first :: middle)) tolerance)
    as [l|] eqn:El; [|discriminate].
  destruct (douglasPeucker fuel (skipn maxIndex (first :: middle)) tolerance)
    as [r'|] eqn:Er; [|discriminate].
  rewrite (IH fuel' _ l) by (assumption || lia).
  rewrite (IH fuel' _ r') by (assumption || lia).
  exact H.
Qed.

Lemma simplifies_refl {A : Type} (points : list A) : simplifies points points.
Proof. unfold simplifies; auto. Qed.

Lemma removelast_length' {A : Type} (l : list A) :
  length (removelast l) = (length l - 1)%nat.
Proof.
  induction l as [|x [|y l] IH]; cbn [removelast length] in *; lia.
Qed.

Lemma hd_error_removelast_app {A : Type} (l r : list A) :
  (2 <= length l)%nat -> hd_error (removelast l ++ r) = hd_error l.
Proof.
  destruct l as [|x [|y l]]; cbn [length]; try lia. reflexivity.
Qed.

Lemma last_app_nonempty {A : Type} (l r : list A) (d : A) :
  r <> [] -> List.last (l ++ r) d = List.last r d.
Proof.
  intros Hr. induction l as [|x l IH]; [reflexivity|].
  cbn [app]. destruct (l ++ r) eqn:E.
  - destruct l, r; cbn in E; congruence.
  - rewrite <- IH. reflexivity.
Qed.

Lemma last_skipn {A : Type} (l : list A) (d : A) :
  forall k, (k < length l)%nat -> List.last (skipn k l) d = List.last l d.
Proof.
  induction l as [|x l IH]; intros k Hk; [cbn in Hk; lia|].
  destruct k as [|k]; [reflexivity|].
  cbn [skipn]. cbn [length] in Hk. rewrite IH by lia.
  destruct l; [cbn in Hk; lia | reflexivity].
Qed.

Lemma hd_error_firstn {A : Type} (l : list A) (k : nat) :
  hd_error (firstn (S k) l) = hd_error l.
Proof. destruct l; reflexivity. Qed.

(** When the call recurses, under the two conditions on the tolerance, the
    point it splits at lies strictly between the first and the last. *)
Lemma split_inside (tolerance : float) (first lst : LatLng) (pre : list LatLng)
  (maxDistance : float) (maxIndex : nat) :
  (tolerance <? 0)%float = false ->
  endsWithin tolerance (first :: pre ++ [lst]) = true ->
  scanMiddle (pre ++ [lst]) 0 first lst (0%float, 0%nat) = (maxDistance, maxIndex) ->
  (tolerance <? maxDistance)%float = true ->
  (1 <= maxIndex <= length pre)%nat.
Proof.
  intros Htol Hends Es G.
  pose proof (scanMiddle_spec first lst (pre ++ [lst]) 0 (0%float, 0%nat)) as Hs.
  cbv zeta in Hs. rewrite Es in Hs. cbn [fst snd] in Hs.
  destruct Hs as [Heq | (Hi & Hd)].
  { inversion Heq; subst. congruence. }
  rewrite length_app in Hi. cbn [length Nat.add] in Hi.
  destruct (Nat.eq_dec maxIndex (length pre + 1)) as [E | E]; [|lia].
  exfalso. subst maxIndex.
  replace (length pre + 1 - (0 + 1))%nat with (length pre) in Hd by lia.
  rewrite nth_middle in Hd. rewrite endsWithin_spec in Hends.
  rewrite Hd in G. rewrite Hends in G; [discriminate| |].
  - left. reflexivity.
  - right. apply in_or_app. right. left. reflexivity.
Qed.

(** With a tolerance that is not negative and that no computed end-point
    distance exceeds, [douglasPeucker] returns within a recursion depth of
    the number of points. *)
Lemma douglasPeucker_returns (tolerance : float) :
  (tolerance <? 0)%float = false ->
  forall fuel points,
  endsWithin tolerance points = true ->
  (length points < fuel)%nat ->
  exists r, douglasPeucker fuel points tolerance = Some r /\ simplifies points r.
Proof.
  intros Htol. induction fuel as [|fuel IH]; intros points Hends Hlen; [lia|].
  cbn [douglasPeucker].
  destruct (length points <=? 2)%nat eqn:E2.
  { exists points. split; [reflexivity | apply simplifies_refl]. }
  apply Nat.leb_gt in E2.
  destruct points as [|first middle]; [cbn in E2; lia|].
  destruct (exists_last (l := middle)) as (pre & lst & ->).
  { intros ->. cbn in E2. lia. }
  assert (Hlast : forall d, List.last (first :: pre ++ [lst]) d = lst).
  { intros d. change (first :: pre ++ [lst]) with ((first :: pre) ++ [lst]).
    apply last_last. }
  rewrite Hlast.
  assert (Hn : length (first :: pre ++ [lst]) = (length pre + 2)%nat).
  { cbn [length]. rewrite length_app. cbn. lia. }
  destruct (scanMiddle (pre ++ [lst]) 0 first lst (0%float, 0%nat))
    as [maxDistance maxIndex] eqn:Es.
  destruct (tolerance <? maxDistance)%float eqn:G.
  - pose proof (split_inside _ _ _ _ _ _ Htol Hends Es G) as Hidx.
    set (points := first :: pre ++ [lst]) in *.
    destruct (IH (firstn (maxIndex + 1) points)) as (l & El & Hl).
    { apply (endsWithin_sub _ points); [|exact Hends]. intros p. apply In_firstn. }
    { rewrite length_firstn. lia. }
    destruct (IH (skipn maxIndex points)) as (r & Er & Hr).
    { apply (endsWithin_sub _ points); [|exact Hends]. intros p. apply In_skipn. }
    { rewrite length_skipn. lia. }
    rewrite El, Er. eexists; split; [reflexivity|].
    destruct Hl as (Hl1 & Hl2 & Hl3 & Hl4 & Hl5).
    destruct Hr as (Hr1 & Hr2 & Hr3 & Hr4 & Hr5).
    rewrite length_firstn in Hl3, Hl4. rewrite length_skipn in Hr3, Hr4.
    assert (Hrlen : (2 <= length r)%nat) by (apply Hr4; lia).
    assert (Hllen : (2 <= length l)%nat) by (apply Hl4; lia).
    assert (Hrne : r <> []) by (intros ->; cbn in Hrlen; lia).
    unfold simplifies. split; [|split; [|split; [|split]]].
    + rewrite hd_error_removelast_app by lia. rewrite Hl1.
      replace (maxIndex + 1)%nat with (S maxIndex) by lia.
      apply hd_error_firstn.
    + intros d. rewrite last_app_nonempty by assumption.
      rewrite Hr2. apply last_skipn. lia.
    + rewrite length_app, removelast_length'. lia.
    + intros _. rewrite length_app, removelast_length'. lia.
    + intros _ F. apply app_eq_nil in F. tauto.
  - eexists; split; [reflexivity|].
    unfold simplifies. split; [|split; [|split; [|split]]].
    + reflexivity.
    + intros d. rewrite Hlast. reflexivity.
    + rewrite Hn. cbn. lia.
    + intros _. cbn. lia.
    + discriminate.
Qed.

(** C7 (as amended): for every non-empty list of coordinates and every
    tolerance that is not negative and that the distance computed from the
    end point of a chord to the chord never exceeds (that distance is 0 in
    exact arithmetic and a rounding error in double precision),
    [douglasPeucker] returns, on a call stack that admits a recursion as
    deep as the list is long, a list whose first element is the input's
    first element, whose last element is the input's last element and whose
    length does not exceed the input's length; so does [simplifyRoute] when
    the tolerance is its own, 0.0001. *)
Theorem simplifier_preserves_ends (coordinates : list LatLng) (tolerance : float) :
  coordinates <> [] ->
  (tolerance <? 0)%float = false ->
  endsWithin tolerance coordinates = true ->
  (exists r,
     (forall fuel, (length coordinates < fuel)%nat ->
                   douglasPeucker fuel coordinates tolerance = Some r) /\
     hd_error r = hd_error coordinates /\
     (forall d, List.last r d = List.last coordinates d) /\
     (length r <= length coordinates)%nat) /\
  (tolerance = 0x1.a36e2eb1c432dp-14%float ->
   exists r,
     (forall fuel, (length coordinates < fuel)%nat ->
                   simplifyRoute fuel coordinates = Some r) /\
     hd_error r = hd_error coordinates /\
     (forall d, List.last r d = List.last coordinates d) /\
     (length r <= length coordinates)%nat).
Proof.
  intros Hne Htol Hends.
  assert (Hdp : exists r,
     (forall fuel, (length coordinates < fuel)%nat ->
                   douglasPeucker fuel coordinates tolerance = Some r) /\
     hd_error r = hd_error coordinates /\
     (forall d, List.last r d = List.last coordinates d) /\
     (length r <= length coordinates)%nat).
  { destruct (douglasPeucker_returns tolerance Htol (S (length coordinates))
                coordinates Hends)
      as (r & Hr & H1 & H2 & H3 & _); [lia|].
    exists r. repeat split; auto.
    intros fuel Hf.
    apply (douglasPeucker_fuel_mono tolerance (S (length coordinates)));
      [lia | exact Hr]. }
  split; [exact Hdp|].
  intros ->. unfold simplifyRoute.
  destruct (length coordinates <=? MAX_ROUTE_POINTS)%nat.
  - exists coordinates. repeat split; auto.
  - exact Hdp.
Qed.

Lemma simplifier_preserves_ends_witness :
  shortRoute <> [] /\
  (0x1.a36e2eb1c432dp-14 <? 0)%float = false /\
  endsWithin 0x1.a36e2eb1c432dp-14%float shortRoute = true /\
  (exists r,
     (forall fuel, (length shortRoute < fuel)%nat ->
                   douglasPeucker fuel shortRoute 0x1.a36e2eb1c432dp-14%float = Some r) /\
     hd_error r = hd_error shortRoute /\
     (forall d, List.last r d = List.last shortRoute d) /\
     (length r <= length shortRoute)%nat) /\
  (exists r,
     (forall fuel, (length shortRoute < fuel)%nat ->
                   simplifyRoute fuel shortRoute = Some r) /\
     hd_error r = hd_error shortRoute /\
     (forall d, List.last r d = List.last shortRoute d) /\
     (length r <= length shortRoute)%nat).
Proof.
  assert (H1 : shortRoute <> []) by discriminate.
  assert (H2 : (0x1.a36e2eb1c432dp-14 <? 0)%float = false) by reflexivity.
  assert (H3 : endsWithin 0x1.a36e2eb1c432dp-14%float shortRoute = true)
    by (vm_compute; reflexivity).
  split; [exact H1|]. split; [exact H2|]. split; [exact H3|].
  destruct (simplifier_preserves_ends shortRoute 0x1.a36e2eb1c432dp-14%float H1 H2 H3)
    as (Hd & Hs).
  split; [exact Hd | exact (Hs eq_refl)].
Defined.

(** C7, counterexample: with tolerance -1 the call on three equal points
    calls itself on the same three points, whatever the depth left: it
    never returns. *)
Lemma douglasPeucker_negative_tolerance_diverges :
  threeTimesOrigin <> [] /\
  neverReturns (fun fuel => douglasPeucker fuel threeTimesOrigin (-1)%float).
Proof.
  split; [discriminate|].
  intros fuel. induction fuel as [|fuel IH]; [reflexivity|].
  assert (Es : scanMiddle [latLng 0 0; latLng 0 0] 0 (latLng 0 0) (latLng 0 0)
                 (0%float, 0%nat) = (0%float, 0%nat)) by (vm_compute; reflexivity).
  cbn [douglasPeucker threeTimesOrigin length Nat.leb List.last].
  rewrite Es.
  assert (Hneg : (-1 <? 0)%float = true) by reflexivity.
  rewrite Hneg. cbn [Nat.add skipn].
  fold threeTimesOrigin. rewrite IH.
  destruct (douglasPeucker fuel (firstn 1 threeTimesOrigin) (-1)%float);
    reflexivity.
Qed.

(** The same happens with tolerance 0 on three points of the meridian 0 at
    latitudes -90, -90 and -31.2: the end point of the chord is computed
    3.55e-15 away from it, which makes it the farthest point, and the call
    calls itself on the same three points. *)
Lemma douglasPeucker_rounded_end_diverges :
  (0 <? 0)%float = false /\
  endsWithin 0%float roundedEnd = false /\
  neverReturns (fun fuel => douglasPeucker fuel roundedEnd 0%float).
Proof.
  split; [reflexivity|]. split; [vm_compute; reflexivity|].
  intros fuel. induction fuel as [|fuel IH]; [reflexivity|].
  assert (Es : exists d,
             scanMiddle [latLng (-90) 0; latLng (-0x1.f333333333333p+4) 0] 0
               (latLng (-90) 0) (latLng (-0x1.f333333333333p+4) 0) (0%float, 0%nat)
             = (d, 2%nat) /\ (0 <? d)%float = true).
  { eexists. split; vm_compute; reflexivity. }
  destruct Es as (d & Es & Hd).
  cbn [douglasPeucker roundedEnd length Nat.leb List.last].
  rewrite Es, Hd.
  change (firstn (2 + 1) roundedEnd) with roundedEnd.
  rewrite IH. reflexivity.
Qed.

End SimplifierProps.

(** ** The update throttler ([PerformanceOptimizer]) *)

Module ThrottleProps.

Import ThrottleSpec.
Import PerformanceOptimizer.
Import JSFacts.

Local Open Scope Z_scope.

Lemma isMoving_not_slow (location : UserLocation) :
  isMoving location = true ->
  JS.lt match speed location with
        | Some v => JS.or_else v JS.zero
        | None => JS.zero
        end STATIONARY_SPEED_THRESHOLD = false.
Proof.
  unfold isMoving, STATIONARY_SPEED_THRESHOLD, JS.ge, JS.le.
  destruct (speed location) as [[| | |r]|]; simpl; try discriminate; auto.
  rewrite orb_true_iff, Rltb_true, Reqb_true. intros H.
  unfold JS.or_else. destruct (JS.Reqb r 0) eqn:E.
  - apply Reqb_true in E. lra.
  - apply Rltb_false. lra.
Qed.

Lemma updateStationaryState_moving (location : UserLocation) (now : Z) (st : t) :
  isMoving location = true ->
  isStationary (updateStationaryState location now st) = false /\
  stationaryStartTime (updateStationaryState location now st) = 0 /\
  lastLocationUpdate (updateStationaryState location now st) = lastLocationUpdate st.
Proof.
  intros H. unfold updateStationaryState.
  rewrite (isMoving_not_slow _ H). auto.
Qed.

Lemma updateStationaryState_last (location : UserLocation) (now : Z) (st : t) :
  lastLocationUpdate (updateStationaryState location now st) = lastLocationUpdate st.
Proof.
  unfold updateStationaryState.
  destruct (JS.lt _ _); [destruct (negb _)|]; reflexivity.
Qed.

(** A moving sample that is not the first and comes at least 1000 ms after
    the last accepted one is accepted, and clears the classification. *)
Lemma shouldUpdateLocation_moving (location : UserLocation) (now now' : Z) (st : t) :
  lastLocationUpdate st <> 0 ->
  1000 <= now - lastLocationUpdate st ->
  isMoving location = true ->
  shouldUpdateLocation location now now' st =
    (true, setLastLocationUpdate now (updateStationaryState location now' st)).
Proof.
  intros Hlast Hgap Hmove. unfold shouldUpdateLocation.
  apply Z.eqb_neq in Hlast. rewrite Hlast.
  unfold LOCATION_UPDATE_INTERVAL.
  destruct (now - lastLocationUpdate st <? 1000) eqn:E;
    [apply Z.ltb_lt in E; lia|].
  destruct (updateStationaryState_moving location now' st Hmove) as (H1 & _).
  rewrite H1. reflexivity.
Qed.

(** A sample that is not the first and comes less than 1000 ms after the
    last accepted one is rejected, and leaves the state as it was. *)
Lemma shouldUpdateLocation_within_interval (location : UserLocation)
  (now now' : Z) (st : t) :
  lastLocationUpdate st <> 0 ->
  now - lastLocationUpdate st < 1000 ->
  shouldUpdateLocation location now now' st = (false, st).
Proof.
  intros Hlast Hgap. unfold shouldUpdateLocation.
  apply Z.eqb_neq in Hlast. rewrite Hlast.
  unfold LOCATION_UPDATE_INTERVAL.
  apply Z.ltb_lt in Hgap. rewrite Hgap. reflexivity.
Qed.

(** C4: the first position sample after construction or after [reset] is
    accepted; a sample arriving less than 1000 ms after the last accepted
    sample is rejected (and changes nothing); a sample with a speed of at
    least 1 m/s arriving at least 1000 ms after the last accepted sample is
    accepted, and so is every sample arriving then that leaves the
    classification not stationary, or stationary for at most 30 s. *)
Theorem shouldUpdateLocation_throttle (location : UserLocation) (now now' : Z) (st : t) :
  (lastLocationUpdate init = 0 /\ lastLocationUpdate (reset st) = 0) /\
  (lastLocationUpdate st = 0 ->
   shouldUpdateLocation location now now' st = (true, setLastLocationUpdate now st)) /\
  (lastLocationUpdate st <> 0 ->
   now - lastLocationUpdate st < 1000 ->
   shouldUpdateLocation location now now' st = (false, st)) /\
  (lastLocationUpdate st <> 0 ->
   1000 <= now - lastLocationUpdate st ->
   isMoving location = true ->
   fst (shouldUpdateLocation location now now' st) = true /\
   lastLocationUpdate (snd (shouldUpdateLocation location now now' st)) = now) /\
  (lastLocationUpdate st <> 0 ->
   1000 <= now - lastLocationUpdate st ->
   isStationary (updateStationaryState location now' st) = false \/
   now - stationaryStartTime (updateStationaryState location now' st)
     <= STATIONARY_THRESHOLD ->
   fst (shouldUpdateLocation location now now' st) = true).
Proof.
  split; [split; reflexivity|]. split; [|split; [|split]].
  - intros H. unfold shouldUpdateLocation. rewrite H. reflexivity.
  - apply shouldUpdateLocation_within_interval.
  - intros Hlast Hgap Hmove.
    rewrite (shouldUpdateLocation_moving _ _ _ _ Hlast Hgap Hmove). auto.
  - intros Hlast Hgap Hclass. unfold shouldUpdateLocation.
    apply Z.eqb_neq in Hlast. rewrite Hlast.
    unfold LOCATION_UPDATE_INTERVAL.
    destruct (now - lastLocationUpdate st <? 1000) eqn:E;
      [apply Z.ltb_lt in E; lia|].
    destruct Hclass as [Hs | Ht].
    + rewrite Hs. reflexivity.
    + assert (Hgt : (now - stationaryStartTime (updateStationaryState location now' st)
                     >? STATIONARY_THRESHOLD) = false).
      { rewrite Z.gtb_ltb. apply Z.ltb_ge. exact Ht. }
      rewrite Hgt, andb_false_r. reflexivity.
Qed.

(** The scenario of the specification: the first sample is accepted, one
    10 ms later is rejected, one 1100 ms later is accepted. *)
Lemma shouldUpdateLocation_throttle_witness :
  fst (shouldUpdateLocation (sampleWithSpeed (Some (JS.Fin 5)) t0) t0 t0 init) = true /\
  shouldUpdateLocation (sampleWithSpeed (Some (JS.Fin 5)) (t0 + 10))
    (t0 + 10) (t0 + 10) afterFirstSample = (false, afterFirstSample) /\
  fst (shouldUpdateLocation (sampleWithSpeed (Some (JS.Fin 5)) (t0 + 1100))
         (t0 + 1100) (t0 + 1100) afterFirstSample) = true.
Proof.
  assert (Hmove : forall time, isMoving (sampleWithSpeed (Some (JS.Fin 5)) time) = true).
  { intros time. apply le_Fin. lra. }
  split; [|split].
  - destruct (shouldUpdateLocation_throttle
                (sampleWithSpeed (Some (JS.Fin 5)) t0) t0 t0 init) as (_ & H & _).
    rewrite (H eq_refl). reflexivity.
  - destruct (shouldUpdateLocation_throttle
                (sampleWithSpeed (Some (JS.Fin 5)) (t0 + 10)) (t0 + 10) (t0 + 10)
                afterFirstSample) as (_ & _ & H & _).
    apply H; [discriminate | reflexivity].
  - destruct (shouldUpdateLocation_throttle
                (sampleWithSpeed (Some (JS.Fin 5)) (t0 + 1100)) (t0 + 1100) (t0 + 1100)
                afterFirstSample) as (_ & _ & _ & H & _).
    apply H; [discriminate | discriminate | apply Hmove].
Defined.

Lemma lt_zero_threshold : JS.lt JS.zero STATIONARY_SPEED_THRESHOLD = true.
Proof. apply Rltb_true. lra. Qed.

(** C5 (as amended): a sample with a speed of at least 1 m/s clears the
    stationary classification in [updateStationaryState], and so in
    [shouldUpdateLocation] whenever the sample gets that far, that is when
    it is not the first sample and arrives at least 1000 ms after the last
    accepted one (it is then accepted); and a sample that is not the first
    and is accepted while the classification, updated with that sample, has
    been stationary for more than 30 s, arrives at least 5000 ms after the
    last accepted sample. *)
Theorem stationary_classification (location : UserLocation) (now now' : Z) (st : t) :
  (isMoving location = true ->
   isStationary (updateStationaryState location now' st) = false /\
   stationaryStartTime (updateStationaryState location now' st) = 0) /\
  (isMoving location = true ->
   lastLocationUpdate st <> 0 ->
   1000 <= now - lastLocationUpdate st ->
   fst (shouldUpdateLocation location now now' st) = true /\
   isStationary (snd (shouldUpdateLocation location now now' st)) = false /\
   stationaryStartTime (snd (shouldUpdateLocation location now now' st)) = 0) /\
  (lastLocationUpdate st <> 0 ->
   fst (shouldUpdateLocation location now now' st) = true ->
   isStationary (snd (shouldUpdateLocation location now now' st)) = true ->
   STATIONARY_THRESHOLD <
     now - stationaryStartTime (snd (shouldUpdateLocation location now now' st)) ->
   5000 <= now - lastLocationUpdate st).
Proof.
  split; [|split].
  - intros H. destruct (updateStationaryState_moving location now' st H) as (H1 & H2 & _).
    auto.
  - intros Hmove Hlast Hgap.
    rewrite (shouldUpdateLocation_moving _ _ _ _ Hlast Hgap Hmove).
    destruct (updateStationaryState_moving location now' st Hmove) as (H1 & H2 & _).
    cbn [fst snd setLastLocationUpdate isStationary stationaryStartTime]. auto.
  - intros Hlast. unfold shouldUpdateLocation.
    apply Z.eqb_neq in Hlast. rewrite Hlast.
    destruct (now - lastLocationUpdate st <? LOCATION_UPDATE_INTERVAL);
      [cbn; discriminate|].
    set (st1 := updateStationaryState location now' st).
    assert (Hl : lastLocationUpdate st1 = lastLocationUpdate st)
      by apply updateStationaryState_last.
    destruct (isStationary st1 && (now - stationaryStartTime st1 >? STATIONARY_THRESHOLD)
              && (now - lastLocationUpdate st1 <? 5000)) eqn:E; [cbn; discriminate|].
    cbn [fst snd setLastLocationUpdate isStationary stationaryStartTime].
    intros _ Hs Ht. rewrite Hs in E.
    assert (Hgt : (now - stationaryStartTime st1 >? STATIONARY_THRESHOLD) = true).
    { apply Z.gtb_lt. exact Ht. }
    rewrite Hgt in E. cbn in E. apply Z.ltb_ge in E. lia.
Qed.

Lemma stationary_classification_witness :
  (fst (shouldUpdateLocation (sampleWithSpeed (Some (JS.Fin 5)) (t0 + 1100))
          (t0 + 1100) (t0 + 1100) afterFirstSample) = true /\
   isStationary
     (snd (shouldUpdateLocation (sampleWithSpeed (Some (JS.Fin 5)) (t0 + 1100))
             (t0 + 1100) (t0 + 1100) afterFirstSample)) = false /\
   stationaryStartTime
     (snd (shouldUpdateLocation (sampleWithSpeed (Some (JS.Fin 5)) (t0 + 1100))
             (t0 + 1100) (t0 + 1100) afterFirstSample)) = 0) /\
  (lastLocationUpdate stationarySince <> 0 /\
   fst (shouldUpdateLocation (sampleWithSpeed None (t0 + 32000))
          (t0 + 32000) (t0 + 32000) stationarySince) = true /\
   isStationary
     (snd (shouldUpdateLocation (sampleWithSpeed None (t0 + 32000))
             (t0 + 32000) (t0 + 32000) stationarySince)) = true /\
   STATIONARY_THRESHOLD <
     t0 + 32000
     - stationaryStartTime
         (snd (shouldUpdateLocation (sampleWithSpeed None (t0 + 32000))
                 (t0 + 32000) (t0 + 32000) stationarySince)) /\
   5000 <= t0 + 32000 - lastLocationUpdate stationarySince).
Proof.
  assert (E : shouldUpdateLocation (sampleWithSpeed None (t0 + 32000))
                (t0 + 32000) (t0 + 32000) stationarySince
              = (true, setLastLocationUpdate (t0 + 32000) stationarySince)).
  { unfold shouldUpdateLocation, updateStationaryState.
    cbn [speed sampleWithSpeed]. rewrite lt_zero_threshold. reflexivity. }
  assert (Hlast : lastLocationUpdate stationarySince <> 0) by discriminate.
  assert (Hacc : fst (shouldUpdateLocation (sampleWithSpeed None (t0 + 32000))
                        (t0 + 32000) (t0 + 32000) stationarySince) = true)
    by (rewrite E; reflexivity).
  assert (Hst : isStationary
                  (snd (shouldUpdateLocation (sampleWithSpeed None (t0 + 32000))
                          (t0 + 32000) (t0 + 32000) stationarySince)) = true)
    by (rewrite E; reflexivity).
  assert (Hlong : STATIONARY_THRESHOLD <
                  t0 + 32000
                  - stationaryStartTime
                      (snd (shouldUpdateLocation (sampleWithSpeed None (t0 + 32000))
                              (t0 + 32000) (t0 + 32000) stationarySince)))
    by (rewrite E; reflexivity).
  split.
  - destruct (stationary_classification
                (sampleWithSpeed (Some (JS.Fin 5)) (t0 + 1100)) (t0 + 1100) (t0 + 1100)
                afterFirstSample) as (_ & H & _).
    apply H.
    + apply le_Fin. lra.
    + discriminate.
    + discriminate.
  - split; [exact Hlast|]. split; [exact Hacc|]. split; [exact Hst|].
    split; [exact Hlong|].
    destruct (stationary_classification
                (sampleWithSpeed None (t0 + 32000)) (t0 + 32000) (t0 + 32000)
                stationarySince) as (_ & _ & H).
    exact (H Hlast Hacc Hst Hlong).
Defined.

(** C5, counterexample: the third sample has a speed of 5 m/s and arrives
    500 ms after the last accepted sample; it is rejected and the
    classification stays stationary. *)
Lemma fast_sample_within_interval_keeps_stationary :
  isMoving (sampleWithSpeed (Some (JS.Fin 5)) (t0 + 1500)) = true /\
  fst (feedLocations slowThenFast init) = [true; true; false] /\
  isStationary (snd (feedLocations slowThenFast init)) = true.
Proof.
  split; [apply le_Fin; lra|].
  assert (E1 : shouldUpdateLocation (sampleWithSpeed None t0) t0 t0 init
               = (true, afterFirstSample)) by reflexivity.
  assert (E2 : shouldUpdateLocation (sampleWithSpeed None (t0 + 1000))
                 (t0 + 1000) (t0 + 1000) afterFirstSample
               = (true, stationarySince)).
  { unfold shouldUpdateLocation, updateStationaryState.
    cbn [speed sampleWithSpeed]. rewrite lt_zero_threshold. reflexivity. }
  assert (E3 : shouldUpdateLocation (sampleWithSpeed (Some (JS.Fin 5)) (t0 + 1500))
                 (t0 + 1500) (t0 + 1500) stationarySince
               = (false, stationarySince)) by reflexivity.
  unfold slowThenFast. cbn [feedLocations].
  rewrite E1, E2, E3. split; reflexivity.
Qed.

(** C6 (as amended): [isPowerSavingMode] returns [false] in every state,
    so [getAdaptiveIntervals] returns the default intervals; its multiplier
    doubles the three intervals together for a power-saving reading of
    [true] only.  The gates do not read these intervals: the heading gate
    accepts exactly from 100 ms, the position gate accepts a moving sample
    that is not the first exactly from 1000 ms, and the map gate compares a
    distance with 10 m. *)
Theorem power_saving_intervals (st : t) :
  isPowerSavingMode st = false /\
  getAdaptiveIntervals st =
    {| locationInterval := 1000; orientationInterval := 100; mapUpdateInterval := 500 |} /\
  intervalsFor true =
    {| locationInterval := 2 * 1000; orientationInterval := 2 * 100;
       mapUpdateInterval := 2 * 500 |} /\
  (forall now,
     fst (shouldUpdateOrientation now st) = (100 <=? now - lastOrientationUpdate st)) /\
  (forall location now now',
     lastLocationUpdate st <> 0 -> isMoving location = true ->
     fst (shouldUpdateLocation location now now' st)
       = (1000 <=? now - lastLocationUpdate st)) /\
  (forall location lastLoc,
     lastMapUpdateLocation st = Some lastLoc ->
     fst (shouldUpdateMap location st)
       = JS.ge (calculateDistance lastLoc (loc_coordinates location)) (JS.Fin 10)).
Proof.
  split; [reflexivity|]. split; [reflexivity|]. split; [reflexivity|].
  split; [|split].
  - intros now. unfold shouldUpdateOrientation, ORIENTATION_UPDATE_INTERVAL.
    destruct (now - lastOrientationUpdate st <? 100) eqn:E; cbn [fst].
    + apply Z.ltb_lt in E. symmetry. apply Z.leb_gt. exact E.
    + apply Z.ltb_ge in E. symmetry. apply Z.leb_le. exact E.
  - intros location now now' Hlast Hmove.
    destruct (1000 <=? now - lastLocationUpdate st) eqn:E.
    + apply Z.leb_le in E.
      rewrite (shouldUpdateLocation_moving _ _ _ _ Hlast E Hmove). reflexivity.
    + apply Z.leb_gt in E.
      rewrite (shouldUpdateLocation_within_interval location now now' st Hlast E).
      reflexivity.
  - intros location lastLoc H. unfold shouldUpdateMap. rewrite H.
    unfold MAP_UPDATE_DISTANCE_THRESHOLD.
    destruct (JS.ge _ _); reflexivity.
Qed.

(** C6, counterexample: no state has power saving active, and the gates
    accept after one and a half times their default interval, which is less
    than the doubled interval. *)
Lemma power_saving_never_doubles :
  (forall st, isPowerSavingMode st = false) /\
  (forall st, getAdaptiveIntervals st = intervalsFor false) /\
  fst (shouldUpdateLocation (sampleWithSpeed (Some (JS.Fin 5)) (t0 + 1500))
         (t0 + 1500) (t0 + 1500) afterFirstSample) = true /\
  fst (shouldUpdateOrientation (t0 + 150) afterFirstHeading) = true.
Proof.
  split; [reflexivity|]. split; [reflexivity|]. split; [|reflexivity].
  rewrite shouldUpdateLocation_moving.
  - reflexivity.
  - discriminate.
  - discriminate.
  - apply le_Fin. lra.
Qed.

End ThrottleProps.

(** ** The heading smoother ([OrientationService]) *)

Module SmootherProps.

Import SmootherSpec.
Import OrientationService.
Import JSFacts.

Local Open Scope R_scope.

Lemma normalized_unique (r a b : R) : normalized r a -> normalized r b -> a = b.
Proof.
  intros (Ha & za & Ea) (Hb & zb & Eb).
  assert (Hz : (za - zb)%Z = 0%Z).
  { apply one_IZR_lt1. rewrite minus_IZR. lra. }
  assert (za = zb) by lia. subst zb. lra.
Qed.

Lemma normalized_shift (r a : R) (z : Z) :
  normalized (r + 360 * IZR z) a -> normalized r a.
Proof.
  intros (Ha & z' & E). split; [exact Ha|].
  exists (z + z')%Z. rewrite plus_IZR. lra.
Qed.

Lemma normalized_self (r : R) : 0 <= r < 360 -> normalized r r.
Proof. intros H; split; [exact H|]. exists 0%Z. lra. Qed.

(** The first loop ends on a non-negative heading, [k] additions later. *)
Lemma whileNegative_real :
  forall n r, 0 <= r + 360 * INR n ->
  exists k r', r' = r + 360 * INR k /\ 0 <= r' /\ (r < 0 -> r' < 360) /\
               (0 <= r -> r' = r) /\
               forall fuel, (n < fuel)%nat -> whileNegative fuel (JS.Fin r) = Some (JS.Fin r').
Proof.
  induction n as [|n IH]; intros r Hr.
  - cbn [INR] in Hr. exists 0%nat, r. cbn [INR]. repeat split; try lra.
    intros [|fuel] Hf; [lia|]. cbn [whileNegative].
    assert (E : JS.lt (JS.Fin r) JS.zero = false) by (apply Rltb_false; lra).
    now rewrite E.
  - destruct (Rlt_dec r 0) as [Hneg | Hpos].
    + destruct (IH (r + 360)) as (k & r' & E & H0 & H1 & H2 & Hf).
      { rewrite S_INR in Hr. lra. }
      exists (S k), r'. rewrite S_INR. split; [lra|]. split; [lra|].
      split; [intros _; destruct (Rlt_dec (r + 360) 0); lra|].
      split; [lra|].
      intros [|fuel] Hfuel; [lia|]. cbn [whileNegative].
      assert (El : JS.lt (JS.Fin r) JS.zero = true) by (apply Rltb_true; lra).
      rewrite El. apply Hf. lia.
    + exists 0%nat, r. cbn [INR]. repeat split; try lra.
      intros [|fuel] Hf; [lia|]. cbn [whileNegative].
      assert (E : JS.lt (JS.Fin r) JS.zero = false) by (apply Rltb_false; lra).
      now rewrite E.
Qed.

(** The second loop ends below 360, [k] subtractions later. *)
Lemma whileTooLarge_real :
  forall n r, 0 <= r -> r < 360 * INR (S n) ->
  exists k r', r' = r - 360 * INR k /\ 0 <= r' < 360 /\
               forall fuel, (n < fuel)%nat -> whileTooLarge fuel (JS.Fin r) = Some (JS.Fin r').
Proof.
  induction n as [|n IH]; intros r H0 Hr.
  - cbn [INR] in Hr. exists 0%nat, r. cbn [INR]. repeat split; try lra.
    intros [|fuel] Hf; [lia|]. cbn [whileTooLarge].
    assert (E : JS.ge (JS.Fin r) (JS.Fin 360) = false).
    { destruct (JS.ge (JS.Fin r) (JS.Fin 360)) eqn:E; [|reflexivity].
      apply le_Fin in E. lra. }
    now rewrite E.
  - destruct (Rlt_dec r 360) as [Hlt | Hge].
    + exists 0%nat, r. cbn [INR]. repeat split; try lra.
      intros [|fuel] Hf; [lia|]. cbn [whileTooLarge].
      assert (E : JS.ge (JS.Fin r) (JS.Fin 360) = false).
      { destruct (JS.ge (JS.Fin r) (JS.Fin 360)) eqn:E; [|reflexivity].
        apply le_Fin in E. lra. }
      now rewrite E.
    + destruct (IH (r + - 360)) as (k & r' & E & Hr' & Hf).
      { lra. }
      { rewrite S_INR in Hr. lra. }
      exists (S k), r'. rewrite S_INR. repeat split; try lra.
      intros [|fuel] Hfuel; [lia|]. cbn [whileTooLarge].
      assert (El : JS.ge (JS.Fin r) (JS.Fin 360) = true) by (apply le_Fin; lra).
      rewrite El. cbn [JS.sub JS.neg JS.add]. apply Hf. lia.
Qed.

(** [normalizeHeading] returns on every real heading, with enough fuel, the
    heading reduced into [[0, 360)]. *)
Lemma normalizeHeading_real (r : R) :
  exists r' fuel0, normalized r r' /\
    forall fuel, (fuel0 <= fuel)%nat -> normalizeHeading fuel (JS.Fin r) = Some (JS.Fin r').
Proof.
  destruct (INR_unbounded (- r / 360)) as (n & Hn).
  destruct (whileNegative_real n r) as (k1 & r1 & E1 & H1 & _ & _ & F1); [lra|].
  destruct (INR_unbounded (r1 / 360)) as (m & Hm).
  destruct (whileTooLarge_real m r1 H1) as (k2 & r2 & E2 & H2 & F2).
  { rewrite S_INR. lra. }
  exists r2, (S (n + m)). split.
  - split; [exact H2|]. exists (Z.of_nat k1 - Z.of_nat k2)%Z.
    rewrite minus_IZR, <- !INR_IZR_INZ. lra.
  - intros fuel Hf. unfold normalizeHeading.
    rewrite F1 by lia. apply F2. lia.
Qed.

(** On a heading within one turn of the range, each loop runs at most
    twice. *)
Lemma normalizeHeading_bounded (r : R) :
  -360 <= r <= 720 ->
  exists r', normalized r r' /\
    forall fuel, (3 <= fuel)%nat -> normalizeHeading fuel (JS.Fin r) = Some (JS.Fin r').
Proof.
  intros Hr.
  destruct (whileNegative_real 1 r) as (k1 & r1 & E1 & H1 & Hlt & Hsame & F1).
  { cbn [INR]. lra. }
  assert (Hr1 : r1 < 360 * INR 3).
  { cbn [INR]. destruct (Rlt_dec r 0) as [Hn | Hn].
    - specialize (Hlt Hn). lra.
    - rewrite Hsame by lra. lra. }
  destruct (whileTooLarge_real 2 r1 H1 Hr1) as (k2 & r2 & E2 & H2 & F2).
  exists r2. split.
  - split; [exact H2|]. exists (Z.of_nat k1 - Z.of_nat k2)%Z.
    rewrite minus_IZR, <- !INR_IZR_INZ. lra.
  - intros fuel Hf. unfold normalizeHeading.
    rewrite F1 by lia. apply F2. lia.
Qed.

(** A heading of the range is returned by the first test of each loop. *)
Lemma normalizeHeading_fixed (r : R) (fuel : nat) :
  0 <= r < 360 -> (1 <= fuel)%nat ->
  normalizeHeading fuel (JS.Fin r) = Some (JS.Fin r).
Proof.
  intros Hr Hf. destruct fuel as [|fuel]; [lia|].
  unfold normalizeHeading. cbn [whileNegative].
  assert (E1 : JS.lt (JS.Fin r) JS.zero = false) by (apply Rltb_false; lra).
  rewrite E1. cbn [whileTooLarge].
  assert (E2 : JS.ge (JS.Fin r) (JS.Fin 360) = false).
  { destruct (JS.ge (JS.Fin r) (JS.Fin 360)) eqn:E; [|reflexivity].
    apply le_Fin in E. lra. }
  now rewrite E2.
Qed.

(** With smoothing factor 0 the smoothed heading is the new heading. *)
Lemma applySmoothingToHeading_zero (c n : R) :
  0 <= c < 360 -> 0 <= n < 360 ->
  forall fuel, (3 <= fuel)%nat ->
    applySmoothingToHeading fuel JS.zero (JS.Fin c) (JS.Fin n) = Some (JS.Fin n).
Proof.
  intros Hc Hn. unfold applySmoothingToHeading.
  cbn [JS.sub JS.neg JS.add JS.gt JS.lt JS.one JS.zero].
  assert (Hcase : exists x z,
    JS.add (JS.Fin c)
      (JS.mul
         (if JS.Rltb 180 (n + - c) then JS.Fin (n + - c + - (360))
          else if JS.Rltb (n + - c) (-180) then JS.add (JS.Fin (n + - c)) (JS.Fin 360)
          else JS.Fin (n + - c))
         (JS.Fin (1 + - 0))) = JS.Fin x /\ x = n + 360 * IZR z /\ -360 <= x <= 720).
  { destruct (JS.Rltb 180 (n + - c)).
    - eexists; exists (-1)%Z. split; [reflexivity|]. lra.
    - destruct (JS.Rltb (n + - c) (-180)).
      + eexists; exists 1%Z. split; [reflexivity|]. lra.
      + eexists; exists 0%Z. split; [reflexivity|]. lra. }
  destruct Hcase as (x & z & Ex & Hx & Hb).
  destruct (normalizeHeading_bounded x Hb) as (x' & Hnorm & Hf).
  assert (x' = n).
  { apply (normalized_unique n); [|now apply normalized_self].
    apply (normalized_shift n x' z). now rewrite <- Hx. }
  subst x'. intros fuel Hfuel.
  rewrite <- (Hf fuel Hfuel). f_equal. exact Ex.
Qed.

Lemma setSmoothingFactor_zero (st : t) :
  smoothingFactor (setSmoothingFactor JS.zero st) = JS.zero.
Proof.
  unfold setSmoothingFactor, JS.max, JS.min, JS.zero, JS.one.
  cbn [smoothingFactor].
  assert (E1 : JS.lt (JS.Fin 0) (JS.Fin 1) = true) by (apply Rltb_true; lra).
  rewrite E1. now rewrite lt_irrefl.
Qed.

(** C9 (as amended): the first heading update, made with no prior smoothed
    state, returns the raw heading unchanged, for any smoothing factor,
    when the raw heading lies in [[0, 360)]; and with the smoothing factor
    set to 0, a heading update returns the raw heading unchanged when that
    heading and the previous smoothed heading are whole numbers of degrees
    in [[0, 360)] (their sums and differences are then computed without
    rounding).  Three tests of each loop condition suffice. *)
Theorem heading_update_passthrough (st : t) (orientation : OrientationEvent)
  (now : Z) (r : R) :
  extractHeading orientation = JS.Fin r ->
  0 <= r < 360 ->
  lastOrientation st = None \/
  (smoothingFactor st = JS.zero /\ wholeDegrees r /\
   exists last c, lastOrientation st = Some last /\ heading last = JS.Fin c /\
                  0 <= c < 360 /\ wholeDegrees c) ->
  smoothingFactor (setSmoothingFactor JS.zero st) = JS.zero /\
  forall fuel, (3 <= fuel)%nat ->
  exists data,
    handleOrientationChange fuel orientation now st =
      Some (data, {| lastOrientation := Some data;
                     smoothingFactor := smoothingFactor st |}) /\
    heading data = JS.Fin r.
Proof.
  intros Hraw Hr Hcase. split; [apply setSmoothingFactor_zero|].
  intros fuel Hfuel.
  unfold handleOrientationChange. rewrite Hraw.
  rewrite (normalizeHeading_fixed r fuel Hr) by lia.
  destruct Hcase as [Hnone | (Hzero & _ & last & c & Hlast & Hc & Hcr & _)].
  - rewrite Hnone. eexists. split; reflexivity.
  - rewrite Hlast, Hzero, Hc.
    rewrite (applySmoothingToHeading_zero c r Hcr Hr fuel Hfuel).
    eexists. split; reflexivity.
Qed.

Lemma heading_update_passthrough_witness :
  (exists data,
     handleOrientationChange 3 eastEvent 1700000000100 unsmoothed =
       Some (data, {| lastOrientation := Some data;
                      smoothingFactor := smoothingFactor unsmoothed |}) /\
     heading data = JS.Fin 90) /\
  (exists data,
     handleOrientationChange 3 eastEvent 1700000000000 init =
       Some (data, {| lastOrientation := Some data;
                      smoothingFactor := smoothingFactor init |}) /\
     heading data = JS.Fin 90).
Proof.
  assert (Hr : 0 <= 90 < 360) by lra.
  assert (Hc : 0 <= 10 < 360) by lra.
  assert (Hlast : smoothingFactor unsmoothed = JS.zero /\ wholeDegrees 90 /\
                  exists last c, lastOrientation unsmoothed = Some last /\
                                 heading last = JS.Fin c /\
                                 0 <= c < 360 /\ wholeDegrees c).
  { split; [reflexivity|]. split; [now exists 90%Z|].
    eexists; exists 10. split; [reflexivity|]. split; [reflexivity|].
    split; [exact Hc | now exists 10%Z]. }
  split.
  - apply (proj2 (heading_update_passthrough unsmoothed eastEvent 1700000000100 90
                    eq_refl Hr (or_intror Hlast))).
    lia.
  - apply (proj2 (heading_update_passthrough init eastEvent 1700000000000 90
                    eq_refl Hr (or_introl eq_refl))).
    lia.
Defined.

(** C9, counterexample: the first update, with raw heading 370, returns
    heading 10. *)
Lemma first_update_normalizes_raw_heading :
  exists data st',
    handleOrientationChange 2 (NumberEvent (JS.Fin 370)) 1700000000000 init
      = Some (data, st') /\
    heading data = JS.Fin 10 /\ heading data <> JS.Fin 370.
Proof.
  assert (E1 : JS.lt (JS.Fin 370) JS.zero = false) by (apply Rltb_false; lra).
  assert (E2 : JS.ge (JS.Fin 370) (JS.Fin 360) = true) by (apply le_Fin; lra).
  assert (E3 : JS.ge (JS.Fin (370 + - (360))) (JS.Fin 360) = false).
  { apply not_true_is_false. intros E. apply le_Fin in E. lra. }
  assert (E : normalizeHeading 2 (JS.Fin 370) = Some (JS.Fin 10)).
  { unfold normalizeHeading. cbn [whileNegative]. rewrite E1.
    cbn [whileTooLarge]. rewrite E2. cbn [JS.sub JS.neg JS.add]. rewrite E3.
    do 2 f_equal. lra. }
  unfold handleOrientationChange. cbn [extractHeading lastOrientation init].
  rewrite E. do 2 eexists. split; [reflexivity|]. cbn [heading].
  split; [reflexivity|]. intros H. injection H. lra.
Qed.

End SmootherProps.

(** ** The heading arithmetic in double precision *)

Module RoundingProps.
Import SimplifierSpec RoundingSpec.
Import HeadingBinary64.

(** With smoothing factor 0, last heading 10 and new heading 0.1 (the
    double nearest to it), the smoothed heading is a double strictly below
    the new heading: 0.1 - 10 is rounded, and adding 10 back does not undo
    the rounding. *)
Lemma smoothing_factor_zero_rounds :
  exists h,
    applySmoothingToHeading 3 0%float 10%float 0x1.999999999999ap-4%float = Some h /\
    (h <? 0x1.999999999999ap-4)%float = true /\
    unchangedAtZero 10%float 0x1.999999999999ap-4%float = false.
Proof. eexists. split; [vm_compute; reflexivity|]. split; vm_compute; reflexivity. Qed.

(** With smoothing factor 0, whenever the last heading and the new heading
    are whole numbers of degrees from 0 to 359, the smoothed heading is the
    new heading, bit for bit, within three tests of each loop condition. *)
Lemma whole_degrees_unchanged (c r : nat) :
  (c < 360)%nat -> (r < 360)%nat ->
  applySmoothingToHeading 3 0%float (degrees c) (degrees r) = Some (degrees r).
Proof.
  intros Hc Hr.
  assert (Hall : forallb (fun c => forallb (fun r => unchangedAtZero (degrees c) (degrees r))
                                     (seq 0 360)) (seq 0 360) = true)
    by (vm_compute; reflexivity).
  rewrite forallb_forall in Hall.
  assert (Hc' : In c (seq 0 360)) by (apply in_seq; lia).
  specialize (Hall c Hc'). rewrite forallb_forall in Hall.
  assert (Hr' : In r (seq 0 360)) by (apply in_seq; lia).
  specialize (Hall r Hr'). unfold unchangedAtZero in Hall.
  destruct (applySmoothingToHeading 3 0 (degrees c) (degrees r)) as [h|];
    [|discriminate].
  apply Leibniz.eqb_spec in Hall. now subst h.
Qed.

(** Subtracting 360 from 1e19 gives 1e19 again: the second loop of
    [normalizeHeading] makes no progress, and the call never returns. *)
Lemma normalizeHeading_large_never_returns :
  (1e19 - 360)%float = 1e19%float /\
  neverReturns (fun fuel => normalizeHeading fuel 1e19%float).
Proof.
  split; [vm_compute; reflexivity|].
  assert (H : forall fuel, whileTooLarge fuel 1e19%float = None).
  { induction fuel as [|fuel IH]; [reflexivity|].
    change (whileTooLarge (S fuel) 1e19%float) with (whileTooLarge fuel 1e19%float).
    exact IH. }
  intros [|fuel]; [reflexivity|].
  change (normalizeHeading (S fuel) 1e19%float) with (whileTooLarge (S fuel) 1e19%float).
  apply H.
Qed.

(** A negative heading of tiny magnitude plus 360 is rounded to 360
    exactly; [normalizeHeading] then takes it to 0. *)
Lemma tiny_negative_heading_rounds_to_360 :
  (-0x1p-70 <? 0)%float = true /\
  (-0x1p-70 + 360)%float = 360%float /\
  normalizeHeading 3 (-0x1p-70)%float = Some 0%float.
Proof. repeat split; vm_compute; reflexivity. Qed.

End RoundingProps.

(** ** The camera state machine and navigation start ([CarParkingMap]) *)

Module MapProps.

Import MapSpec.
Import CarParkingMap.

Local Open Scope Z_scope.

Lemma interaction_processed (now : Z) (st : t) :
  passesThrottle now st ->
  step (Interact now) st
  = onInteraction now (setInteractionLastCallTime now (callbackStale st) st).
Proof.
  unfold passesThrottle, step, handleUserMapInteraction, PerformanceOptimizer.throttle.
  intros H. destruct (now - interactionLastCallTime st >=? 100) eqn:E.
  - reflexivity.
  - rewrite Z.geb_leb in E. apply Z.leb_gt in E. lia.
Qed.

Lemma interaction_dropped (now : Z) (st : t) :
  now - interactionLastCallTime st < 100 -> step (Interact now) st = st.
Proof.
  unfold step, handleUserMapInteraction, PerformanceOptimizer.throttle.
  intros H. destruct (now - interactionLastCallTime st >=? 100) eqn:E.
  - rewrite Z.geb_leb in E. apply Z.leb_le in E. lia.
  - reflexivity.
Qed.

Lemma interaction_arms (now : Z) (st : t) :
  passesThrottle now st ->
  inStep st ->
  armed (now + USER_IDLE_TIMEOUT) (step (Interact now) st) /\
  isNavigating (navigationState (step (Interact now) st))
  = isNavigating (navigationState st) /\
  interactionLastCallTime (step (Interact now) st) = now.
Proof.
  intros H Hs. rewrite interaction_processed by assumption.
  unfold armed, inStep, onInteraction in *.
  cbn [navigationState interactionIsNavigating setUserIdleTimeout setCameraState
       setInteractionLastCallTime].
  rewrite Hs.
  destruct (isNavigating (navigationState st)) eqn:E; cbn; rewrite ?E, ?Hs; auto.
Qed.

Lemma step_quiet (due : Z) (e : Event) (st : t) :
  armed due st ->
  match e with Interact _ => False | Tick now => now < due | Render => True end ->
  armed due (step e st) /\
  isNavigating (navigationState (step e st)) = isNavigating (navigationState st).
Proof.
  intros (Hu & Hs & Ht) He. destruct e as [now | now |]; [contradiction | |].
  - cbn [step]. rewrite Ht.
    destruct (isNavigating (navigationState st)) eqn:E.
    + destruct (due <=? now) eqn:D; [apply Z.leb_le in D; lia|].
      unfold armed. rewrite E. auto.
    + unfold armed. rewrite E. auto.
  - cbn [step]. unfold render.
    destruct (callbackStale st); unfold armed, inStep; cbn; auto.
Qed.

Lemma quiet_run (due : Z) (events : list Event) :
  forall st, armed due st -> quiet due events ->
  armed due (run events st) /\
  isNavigating (navigationState (run events st)) = isNavigating (navigationState st).
Proof.
  induction events as [|e events IH]; intros st Ha Hq; cbn [run]; [auto|].
  inversion Hq as [|? ? He Hrest]; subst.
  destruct (step_quiet due e st Ha He) as (Ha' & Hn).
  destruct (IH (step e st) Ha' Hrest) as (Ha'' & Hn'').
  split; [exact Ha'' | congruence].
Qed.

Lemma keptAlive_userControlled (events : list Event) :
  forall lastInteraction st,
  armed (lastInteraction + USER_IDLE_TIMEOUT) st ->
  keptAlive lastInteraction events st ->
  Forall (fun s => isUserControlled (cameraState s) = true) (states events st).
Proof.
  induction events as [|e events IH]; intros lastInteraction st Ha Hk;
    cbn [states]; [constructor|].
  destruct e as [now | now |]; cbn [keptAlive] in Hk.
  - destruct Hk as (_ & Hp & Hk).
    destruct (interaction_arms now st Hp (proj1 (proj2 Ha))) as (Ha' & _).
    constructor; [apply Ha' | eapply IH; eauto].
  - destruct Hk as (Hlt & Hk).
    destruct (step_quiet _ (Tick now) st Ha Hlt) as (Ha' & _).
    constructor; [apply Ha' | eapply IH; eauto].
  - destruct (step_quiet _ Render st Ha I) as (Ha' & _).
    constructor; [apply Ha' | eapply IH; eauto].
Qed.

(** When the timer is due, the camera goes back to autonomous, north up. *)
Lemma idle_timeout_fires (due later : Z) (st : t) :
  armed due st -> isNavigating (navigationState st) = true -> due <= later ->
  isUserControlled (cameraState (step (Tick later) st)) = false /\
  bearing (cameraState (step (Tick later) st)) = JS.zero /\
  userIdleTimeout (step (Tick later) st) = None.
Proof.
  intros (_ & _ & Ht) Hn Hle. rewrite Hn in Ht. cbn [step]. rewrite Ht.
  apply Z.leb_le in Hle. rewrite Hle. cbn. auto.
Qed.

(** The render that follows a processed interaction replaces the throttled
    closure by a fresh one: the throttle only acts on interactions that
    arrive before the component has rendered again. *)
Lemma render_after_interaction_resets_throttle (now : Z) (st : t) :
  passesThrottle now st ->
  interactionLastCallTime (step Render (step (Interact now) st)) = 0.
Proof.
  intros H. rewrite interaction_processed by assumption.
  unfold onInteraction.
  cbn [navigationState interactionIsNavigating setUserIdleTimeout setCameraState
       setInteractionLastCallTime].
  destruct (interactionIsNavigating st); reflexivity.
Qed.

(** An interaction handled after navigation has started but before the
    component has rendered again runs the closure of the previous render,
    which saw no navigation: it takes the camera and arms no idle timer, so
    no timer turn gives the camera back. *)
Lemma interaction_before_render_arms_no_timer :
  let st :=
    handleStartNavigation someSlot
      (RoutingService.Fetched RoutingSpec.routeThreeLegs) ThrottleSpec.t0
      (setUserLocation someLocation (render (init ThrottleSpec.t0))) in
  isNavigating (navigationState st) = true /\
  userIdleTimeout (step (Interact (ThrottleSpec.t0 + 1000)) st) = None /\
  isUserControlled
    (cameraState
       (run [Interact (ThrottleSpec.t0 + 1000); Tick (ThrottleSpec.t0 + 20000)] st))
  = true.
Proof. repeat split. Qed.

(** C3 (as amended): on a component that has rendered since navigation was
    last started or ended (the closure of the handler is in step), a user
    map interaction that the 100 ms throttle of the handler lets through
    sets the camera to user-controlled, cancels the pending idle timer and,
    during navigation, starts a new 10 s timer; if navigation is active and
    that timer then elapses with no further interaction, the camera returns
    to autonomous with bearing 0; a sequence of interactions, each let
    through by the throttle and each less than 10 s after the previous one,
    keeps the camera user-controlled throughout; an interaction less than
    100 ms after the last processed one, on the same throttled closure, is
    dropped and changes nothing. *)
Theorem camera_state_machine (st : t) (now : Z) :
  passesThrottle now st ->
  inStep st ->
  isUserControlled (cameraState (step (Interact now) st)) = true /\
  userIdleTimeout (step (Interact now) st)
  = (if isNavigating (navigationState st) then Some (now + USER_IDLE_TIMEOUT) else None) /\
  (isNavigating (navigationState st) = true ->
   forall events later,
     quiet (now + USER_IDLE_TIMEOUT) events ->
     now + USER_IDLE_TIMEOUT <= later ->
     isUserControlled
       (cameraState (run (events ++ [Tick later]) (step (Interact now) st))) = false /\
     bearing
       (cameraState (run (events ++ [Tick later]) (step (Interact now) st))) = JS.zero) /\
  (forall events,
     keptAlive now events (step (Interact now) st) ->
     Forall (fun s => isUserControlled (cameraState s) = true)
       (states events (step (Interact now) st))) /\
  (forall events next,
     quiet (now + USER_IDLE_TIMEOUT) events ->
     Forall (fun e => e <> Render) events ->
     next - now < 100 ->
     step (Interact next) (run events (step (Interact now) st))
     = run events (step (Interact now) st)).
Proof.
  intros Hp Hs.
  destruct (interaction_arms now st Hp Hs) as (Ha & Hn & Hl).
  split; [apply Ha|]. split.
  { destruct Ha as (_ & _ & Ht). rewrite Ht, Hn. reflexivity. }
  split; [|split].
  - intros Hnav events later Hq Hle.
    assert (Hrun : forall s l e, run (l ++ [e]) s = step e (run l s)).
    { intros s l e. revert s. induction l as [|x l IH]; intros s; cbn; auto. }
    rewrite Hrun.
    destruct (quiet_run _ events _ Ha Hq) as (Ha' & Hn').
    destruct (idle_timeout_fires _ later _ Ha') as (H1 & H2 & _); auto.
    congruence.
  - intros events Hk. eapply keptAlive_userControlled; eauto.
  - intros events next Hq Hnr Hlt. apply interaction_dropped.
    assert (Hkeep : forall l s,
              quiet (now + USER_IDLE_TIMEOUT) l -> Forall (fun e => e <> Render) l ->
              armed (now + USER_IDLE_TIMEOUT) s ->
              interactionLastCallTime (run l s) = interactionLastCallTime s).
    { induction l as [|e l IH]; intros s Hql Hrl Hs'; cbn [run]; [reflexivity|].
      inversion Hql as [|? ? He Hql']; subst.
      inversion Hrl as [|? ? Hr Hrl']; subst.
      destruct (step_quiet _ e s Hs' He) as (Hs'' & _).
      rewrite (IH _ Hql' Hrl' Hs'').
      destruct e as [t | t |]; [contradiction | | congruence].
      cbn [step]. destruct (userIdleTimeout s) as [due|] eqn:Ed; [|reflexivity].
      destruct Hs' as (_ & _ & Ht). rewrite Ed in Ht.
      destruct (isNavigating (navigationState s)); [|discriminate].
      inversion Ht; subst due.
      destruct (now + USER_IDLE_TIMEOUT <=? t) eqn:D; [|reflexivity].
      apply Z.leb_le in D. lia. }
    rewrite (Hkeep events _ Hq Hnr Ha), Hl. exact Hlt.
Qed.

Lemma camera_state_machine_witness :
  passesThrottle (ThrottleSpec.t0 + 1000) navigating /\
  inStep navigating /\
  isUserControlled
    (cameraState (step (Interact (ThrottleSpec.t0 + 1000)) navigating)) = true /\
  userIdleTimeout (step (Interact (ThrottleSpec.t0 + 1000)) navigating)
  = Some (ThrottleSpec.t0 + 1000 + USER_IDLE_TIMEOUT).
Proof.
  assert (Hp : passesThrottle (ThrottleSpec.t0 + 1000) navigating)
    by (unfold passesThrottle; discriminate).
  assert (Hs : inStep navigating) by reflexivity.
  split; [exact Hp|]. split; [exact Hs|].
  destruct (camera_state_machine navigating (ThrottleSpec.t0 + 1000) Hp Hs)
    as (H1 & H2 & _).
  split; [exact H1 | exact H2].
Defined.

(** C3, counterexample: during navigation, on a rendered component, an
    interaction 50 ms after a processed one, handled before the component
    has rendered again, is dropped and does not restart the idle timer,
    which then fires 9950 ms after that interaction. *)
Lemma throttled_interaction_does_not_restart_timer :
  isNavigating (navigationState navigating) = true /\
  userIdleTimeout
    (run [Interact (ThrottleSpec.t0 + 1000); Interact (ThrottleSpec.t0 + 1050)]
       navigating)
  = Some (ThrottleSpec.t0 + 11000) /\
  isUserControlled
    (cameraState
       (run [Interact (ThrottleSpec.t0 + 1000); Interact (ThrottleSpec.t0 + 1050);
             Tick (ThrottleSpec.t0 + 11000)] navigating)) = false.
Proof. repeat split. Qed.

(** C8: when the route provider fails, [getRoute] throws to its caller
    and [handleStartNavigation] changes neither the navigation state, nor
    the camera state, nor the stored current route, nor any other cell of
    the component; it only shows the error alert. *)
Theorem start_navigation_failure_is_atomic (parkingSlot : ParkingSlot) (e : exn)
  (now : Z) (st : t) :
  RoutingService.getRoute (RoutingService.Failed e)
  = Throw (Error "Failed to fetch route") /\
  navigationState (handleStartNavigation parkingSlot (RoutingService.Failed e) now st)
  = navigationState st /\
  cameraState (handleStartNavigation parkingSlot (RoutingService.Failed e) now st)
  = cameraState st /\
  routingCurrentRoute (handleStartNavigation parkingSlot (RoutingService.Failed e) now st)
  = routingCurrentRoute st /\
  userLocation (handleStartNavigation parkingSlot (RoutingService.Failed e) now st)
  = userLocation st /\
  selectedParkingSlot (handleStartNavigation parkingSlot (RoutingService.Failed e) now st)
  = selectedParkingSlot st /\
  isBottomSheetVisible (handleStartNavigation parkingSlot (RoutingService.Failed e) now st)
  = isBottomSheetVisible st /\
  userIdleTimeout (handleStartNavigation parkingSlot (RoutingService.Failed e) now st)
  = userIdleTimeout st /\
  interactionLastCallTime
    (handleStartNavigation parkingSlot (RoutingService.Failed e) now st)
  = interactionLastCallTime st /\
  callbackStale (handleStartNavigation parkingSlot (RoutingService.Failed e) now st)
  = callbackStale st /\
  interactionIsNavigating
    (handleStartNavigation parkingSlot (RoutingService.Failed e) now st)
  = interactionIsNavigating st /\
  (userLocation st <> None ->
   alerts (handleStartNavigation parkingSlot (RoutingService.Failed e) now st)
   = (alerts st
      ++ [("Navigation Error"%string,
           "Failed to calculate route. Please try again."%string)])%list).
Proof.
  unfold handleStartNavigation.
  destruct (userLocation st) eqn:E; cbn; rewrite ?E; repeat split; congruence.
Qed.

End MapProps.

(** ** The haversine distance ([calculateDistance]) *)

Module DistanceProps.
Import RoutingSpec.
Import RoutingService.
Import JSFacts.
Import RoutingProps.
Local Open Scope R_scope.

(** A square root is [NaN], infinite or a non-negative real. *)
Lemma sqrt_cases (x : JS.number) :
  JS.sqrt x = JS.NaN \/ JS.sqrt x = JS.PInf \/
  exists r, JS.sqrt x = JS.Fin r /\ 0 <= r.
Proof.
  destruct x as [| | |r]; cbn; auto.
  destruct (JS.Rltb r 0); auto. right; right. eexists; split; [reflexivity|].
  apply sqrt_pos.
Qed.

Lemma Ratan2_nonneg_le (y x : R) : 0 <= y -> 0 <= x -> 0 <= JS.Ratan2 y x <= PI / 2.
Proof.
  intros Hy Hx. split; [now apply Ratan2_nonneg|].
  pose proof PI_RGT_0 as Hpi. unfold JS.Ratan2.
  pose proof (atan_bound (y / x)).
  destruct (JS.Rltb 0 x) eqn:E1; [lra|].
  destruct (JS.Rltb x 0) eqn:E2; [apply Rltb_true in E2; lra|].
  destruct (JS.Rltb 0 y); [lra|]. destruct (JS.Rltb y 0) eqn:E3; [|lra].
  apply Rltb_true in E3. lra.
Qed.

(** The haversine distance is [NaN] or a real from 0 to half the
    circumference of the sphere. *)
Lemma calculateDistance_range (p q : Coordinates) :
  calculateDistance p q = JS.NaN \/
  exists d, calculateDistance p q = JS.Fin d /\ 0 <= d <= 6371000 * PI.
Proof.
  pose proof PI_RGT_0 as Hpi. unfold calculateDistance.
  set (a := JS.add _ _).
  destruct (sqrt_cases a) as [-> | [-> | (y & -> & Hy)]];
    destruct (sqrt_cases (JS.sub JS.one a)) as [-> | [-> | (x & -> & Hx)]];
    cbn [JS.atan2 JS.mul]; auto; right.
  - eexists; split; [reflexivity|]. nra.
  - eexists; split; [reflexivity|]. nra.
  - eexists; split; [reflexivity|]. nra.
  - eexists; split; [reflexivity|].
    pose proof (Ratan2_nonneg_le y x Hy Hx). nra.
Qed.

Lemma mul_NaN_r (x : JS.number) : JS.mul x JS.NaN = JS.NaN.
Proof. destruct x; reflexivity. Qed.

Lemma mul_comm (x y : JS.number) : JS.mul x y = JS.mul y x.
Proof. destruct x, y; cbn; try reflexivity. f_equal; ring. Qed.

Lemma half_sine_infinite (w : JS.number) :
  w = JS.PInf \/ w = JS.NInf ->
  JS.sin (JS.div (JS.div (JS.mul w JS.PI) (JS.Fin 180)) (JS.Fin 2)) = JS.NaN.
Proof.
  pose proof PI_RGT_0 as Hpi.
  assert (E0 : JS.Reqb PI 0 = false) by (apply Reqb_false; lra).
  assert (E1 : JS.Rltb 0 PI = true) by (apply Rltb_true; lra).
  assert (E2 : JS.Rltb 180 0 = false) by (apply Rltb_false; lra).
  assert (E3 : JS.Rltb 2 0 = false) by (apply Rltb_false; lra).
  intros [-> | ->]; cbn [JS.mul JS.PI]; unfold JS.signed_inf; rewrite E0, E1;
    cbn [JS.div]; rewrite E2; cbn [JS.div]; rewrite E3; reflexivity.
Qed.

(** The square of the sine of half an angular difference does not depend
    on the order of the two angles. *)
Lemma half_sine_square_sym (u v : JS.number) :
  let h w := JS.sin (JS.div (JS.div (JS.mul w JS.PI) (JS.Fin 180)) (JS.Fin 2)) in
  JS.mul (h (JS.sub u v)) (h (JS.sub u v)) = JS.mul (h (JS.sub v u)) (h (JS.sub v u)).
Proof.
  cbv zeta. pose proof PI_RGT_0 as Hpi.
  destruct u as [| | |a], v as [| | |b]; try reflexivity;
    try (rewrite !half_sine_infinite by (cbn; auto); reflexivity).
  cbn [JS.sub JS.neg JS.add JS.mul JS.PI]. rewrite !div_Fin by lra.
  cbn [JS.sin JS.mul]. f_equal.
  replace ((b + - a) * PI / 180 / 2) with (- ((a + - b) * PI / 180 / 2)) by lra.
  rewrite sin_neg. ring.
Qed.

Lemma cos_cases (x : JS.number) : JS.cos x = JS.NaN \/ exists r, JS.cos x = JS.Fin r.
Proof. destruct x; cbn; eauto. Qed.

(** A point with real coordinates is at distance 0 from itself. *)
Lemma calculateDistance_self (lat lon : R) :
  calculateDistance (at_ lat lon) (at_ lat lon) = JS.Fin 0.
Proof.
  assert (Ha : haversine_a lat lon lat lon = 0).
  { unfold haversine_a.
    replace ((lat + - lat) * PI / 180 / 2) with 0 by lra.
    replace ((lon + - lon) * PI / 180 / 2) with 0 by lra.
    rewrite sin_0. ring. }
  rewrite calculateDistance_real by (rewrite Ha; lra).
  rewrite Ha. f_equal.
  replace (1 + - 0) with 1 by lra. rewrite R_sqrt.sqrt_0, R_sqrt.sqrt_1.
  unfold JS.Ratan2. Rdecide; try lra.
  replace (0 / 1) with 0 by lra. rewrite atan_0. lra.
Qed.

Lemma sin_cases (x : JS.number) : JS.sin x = JS.NaN \/ exists r, JS.sin x = JS.Fin r.
Proof. destruct x; cbn; eauto. Qed.

Lemma calculateDistance_sym (p q : Coordinates) :
  calculateDistance p q = calculateDistance q p.
Proof.
  unfold calculateDistance.
  pose proof (half_sine_square_sym (latitude q) (latitude p)) as H1.
  pose proof (half_sine_square_sym (longitude q) (longitude p)) as H2.
  cbv beta zeta in H1, H2.
  set (c1 := JS.cos (JS.div (JS.mul (latitude p) JS.PI) (JS.Fin 180))).
  set (c2 := JS.cos (JS.div (JS.mul (latitude q) JS.PI) (JS.Fin 180))).
  rewrite H1.
  match type of H2 with JS.mul ?s ?s = JS.mul ?s' ?s' =>
    assert (E : JS.mul (JS.mul (JS.mul c1 c2) s) s
                = JS.mul (JS.mul (JS.mul c2 c1) s') s');
    [ rewrite (mul_comm c2 c1);
      destruct (sin_cases
        (JS.div (JS.div (JS.mul (JS.sub (longitude q) (longitude p)) JS.PI)
                   (JS.Fin 180)) (JS.Fin 2))) as [Es | (x & Es)];
      destruct (sin_cases
        (JS.div (JS.div (JS.mul (JS.sub (longitude p) (longitude q)) JS.PI)
                   (JS.Fin 180)) (JS.Fin 2))) as [Es' | (x' & Es')];
      rewrite Es, Es' in *
    | rewrite E; reflexivity ]
  end.
  - reflexivity.
  - cbn in H2. discriminate.
  - cbn in H2. discriminate.
  - cbn in H2. injection H2 as H2.
    destruct (cos_cases (JS.div (JS.mul (latitude p) JS.PI) (JS.Fin 180)))
      as [E1 | (a1 & E1)];
    destruct (cos_cases (JS.div (JS.mul (latitude q) JS.PI) (JS.Fin 180)))
      as [E2 | (a2 & E2)];
    unfold c1, c2; rewrite E1, E2; cbn; try reflexivity.
    f_equal. rewrite !Rmult_assoc. rewrite H2. reflexivity.
Qed.

(** [calculateDistance] (haversine).  The distance does not depend on the
    order of the two points.  It is never negative and never infinite: it
    is either not a number or a real from 0 to half the circumference of
    the sphere, [6371000 * PI].  A point with real coordinates is at
    distance 0 from itself. *)
Theorem calculateDistance_metric (p q : Coordinates) :
  calculateDistance p q = calculateDistance q p /\
  (calculateDistance p q = JS.NaN \/
   exists d, calculateDistance p q = JS.Fin d /\ 0 <= d <= 6371000 * PI) /\
  (forall lat lon, p = at_ lat lon -> calculateDistance p p = JS.Fin 0).
Proof.
  split; [apply calculateDistance_sym|]. split; [apply calculateDistance_range|].
  intros lat lon ->. apply calculateDistance_self.
Qed.

End DistanceProps.

(** ** The gates of the throttler over sequences of samples *)

Module GateProps.
Import ThrottleSpec GateSpec.
Import PerformanceOptimizer.
Import JSFacts.
Local Open Scope Z_scope.

(** Heading gate ([shouldUpdateOrientation]).  Over any sequence of calls,
    whatever the clock readings, two accepted calls are at least
    [ORIENTATION_UPDATE_INTERVAL] (100 ms) apart, the first of them at least
    that long after the last accepted call recorded in the state.  A call is
    accepted as soon as the interval has passed, and a rejected call leaves
    the state as it was. *)
Theorem orientation_updates_spaced (times : list Z) (st : t) :
  spacedAfter ORIENTATION_UPDATE_INTERVAL (Some (lastOrientationUpdate st))
    (fst (feedOrientation times st)) /\
  (forall now, ORIENTATION_UPDATE_INTERVAL <= now - lastOrientationUpdate st ->
     fst (shouldUpdateOrientation now st) = true) /\
  (forall now, now - lastOrientationUpdate st < ORIENTATION_UPDATE_INTERVAL ->
     shouldUpdateOrientation now st = (false, st)).
Proof.
  split; [|split].
  - revert st. induction times as [|now times IH]; intros st; cbn [feedOrientation].
    + exact I.
    + unfold shouldUpdateOrientation at 1.
      destruct (now - lastOrientationUpdate st <? ORIENTATION_UPDATE_INTERVAL) eqn:E.
      * specialize (IH st). destruct (feedOrientation times st) as [acc st2].
        exact IH.
      * match goal with |- context [feedOrientation times ?s] => specialize (IH s) end.
        cbn [lastOrientationUpdate] in IH.
        match goal with |- context [feedOrientation times ?s] =>
          destruct (feedOrientation times s) as [acc st2] end.
        cbn [fst spacedAfter] in *. apply Z.ltb_ge in E. split; [exact E | exact IH].
  - intros now H. unfold shouldUpdateOrientation.
    apply Z.ltb_ge in H. rewrite H. reflexivity.
  - intros now H. unfold shouldUpdateOrientation.
    apply Z.ltb_lt in H. rewrite H. reflexivity.
Qed.

(** [throttle].  Over any sequence of calls of the closure, two runs of
    the throttled function are at least [delay] apart, the first of them at
    least [delay] after [lastCallTime].  A call made [delay] or more after
    the last run does run and becomes the last run; an earlier call is
    dropped and changes nothing (it is not postponed). *)
Theorem throttle_runs_spaced (delay : Z) (times : list Z) (lastCallTime : Z) :
  spacedAfter delay (Some lastCallTime) (fst (feedThrottle delay times lastCallTime)) /\
  (forall now, delay <= now - lastCallTime ->
     throttle delay now lastCallTime = (true, now)) /\
  (forall now, now - lastCallTime < delay ->
     throttle delay now lastCallTime = (false, lastCallTime)).
Proof.
  split; [|split].
  - revert lastCallTime. induction times as [|now times IH]; intros last;
      cbn [feedThrottle].
    + exact I.
    + unfold throttle at 1. destruct (now - last >=? delay) eqn:E.
      * specialize (IH now). destruct (feedThrottle delay times now) as [ran l2].
        cbn [fst spacedAfter] in *. rewrite Z.geb_leb in E. apply Z.leb_le in E.
        split; [exact E | exact IH].
      * specialize (IH last). destruct (feedThrottle delay times last) as [ran l2].
        exact IH.
  - intros now H. unfold throttle.
    destruct (now - lastCallTime >=? delay) eqn:E; [reflexivity|].
    rewrite Z.geb_leb in E. apply Z.leb_gt in E. lia.
  - intros now H. unfold throttle.
    destruct (now - lastCallTime >=? delay) eqn:E; [|reflexivity].
    rewrite Z.geb_leb in E. apply Z.leb_le in E. lia.
Qed.

(** One call of the position gate: either it accepts, records [now] and the
    interval has passed since the last accepted sample, or it rejects and
    keeps the time of the last accepted sample. *)
Lemma shouldUpdateLocation_cases (location : UserLocation) (now now' : Z) (st : t) :
  now <> 0 ->
  let r := shouldUpdateLocation location now now' st in
  (fst r = true /\ lastLocationUpdate (snd r) = now /\
   match lastAccepted st with Some p => 1000 <= now - p | None => True end) \/
  (fst r = false /\ lastLocationUpdate (snd r) = lastLocationUpdate st).
Proof.
  intros Hnow. cbv zeta. unfold shouldUpdateLocation, lastAccepted.
  destruct (lastLocationUpdate st =? 0) eqn:E0.
  - left. cbn. auto.
  - unfold LOCATION_UPDATE_INTERVAL.
    destruct (now - lastLocationUpdate st <? 1000) eqn:E1.
    + right. cbn. auto.
    + apply Z.ltb_ge in E1.
      pose proof (ThrottleProps.updateStationaryState_last location now' st) as Hl.
      destruct (isStationary _ && _ && _).
      * right. cbn [fst snd]. auto.
      * left. cbn [fst snd setLastLocationUpdate lastLocationUpdate]. auto.
Qed.

(** Position gate ([shouldUpdateLocation]).  Over any sequence of samples
    whose clock readings are not 0 (the value that marks "no sample yet"),
    two accepted samples are at least [LOCATION_UPDATE_INTERVAL] (1000 ms)
    apart, the first of them at least that long after the last sample
    accepted before, if there is one. *)
Theorem location_updates_spaced (samples : list (UserLocation * Z * Z)) (st : t) :
  Forall (fun s => snd (fst s) <> 0) samples ->
  spacedAfter LOCATION_UPDATE_INTERVAL (lastAccepted st)
    (acceptedTimes samples (fst (feedLocations samples st))).
Proof.
  intros H. revert st. induction H as [|[[location now] now'] samples Hnow _ IH];
    intros st; cbn [feedLocations].
  - exact I.
  - cbn [fst snd] in Hnow.
    pose proof (shouldUpdateLocation_cases location now now' st Hnow) as Hc.
    cbv zeta in Hc.
    destruct (shouldUpdateLocation location now now' st) as [b st1].
    specialize (IH st1).
    destruct (feedLocations samples st1) as [bs st2].
    cbn [fst snd acceptedTimes] in *.
    destruct Hc as [(-> & Hl & Hgap) | (-> & Hl)].
    + cbn [spacedAfter]. split; [exact Hgap|].
      unfold lastAccepted in IH. rewrite Hl in IH.
      apply Z.eqb_neq in Hnow. rewrite Hnow in IH. exact IH.
    + unfold lastAccepted in *. rewrite Hl in IH. exact IH.
Qed.

Lemma location_updates_spaced_witness :
  Forall (fun s => snd (fst s) <> 0) slowThenFast /\
  spacedAfter LOCATION_UPDATE_INTERVAL (lastAccepted init)
    (acceptedTimes slowThenFast (fst (feedLocations slowThenFast init))).
Proof.
  assert (H : Forall (fun s : UserLocation * Z * Z => snd (fst s) <> 0) slowThenFast).
  { repeat constructor; cbn; unfold t0; lia. }
  split; [exact H|]. apply (location_updates_spaced slowThenFast init H).
Defined.

End GateProps.

(** ** The map gate ([shouldUpdateMap]) *)

Module MapGateProps.
Import ThrottleSpec GateSpec.
Import PerformanceOptimizer.
Import JSFacts.
Import DistanceProps.
Local Open Scope Z_scope.

Lemma add_NaN_r (x : JS.number) : JS.add x JS.NaN = JS.NaN.
Proof. destruct x; reflexivity. Qed.

Lemma sub_NaN_l (x : JS.number) : JS.sub JS.NaN x = JS.NaN.
Proof. reflexivity. Qed.

Lemma sub_NaN_r (x : JS.number) : JS.sub x JS.NaN = JS.NaN.
Proof. destruct x; reflexivity. Qed.

Lemma calculateDistance_undefined_l (p q : Coordinates) :
  undefinedPoint p -> calculateDistance p q = JS.NaN.
Proof.
  destruct p as [lat1 lon1], q as [lat2 lon2].
  unfold undefinedPoint, calculateDistance, RoutingService.calculateDistance.
  cbn [latitude longitude].
  intros [-> | ->].
  - rewrite sub_NaN_r. reflexivity.
  - rewrite sub_NaN_r.
    cbn [JS.mul JS.div JS.sin]. rewrite !mul_NaN_r, add_NaN_r. reflexivity.
Qed.

(** Map gate ([shouldUpdateMap]).  Over any sequence of locations, each
    accepted location is at least [MAP_UPDATE_DISTANCE_THRESHOLD] (10 m,
    measured by [calculateDistance]) from the accepted one before it, the
    first of them from the location recorded in the state, if any.  With no
    recorded location every location is accepted, and a rejected location
    leaves the state as it was. *)
Theorem map_updates_moved_apart (locations : list UserLocation) (st : t) :
  movedApart (lastMapUpdateLocation st) (fst (feedMap locations st)) /\
  (lastMapUpdateLocation st = None ->
   forall location, fst (shouldUpdateMap location st) = true) /\
  (forall location, fst (shouldUpdateMap location st) = false ->
   snd (shouldUpdateMap location st) = st).
Proof.
  split; [|split].
  - revert st. induction locations as [|location rest IH]; intros st; cbn [feedMap].
    + exact I.
    + unfold shouldUpdateMap at 1.
      destruct (lastMapUpdateLocation st) as [lastLoc|] eqn:El.
      * destruct (JS.ge (calculateDistance lastLoc (loc_coordinates location))
                    MAP_UPDATE_DISTANCE_THRESHOLD) eqn:G.
        -- specialize (IH (setLastMapUpdateLocation (loc_coordinates location) st)).
           destruct (feedMap rest _) as [acc st2].
           cbn [fst movedApart]. split; [exact G | exact IH].
        -- specialize (IH st). destruct (feedMap rest st) as [acc st2].
           cbn [fst] in *. rewrite El in IH. exact IH.
      * specialize (IH (setLastMapUpdateLocation (loc_coordinates location) st)).
        destruct (feedMap rest _) as [acc st2].
        cbn [fst movedApart]. split; [exact I | exact IH].
  - intros H location. unfold shouldUpdateMap. rewrite H. reflexivity.
  - intros location. unfold shouldUpdateMap.
    destruct (lastMapUpdateLocation st); [|discriminate].
    destruct (JS.ge _ _); [discriminate | reflexivity].
Qed.

(** Once the recorded location has a coordinate that is not a number, the
    map gate rejects everything. *)
Lemma feedMap_undefined (locations : list UserLocation) (st : t) (c : Coordinates) :
  lastMapUpdateLocation st = Some c -> undefinedPoint c ->
  feedMap locations st = ([], st).
Proof.
  intros Hc Hu. induction locations as [|location rest IH]; cbn [feedMap].
  - reflexivity.
  - unfold shouldUpdateMap. rewrite Hc.
    rewrite (calculateDistance_undefined_l c _ Hu). cbn.
    rewrite IH. reflexivity.
Qed.

(** Map gate, undefined coordinates.  The first location after a [reset]
    is accepted unchecked; when one of its coordinates is not a number, the
    distance to it is not a number either, so the gate accepts no later
    location, whatever it is: the recorded location stays the undefined one
    (until the next [reset]). *)
Theorem map_gate_stuck_after_undefined_fix (first : UserLocation)
  (rest : list UserLocation) (st : t) :
  undefinedPoint (loc_coordinates first) ->
  fst (feedMap (first :: rest) (reset st)) = [loc_coordinates first] /\
  lastMapUpdateLocation (snd (feedMap (first :: rest) (reset st)))
    = Some (loc_coordinates first).
Proof.
  intros Hu.
  assert (E : feedMap (first :: rest) (reset st) =
              ([loc_coordinates first],
               setLastMapUpdateLocation (loc_coordinates first) (reset st))).
  { cbn [feedMap]. unfold shouldUpdateMap at 1.
    cbn [reset lastMapUpdateLocation].
    rewrite (feedMap_undefined rest
               (setLastMapUpdateLocation (loc_coordinates first) (reset st))
               (loc_coordinates first) eq_refl Hu).
    reflexivity. }
  rewrite E. split; reflexivity.
Qed.

Lemma map_gate_stuck_after_undefined_fix_witness :
  undefinedPoint (loc_coordinates fixWithoutLatitude) /\
  fst (feedMap [fixWithoutLatitude; sampleWithSpeed None t0] (reset init))
    = [loc_coordinates fixWithoutLatitude].
Proof.
  assert (H : undefinedPoint (loc_coordinates fixWithoutLatitude))
    by (left; reflexivity).
  split; [exact H|].
  exact (proj1 (map_gate_stuck_after_undefined_fix fixWithoutLatitude
                  [sampleWithSpeed None t0] init H)).
Defined.

End MapGateProps.

(** ** The stationary clock *)

Module StationaryProps.
Import ThrottleSpec GateSpec.
Import PerformanceOptimizer.
Import JSFacts.
Local Open Scope Z_scope.

(** A sample that is not moving has a speed below the stationary
    threshold, as [updateStationaryState] reads it. *)
Lemma not_moving_slow (location : UserLocation) :
  isMoving location = false ->
  JS.lt match speed location with
        | Some v => JS.or_else v JS.zero
        | None => JS.zero
        end STATIONARY_SPEED_THRESHOLD = true.
Proof.
  unfold isMoving, STATIONARY_SPEED_THRESHOLD.
  destruct (speed location) as [[| | |r]|]; intros H.
  - apply Rltb_true; lra.
  - discriminate H.
  - reflexivity.
  - assert (Hr : (r < 1)%R).
    { destruct (Rlt_dec r 1) as [?|Hn]; [assumption|].
      assert (E : JS.ge (JS.Fin r) (JS.Fin 1) = true) by (apply le_Fin; lra).
      congruence. }
    unfold JS.or_else. destruct (JS.Reqb r 0); apply Rltb_true; lra.
  - apply Rltb_true; lra.
Qed.

(** On a slow sample [updateStationaryState] starts the stationary clock
    if it is not running, and leaves it alone if it is. *)
Lemma updateStationaryState_slow (location : UserLocation) (now : Z) (st : t) :
  isMoving location = false ->
  updateStationaryState location now st =
    if isStationary st then st
    else {| lastLocationUpdate := lastLocationUpdate st;
            lastOrientationUpdate := lastOrientationUpdate st;
            isStationary := true;
            stationaryStartTime := now;
            lastMapUpdateLocation := lastMapUpdateLocation st |}.
Proof.
  intros H. unfold updateStationaryState. rewrite (not_moving_slow _ H).
  destruct (isStationary st); reflexivity.
Qed.

(** Stationary clock, slow samples.  Let a sample without speed, or with a
    speed below 1 m/s, reach [shouldUpdateLocation] after a first sample was
    accepted.  If the device was already stationary it stays so, and the
    start of the stationary period is kept, whether the sample is accepted
    or not.  If it was not, and the update interval has passed, the sample
    is accepted, the device becomes stationary, [getStationaryDuration]
    counts from the second clock reading of this call, and
    [getOptimizedLocationConfig] switches to the relaxed configuration
    (50 m, 10 s, 5 s). *)
Theorem stationary_clock_runs_on (location : UserLocation) (now now' : Z) (st : t) :
  isMoving location = false ->
  lastLocationUpdate st <> 0 ->
  now <= now' ->
  let st' := snd (shouldUpdateLocation location now now' st) in
  (isStationary st = true ->
   isCurrentlyStationary st' = true /\
   stationaryStartTime st' = stationaryStartTime st /\
   forall later, getStationaryDuration later st' = getStationaryDuration later st) /\
  (isStationary st = false ->
   LOCATION_UPDATE_INTERVAL <= now - lastLocationUpdate st ->
   fst (shouldUpdateLocation location now now' st) = true /\
   isCurrentlyStationary st' = true /\
   getOptimizedLocationConfig st' = mkLocationConfig 50 10000 5000 /\
   forall later, getStationaryDuration later st' = later - now').
Proof.
  intros Hslow Hlast Hclock. cbv zeta. unfold shouldUpdateLocation.
  apply Z.eqb_neq in Hlast. rewrite Hlast.
  rewrite (updateStationaryState_slow _ _ _ Hslow).
  unfold LOCATION_UPDATE_INTERVAL, isCurrentlyStationary, getStationaryDuration,
    getOptimizedLocationConfig.
  split.
  - intros Hs. rewrite Hs.
    destruct (now - lastLocationUpdate st <? 1000); cbn [snd].
    + rewrite Hs. auto.
    + rewrite Hs.
      destruct (true && (now - stationaryStartTime st >? STATIONARY_THRESHOLD)
                && (now - lastLocationUpdate st <? 5000)); cbn; rewrite Hs; auto.
  - intros Hs Hgap. rewrite Hs.
    destruct (now - lastLocationUpdate st <? 1000) eqn:E;
      [apply Z.ltb_lt in E; lia|].
    cbn [isStationary stationaryStartTime lastLocationUpdate].
    assert (E1 : (now - now' >? STATIONARY_THRESHOLD) = false).
    { rewrite Z.gtb_ltb. apply Z.ltb_ge. unfold STATIONARY_THRESHOLD. lia. }
    rewrite E1. cbn. auto.
Qed.

(** Stationary clock, fast samples.  A sample with a speed of 1 m/s or more
    that reaches [shouldUpdateLocation] once the update interval has passed
    ends the stationary period, however long it lasted:
    [isCurrentlyStationary] is false, [getStationaryDuration] is 0 at any
    later time, and [getOptimizedLocationConfig] is back to the tight
    configuration (5 m, 2 s, 1 s). *)
Theorem moving_sample_ends_stationary_report (location : UserLocation)
  (now now' : Z) (st : t) :
  isMoving location = true ->
  lastLocationUpdate st <> 0 ->
  LOCATION_UPDATE_INTERVAL <= now - lastLocationUpdate st ->
  let st' := snd (shouldUpdateLocation location now now' st) in
  isCurrentlyStationary st' = false /\
  (forall later, getStationaryDuration later st' = 0) /\
  getOptimizedLocationConfig st' = mkLocationConfig 5 2000 1000.
Proof.
  intros Hmove Hlast Hgap. cbv zeta.
  rewrite (ThrottleProps.shouldUpdateLocation_moving _ _ _ _ Hlast Hgap Hmove).
  destruct (ThrottleProps.updateStationaryState_moving location now' st Hmove)
    as (H1 & H2 & H3).
  unfold isCurrentlyStationary, getStationaryDuration, getOptimizedLocationConfig.
  cbn [snd setLastLocationUpdate isStationary]. rewrite H1. auto.
Qed.

Lemma stationary_clock_runs_on_witness :
  isMoving (sampleWithSpeed None (t0 + 1000)) = false /\
  lastLocationUpdate afterFirstSample <> 0 /\
  t0 + 1000 <= t0 + 1000 /\
  forall later,
    getStationaryDuration later
      (snd (shouldUpdateLocation (sampleWithSpeed None (t0 + 1000))
              (t0 + 1000) (t0 + 1000) afterFirstSample))
    = later - (t0 + 1000).
Proof.
  assert (H1 : isMoving (sampleWithSpeed None (t0 + 1000)) = false) by reflexivity.
  assert (H2 : lastLocationUpdate afterFirstSample <> 0)
    by (cbn; unfold t0; lia).
  assert (H3 : t0 + 1000 <= t0 + 1000) by lia.
  split; [exact H1|]. split; [exact H2|]. split; [exact H3|].
  apply (proj2 (stationary_clock_runs_on (sampleWithSpeed None (t0 + 1000))
                  (t0 + 1000) (t0 + 1000) afterFirstSample H1 H2 H3)).
  - reflexivity.
  - cbn. unfold LOCATION_UPDATE_INTERVAL, t0. lia.
Defined.

Lemma moving_sample_ends_stationary_report_witness :
  isMoving (sampleWithSpeed (Some (JS.Fin 5)) (t0 + 3000)) = true /\
  lastLocationUpdate stationarySince <> 0 /\
  LOCATION_UPDATE_INTERVAL <= t0 + 3000 - lastLocationUpdate stationarySince /\
  isCurrentlyStationary
    (snd (shouldUpdateLocation (sampleWithSpeed (Some (JS.Fin 5)) (t0 + 3000))
            (t0 + 3000) (t0 + 3000) stationarySince)) = false.
Proof.
  assert (H1 : isMoving (sampleWithSpeed (Some (JS.Fin 5)) (t0 + 3000)) = true).
  { unfold isMoving, sampleWithSpeed. cbn [speed]. apply le_Fin. lra. }
  assert (H2 : lastLocationUpdate stationarySince <> 0)
    by (cbn; unfold t0; lia).
  assert (H3 : LOCATION_UPDATE_INTERVAL
               <= t0 + 3000 - lastLocationUpdate stationarySince)
    by (cbn; unfold LOCATION_UPDATE_INTERVAL, t0; lia).
  split; [exact H1|]. split; [exact H2|]. split; [exact H3|].
  exact (proj1 (moving_sample_ends_stationary_report
                  (sampleWithSpeed (Some (JS.Fin 5)) (t0 + 3000))
                  (t0 + 3000) (t0 + 3000) stationarySince H1 H2 H3)).
Defined.

End StationaryProps.

(** ** Soundness of the route simplifier; the location history *)

Module CoverProps.
Import SimplifierSpec CoverSpec.
Import MemoryManager.
Import Float64Facts.
Import SimplifierProps.

Lemma Subsequence_refl {A : Type} (l : list A) : Subsequence l l.
Proof. induction l; constructor; auto. Qed.

Lemma Subsequence_nil {A : Type} (l : list A) : Subsequence [] l.
Proof. induction l; constructor; auto. Qed.

Lemma Subsequence_app {A : Type} (r1 l1 r2 l2 : list A) :
  Subsequence r1 l1 -> Subsequence r2 l2 -> Subsequence (r1 ++ r2) (l1 ++ l2).
Proof. induction 1; intros H2; cbn; try constructor; auto. Qed.

Lemma Subsequence_nil_inv {A : Type} (r : list A) : Subsequence r [] -> r = [].
Proof. inversion 1; reflexivity. Qed.

Lemma Subsequence_snoc {A : Type} (l : list A) :
  forall r x y, Subsequence (r ++ [x]) (l ++ [y]) -> Subsequence r l.
Proof.
  induction l as [|a l IH]; intros r x y H; cbn in H.
  - inversion H as [| ? r' ? H' E | ? ? ? H']; subst.
    + apply Subsequence_nil_inv in H'. subst r'.
      destruct r as [|? [|]]; cbn in *; try discriminate. constructor.
    + apply Subsequence_nil_inv in H'. destruct r; discriminate.
  - inversion H as [| ? r' ? H' E | ? ? ? H']; subst.
    + destruct r as [|b r]; cbn in *.
      * apply Subsequence_nil.
      * inversion E; subst. constructor. eapply IH; eauto.
    + constructor. eapply IH; eauto.
Qed.

Lemma removelast_last {A : Type} (l : list A) (d : A) :
  l <> [] -> l = removelast l ++ [List.last l d].
Proof. intros H. now apply app_removelast_last. Qed.

Lemma firstn_S_nth {A : Type} (l : list A) (k : nat) (d : A) :
  (k < length l)%nat -> firstn (S k) l = firstn k l ++ [nth k l d].
Proof.
  revert k; induction l as [|x l IH]; intros [|k] H; cbn in *; try lia; auto.
  f_equal. apply IH. lia.
Qed.

Lemma last_firstn {A : Type} (l : list A) (k : nat) (d : A) :
  (k < length l)%nat -> List.last (firstn (S k) l) d = nth k l d.
Proof.
  intros H. rewrite (firstn_S_nth l k d H). apply last_last.
Qed.

Lemma hd_error_skipn {A : Type} (l : list A) (k : nat) (d : A) :
  (k < length l)%nat -> hd_error (skipn k l) = Some (nth k l d).
Proof.
  revert k; induction l as [|x l IH]; intros [|k] H; cbn in *; try lia; auto.
  apply IH. lia.
Qed.

(** The scan ends on a distance that is a number and that no distance
    computed for a point of [middle] exceeds. *)
Lemma scanMiddle_max (first lst : LatLng) (middle : list LatLng) :
  forall i acc, isNumber (fst acc) ->
  let res := scanMiddle middle i first lst acc in
  isNumber (fst res) /\
  (fst res <? fst acc)%float = false /\
  forall m, In m middle -> (fst res <? pointToLineDistance m first lst)%float = false.
Proof.
  induction middle as [|m middle IH]; intros i acc Hacc; cbn [scanMiddle].
  - cbv zeta. repeat split; auto using ltb_irrefl. intros m [].
  - cbv zeta. set (dist := pointToLineDistance m first lst).
    destruct (fst acc <? dist)%float eqn:Hlt.
    + destruct (IH (S i) (dist, (i + 1)%nat) (ltb_number_r _ _ Hlt)) as (Hn & Hm & Hall).
      cbn [fst] in *. split; [exact Hn|]. split.
      * apply (ltb_nlt_trans _ dist); auto using ltb_asym. eapply ltb_number_r; eauto.
      * intros m' [<- | Hin]; [exact Hm | now apply Hall].
    + destruct (IH (S i) acc Hacc) as (Hn & Hm & Hall).
      split; [exact Hn|]. split; [exact Hm|].
      intros m' [<- | Hin]; [|now apply Hall].
      apply (ltb_nlt_trans _ (fst acc)); auto.
Qed.

Lemma douglasPeucker_simplifies (tolerance : float) (fuel : nat)
  (points r : list LatLng) :
  (tolerance <? 0)%float = false ->
  endsWithin tolerance points = true ->
  douglasPeucker fuel points tolerance = Some r -> simplifies points r.
Proof.
  intros Htol Hends H.
  destruct (douglasPeucker_returns tolerance Htol
              (S (Nat.max fuel (length points))) points Hends)
    as (r' & Hr' & Hs); [lia|].
  rewrite (douglasPeucker_fuel_mono tolerance fuel _ points r) in Hr' by (lia || assumption).
  inversion Hr'; subst. exact Hs.
Qed.

Lemma consecutive_app_l {A : Type} (a b : A) (l r : list A) :
  consecutive a b l -> consecutive a b (l ++ r).
Proof.
  intros (pre & post & ->). exists pre, (post ++ r).
  rewrite <- app_assoc. reflexivity.
Qed.

Lemma consecutive_app_r {A : Type} (a b : A) (l r : list A) :
  consecutive a b r -> consecutive a b (l ++ r).
Proof.
  intros (pre & post & ->). exists (l ++ pre), post.
  rewrite <- app_assoc. reflexivity.
Qed.

(** The pairs of [l] are pairs of [removelast l ++ r] when [r] starts with
    the last element of [l]. *)
Lemma consecutive_join {A : Type} (a b x : A) (l r : list A) :
  List.last l x = x -> l <> [] ->
  consecutive a b l -> consecutive a b (removelast l ++ x :: r).
Proof.
  intros Hlast Hne Hc.
  rewrite (app_removelast_last x Hne) in Hc. rewrite Hlast in Hc.
  replace (removelast l ++ x :: r) with ((removelast l ++ [x]) ++ r)
    by (rewrite <- app_assoc; reflexivity).
  now apply consecutive_app_l.
Qed.

Lemma In_firstn_or_skipn {A : Type} (p : A) (l : list A) (k : nat) :
  In p l -> In p (firstn k l) \/ In p (skipn k l).
Proof.
  intros H. rewrite <- (firstn_skipn k l) in H. apply in_app_or in H. exact H.
Qed.

Lemma Subsequence_firstn_skipn {A : Type} (l r1 r2 : list A) (k : nat) :
  Subsequence r1 (firstn k l) -> Subsequence r2 (skipn k l) ->
  Subsequence (r1 ++ r2) l.
Proof.
  intros H1 H2. rewrite <- (firstn_skipn k l). now apply Subsequence_app.
Qed.

(** What [douglasPeucker] returns, under the two conditions on the
    tolerance. *)
Lemma douglasPeucker_sound (tolerance : float) :
  (tolerance <? 0)%float = false ->
  forall fuel points r,
  endsWithin tolerance points = true ->
  douglasPeucker fuel points tolerance = Some r ->
  Subsequence r points /\ coveredBy tolerance points r.
Proof.
  intros Htol. induction fuel as [|fuel IH]; intros points r Hends H; [discriminate|].
  cbn [douglasPeucker] in H.
  destruct (length points <=? 2)%nat eqn:E2.
  { inversion H; subst. split; [apply Subsequence_refl|]. intros p Hp; auto. }
  apply Nat.leb_gt in E2.
  destruct points as [|first middle]; [cbn in E2; lia|].
  destruct (exists_last (l := middle)) as (pre & lst & ->).
  { intros ->. cbn in E2. lia. }
  assert (Hlast : forall d, List.last (first :: pre ++ [lst]) d = lst).
  { intros d. change (first :: pre ++ [lst]) with ((first :: pre) ++ [lst]).
    apply last_last. }
  rewrite Hlast in H.
  assert (Hn : length (first :: pre ++ [lst]) = (length pre + 2)%nat).
  { cbn [length]. rewrite length_app. cbn. lia. }
  pose proof (scanMiddle_max first lst (pre ++ [lst]) 0 (0%float, 0%nat)) as Hmax.
  cbv zeta in Hmax.
  destruct (scanMiddle (pre ++ [lst]) 0 first lst (0%float, 0%nat))
    as [maxDistance maxIndex] eqn:Es.
  cbn [fst snd] in Hmax.
  destruct Hmax as (Hnn & _ & Hall); [reflexivity|].
  destruct (tolerance <? maxDistance)%float eqn:G.
  - pose proof (split_inside _ _ _ _ _ _ Htol Hends Es G) as Hidx.
    set (points := first :: pre ++ [lst]) in *.
    assert (Hel : endsWithin tolerance (firstn (maxIndex + 1) points) = true).
    { apply (endsWithin_sub _ points); [|exact Hends]. intros p. apply In_firstn. }
    assert (Her : endsWithin tolerance (skipn maxIndex points) = true).
    { apply (endsWithin_sub _ points); [|exact Hends]. intros p. apply In_skipn. }
    destruct (douglasPeucker fuel (firstn (maxIndex + 1) points) tolerance)
      as [l|] eqn:El; [|discriminate].
    destruct (douglasPeucker fuel (skipn maxIndex points) tolerance)
      as [rr|] eqn:Er; [|discriminate].
    inversion H; subst r. clear H.
    destruct (IH _ _ Hel El) as (Hsl & Hcl). destruct (IH _ _ Her Er) as (Hsr & Hcr).
    destruct (douglasPeucker_simplifies _ _ _ _ Htol Hel El)
      as (Hl1 & Hl2 & Hl3 & Hl4 & Hl5).
    destruct (douglasPeucker_simplifies _ _ _ _ Htol Her Er)
      as (Hr1 & Hr2 & Hr3 & Hr4 & Hr5).
    rewrite length_firstn in Hl3, Hl4. rewrite length_skipn in Hr3, Hr4.
    assert (Hrlen : (2 <= length rr)%nat) by (apply Hr4; lia).
    assert (Hllen : (2 <= length l)%nat) by (apply Hl4; lia).
    assert (Hlne : l <> []) by (intros ->; cbn in Hllen; lia).
    replace (maxIndex + 1)%nat with (S maxIndex) in * by lia.
    assert (Hk : (maxIndex < length points)%nat) by lia.
    set (pivot := nth maxIndex points first).
    assert (Hlastl : List.last l pivot = pivot).
    { rewrite Hl2, (last_firstn points maxIndex pivot Hk).
      unfold pivot. apply nth_indep. exact Hk. }
    assert (Hhdr : exists rest, rr = pivot :: rest).
    { rewrite (hd_error_skipn points maxIndex first Hk) in Hr1.
      destruct rr as [|x rest]; [discriminate|]. inversion Hr1. eauto. }
    destruct Hhdr as (rest & ->).
    split.
    + apply (Subsequence_firstn_skipn points _ _ maxIndex); [|exact Hsr].
      rewrite (firstn_S_nth points maxIndex first Hk) in Hsl.
      rewrite (app_removelast_last pivot Hlne) in Hsl.
      eapply Subsequence_snoc; eauto.
    + intros p Hp.
      destruct (In_firstn_or_skipn p points (S maxIndex) Hp) as [Hin | Hin].
      * destruct (Hcl p Hin) as [Hpl | (a & b & Hc & Hd)].
        -- left. rewrite (app_removelast_last pivot Hlne) in Hpl. rewrite Hlastl in Hpl.
           apply in_app_or in Hpl. apply in_or_app.
           destruct Hpl as [? | [<- | []]]; [left; assumption | right; left; reflexivity].
        -- right. exists a, b. split; [|exact Hd].
           apply consecutive_join; assumption.
      * assert (Hin' : In p (skipn maxIndex points)).
        { rewrite <- (firstn_skipn 1 (skipn maxIndex points)).
          apply in_or_app. right. rewrite skipn_skipn.
          replace (1 + maxIndex)%nat with (S maxIndex) by lia. exact Hin. }
        destruct (Hcr p Hin') as [Hpr | (a & b & Hc & Hd)].
        -- left. apply in_or_app. right. exact Hpr.
        -- right. exists a, b. split; [|exact Hd]. now apply consecutive_app_r.
  - inversion H; subst r. split.
    + constructor. change [lst] with ([] ++ [lst]).
      apply Subsequence_app; [apply Subsequence_nil | apply Subsequence_refl].
    + intros p [<- | Hp]; [left; left; reflexivity|].
      right. exists first, lst. split; [exists [], []; reflexivity|].
      apply (ltb_nlt_trans _ maxDistance); auto.
Qed.

(** [douglasPeucker], soundness.  For a tolerance that is not negative and
    that no computed end-point distance exceeds, the simplifier returns,
    on a call stack that admits a recursion as deep as the list is long, a
    line made of points of the input in their order, and every point of
    the input is kept or lies, as [pointToLineDistance] computes it, within
    the tolerance of a segment joining two consecutive points of the
    result. *)
Theorem douglasPeucker_within_tolerance (points : list LatLng)
  (tolerance : float) :
  (tolerance <? 0)%float = false ->
  endsWithin tolerance points = true ->
  exists r,
    (forall fuel, (length points < fuel)%nat ->
                  douglasPeucker fuel points tolerance = Some r) /\
    Subsequence r points /\
    coveredBy tolerance points r.
Proof.
  intros Htol Hends.
  destruct (douglasPeucker_returns tolerance Htol (S (length points)) points Hends)
    as (r & Hr & _); [lia|].
  exists r. split.
  - intros fuel Hf. apply (douglasPeucker_fuel_mono tolerance (S (length points)));
      [lia | exact Hr].
  - exact (douglasPeucker_sound tolerance Htol _ _ _ Hends Hr).
Qed.

Lemma douglasPeucker_within_tolerance_witness :
  (0x1.a36e2eb1c432dp-14 <? 0)%float = false /\
  endsWithin 0x1.a36e2eb1c432dp-14%float shortRoute = true /\
  exists r,
    (forall fuel, (length shortRoute < fuel)%nat ->
                  douglasPeucker fuel shortRoute 0x1.a36e2eb1c432dp-14%float = Some r) /\
    Subsequence r shortRoute /\
    coveredBy 0x1.a36e2eb1c432dp-14%float shortRoute r.
Proof.
  assert (H1 : (0x1.a36e2eb1c432dp-14 <? 0)%float = false) by reflexivity.
  assert (H2 : endsWithin 0x1.a36e2eb1c432dp-14%float shortRoute = true)
    by (vm_compute; reflexivity).
  split; [exact H1|]. split; [exact H2|].
  exact (douglasPeucker_within_tolerance shortRoute 0x1.a36e2eb1c432dp-14%float H1 H2).
Defined.



(** [manageLocationHistory] keeps the most recent locations: the result
    has [MAX_LOCATION_HISTORY] (100) entries, or all of them when there are
    fewer, and it is the end of the history, the oldest entries being the
    ones dropped. *)
Theorem manageLocationHistory_keeps_latest (history : list UserLocation) :
  length (manageLocationHistory history)
    = Nat.min (length history) MAX_LOCATION_HISTORY /\
  exists dropped, history = dropped ++ manageLocationHistory history.
Proof.
  unfold manageLocationHistory.
  destruct (length history <=? MAX_LOCATION_HISTORY)%nat eqn:E.
  - apply Nat.leb_le in E. split; [lia|]. exists []. reflexivity.
  - apply Nat.leb_gt in E. unfold JS.sliceFrom, JS.slice, MAX_LOCATION_HISTORY in *.
    assert (E1 : (- Z.of_nat 100 <? 0)%Z = true) by reflexivity.
    rewrite E1.
    assert (E2 : (Z.of_nat (length history) <? 0)%Z = false)
      by (apply Z.ltb_ge; lia).
    rewrite E2.
    replace (Z.max (Z.of_nat (length history) + - Z.of_nat 100) 0)
      with (Z.of_nat (length history - 100)) by lia.
    rewrite Z.min_id, Nat2Z.id.
    replace (Z.to_nat (Z.of_nat (length history) - Z.of_nat (length history - 100)))
      with 100%nat by lia.
    rewrite firstn_all2 by (rewrite length_skipn; lia).
    split.
    + rewrite length_skipn. lia.
    + exists (firstn (length history - 100) history).
      symmetry. apply firstn_skipn.
Qed.

End CoverProps.

(** ** [debounce] *)

Module DebounceProps.
Import PerformanceOptimizer DebounceSpec.
Local Open Scope Z_scope.

(** With no timer pending, turns of the event loop call nothing. *)
Lemma runDebounce_turns_idle {A : Type} (delay : Z) (times : list Z) :
  runDebounce (A := A) delay (map Turn times) None = ([], None).
Proof.
  induction times as [|t times IH]; cbn [map runDebounce runTimers]; [reflexivity|].
  rewrite IH. reflexivity.
Qed.

(** With a timer pending, turns of the event loop call [func] once, at the
    first turn at which the timer is due. *)
Lemma runDebounce_turns {A : Type} (delay due : Z) (a : A) (times : list Z) :
  fst (runDebounce delay (map Turn times) (Some (due, a))) =
  if existsb (fun t => due <=? t) times then [a] else [].
Proof.
  induction times as [|t times IH]; cbn [map runDebounce runTimers existsb];
    [reflexivity|].
  destruct (due <=? t) eqn:E; cbn [orb].
  - rewrite runDebounce_turns_idle. reflexivity.
  - destruct (runDebounce delay (map Turn times) (Some (due, a))) as [calls final].
    exact IH.
Qed.

(** [debounce].  As long as every turn of the event loop comes before the
    timer of the latest call is due, [func] is not called at all, however
    many calls are made.  After a call, whatever was pending before it,
    [func] is called at most once, with the arguments of that call, at the
    first turn that comes [delay] or more after it: the pending call is
    replaced, not added to. *)
Theorem debounce_last_call_wins {A : Type} (delay : Z)
  (events : list (DebounceEvent A)) (timeoutId : option (Z * A))
  (now : Z) (args : A) (times : list Z) :
  (busy delay (option_map fst timeoutId) events ->
   fst (runDebounce delay events timeoutId) = []) /\
  fst (runDebounce delay (Call now args :: map Turn times) timeoutId) =
    if existsb (fun t => now + delay <=? t) times then [args] else [].
Proof.
  split.
  - revert timeoutId. induction events as [|[c a|t] events IH]; intros timeoutId H;
      cbn [runDebounce busy] in *.
    + reflexivity.
    + apply IH. exact H.
    + destruct H as (Ht & H). unfold runTimers.
      destruct timeoutId as [[due a]|]; cbn [option_map fst] in *.
      * destruct (due <=? t) eqn:E; [apply Z.leb_le in E; lia|].
        specialize (IH (Some (due, a)) H).
        destruct (runDebounce delay events (Some (due, a))). exact IH.
      * specialize (IH None H). destruct (runDebounce delay events None). exact IH.
  - cbn [runDebounce]. unfold debounce. apply runDebounce_turns.
Qed.

End DebounceProps.

(** ** The range of the heading *)

Module HeadingProps.
Import SimplifierSpec SmootherSpec HeadingSpec.
Import OrientationService.
Import JSFacts.
Import SmootherProps.
Local Open Scope R_scope.

(** The smoothed heading of two real headings is a real in [[0, 360)]. *)
Lemma applySmoothingToHeading_real (f c n : R) :
  exists x h fuel0,
    x = c + (if JS.Rltb 180 (n + - c) then n + - c + - (360)
             else if JS.Rltb (n + - c) (-180) then n + - c + 360
             else n + - c) * (1 + - f) /\
    normalized x h /\
    forall fuel, (fuel0 <= fuel)%nat ->
      applySmoothingToHeading fuel (JS.Fin f) (JS.Fin c) (JS.Fin n) = Some (JS.Fin h).
Proof.
  unfold applySmoothingToHeading.
  cbn [JS.sub JS.neg JS.add JS.gt JS.lt JS.one].
  set (d := if JS.Rltb 180 (n + - c) then n + - c + - (360)
            else if JS.Rltb (n + - c) (-180) then n + - c + 360
            else n + - c).
  assert (E : (if JS.Rltb 180 (n + - c) then JS.Fin (n + - c + - (360))
               else if JS.Rltb (n + - c) (-180) then JS.Fin (n + - c + 360)
               else JS.Fin (n + - c)) = JS.Fin d).
  { unfold d. destruct (JS.Rltb 180 (n + - c)); [reflexivity|].
    destruct (JS.Rltb (n + - c) (-180)); reflexivity. }
  rewrite E. cbn [JS.mul JS.add].
  destruct (normalizeHeading_real (c + d * (1 + - f))) as (h & fuel0 & Hn & Hf).
  exists (c + d * (1 + - f)), h, fuel0. auto.
Qed.

(** A heading update with a real raw heading and a real smoothing factor,
    on a well-formed state: it returns, with a heading in [[0, 360)], which
    on the first update is the raw heading reduced into that range. *)
Lemma handleOrientationChange_real (st : t) (orientation : OrientationEvent)
  (now : Z) (r f : R) :
  extractHeading orientation = JS.Fin r ->
  smoothingFactor st = JS.Fin f ->
  wellFormed st ->
  exists h fuel0,
    0 <= h < 360 /\
    (lastOrientation st = None -> normalized r h) /\
    forall fuel, (fuel0 <= fuel)%nat ->
      handleOrientationChange fuel orientation now st =
        Some ({| heading := JS.Fin h;
                 accuracy := extractAccuracy orientation;
                 timestamp := now |},
              {| lastOrientation :=
                   Some {| heading := JS.Fin h;
                           accuracy := extractAccuracy orientation;
                           timestamp := now |};
                 smoothingFactor := JS.Fin f |}).
Proof.
  intros Hraw Hf Hwf.
  destruct (normalizeHeading_real r) as (n & fuel1 & Hnorm & Hf1).
  unfold handleOrientationChange. rewrite Hraw.
  destruct (lastOrientation st) as [last|] eqn:Hlast.
  - unfold wellFormed in Hwf. rewrite Hlast in Hwf.
    destruct Hwf as (c & Hc & Hcr).
    destruct (applySmoothingToHeading_real f c n) as (x & h & fuel2 & _ & (Hh & _) & Hf2).
    exists h, (Nat.max fuel1 fuel2). split; [exact Hh|]. split; [discriminate|].
    intros fuel Hfuel. rewrite Hf1 by lia. rewrite Hf, Hc, Hf2 by lia. reflexivity.
  - exists n, fuel1. split; [apply Hnorm|]. split; [intros _; exact Hnorm|].
    intros fuel Hfuel. rewrite Hf1 by lia. rewrite Hf. reflexivity.
Qed.

(** With a smoothing factor in [[0, 1]] and two headings in [[0, 360)] the
    smoothed heading, before it is normalised, lies in [[-180, 540]]: three
    tests of each loop condition normalise it. *)
Lemma applySmoothingToHeading_bounded (f c n : R) :
  0 <= f <= 1 -> 0 <= c < 360 -> 0 <= n < 360 ->
  exists x h,
    x = c + (if JS.Rltb 180 (n + - c) then n + - c + - (360)
             else if JS.Rltb (n + - c) (-180) then n + - c + 360
             else n + - c) * (1 + - f) /\
    normalized x h /\
    forall fuel, (3 <= fuel)%nat ->
      applySmoothingToHeading fuel (JS.Fin f) (JS.Fin c) (JS.Fin n) = Some (JS.Fin h).
Proof.
  intros Hf Hc Hn. unfold applySmoothingToHeading.
  cbn [JS.sub JS.neg JS.add JS.gt JS.lt JS.one].
  set (d := if JS.Rltb 180 (n + - c) then n + - c + - (360)
            else if JS.Rltb (n + - c) (-180) then n + - c + 360
            else n + - c).
  assert (E : (if JS.Rltb 180 (n + - c) then JS.Fin (n + - c + - (360))
               else if JS.Rltb (n + - c) (-180) then JS.Fin (n + - c + 360)
               else JS.Fin (n + - c)) = JS.Fin d).
  { unfold d. destruct (JS.Rltb 180 (n + - c)); [reflexivity|].
    destruct (JS.Rltb (n + - c) (-180)); reflexivity. }
  assert (Hd : -180 <= d <= 180).
  { unfold d. destruct (JS.Rltb 180 (n + - c)) eqn:E1.
    - apply Rltb_true in E1. lra.
    - apply Rltb_false in E1. destruct (JS.Rltb (n + - c) (-180)) eqn:E2.
      + apply Rltb_true in E2. lra.
      + apply Rltb_false in E2. lra. }
  rewrite E. cbn [JS.mul JS.add].
  assert (Hx : -360 <= c + d * (1 + - f) <= 720) by nra.
  destruct (normalizeHeading_bounded (c + d * (1 + - f)) Hx) as (h & Hnorm & Hfuel).
  exists (c + d * (1 + - f)), h. auto.
Qed.

(** A heading update whose raw heading is within one turn of [[0, 360)],
    with a smoothing factor in [[0, 1]], on a well-formed state: it returns
    within three tests of each loop condition, with a heading in
    [[0, 360)]. *)
Lemma handleOrientationChange_bounded (st : t) (orientation : OrientationEvent)
  (now : Z) (r f : R) :
  extractHeading orientation = JS.Fin r -> -360 <= r <= 720 ->
  smoothingFactor st = JS.Fin f -> 0 <= f <= 1 ->
  wellFormed st ->
  exists h,
    0 <= h < 360 /\
    forall fuel, (3 <= fuel)%nat ->
      handleOrientationChange fuel orientation now st =
        Some ({| heading := JS.Fin h;
                 accuracy := extractAccuracy orientation;
                 timestamp := now |},
              {| lastOrientation :=
                   Some {| heading := JS.Fin h;
                           accuracy := extractAccuracy orientation;
                           timestamp := now |};
                 smoothingFactor := JS.Fin f |}).
Proof.
  intros Hraw Hr Hf Hfr Hwf.
  destruct (normalizeHeading_bounded r Hr) as (n & Hnorm & Hf1).
  unfold handleOrientationChange. rewrite Hraw.
  destruct (lastOrientation st) as [last|] eqn:Hlast.
  - unfold wellFormed in Hwf. rewrite Hlast in Hwf.
    destruct Hwf as (c & Hc & Hcr).
    destruct (applySmoothingToHeading_bounded f c n Hfr Hcr (proj1 Hnorm))
      as (x & h & _ & (Hh & _) & Hf2).
    exists h. split; [exact Hh|].
    intros fuel Hfuel. rewrite Hf1 by lia. rewrite Hf, Hc, Hf2 by lia. reflexivity.
  - exists n. split; [apply Hnorm|].
    intros fuel Hfuel. rewrite Hf1 by lia. rewrite Hf. reflexivity.
Qed.

(** [handleOrientationChange], range of the heading.  When the raw
    heading of the event is a number from -360 to 720, the smoothing factor
    is in [[0, 1]] and the last heading, if any, is in [[0, 360)], the call
    returns within three tests of each loop condition, the heading it
    notifies is in [[0, 360)], it becomes the last known orientation, and
    the smoothing factor is unchanged: the invariant on the last heading is
    kept. *)
Theorem heading_stays_in_range (st : t) (orientation : OrientationEvent)
  (now : Z) (r f : R) :
  extractHeading orientation = JS.Fin r -> -360 <= r <= 720 ->
  smoothingFactor st = JS.Fin f -> 0 <= f <= 1 ->
  wellFormed st ->
  exists h,
    0 <= h < 360 /\
    forall fuel, (3 <= fuel)%nat ->
    exists data st',
      handleOrientationChange fuel orientation now st = Some (data, st') /\
      heading data = JS.Fin h /\
      getLastKnownOrientation st' = Some data /\
      getSmoothingFactor st' = JS.Fin f /\
      wellFormed st'.
Proof.
  intros Hraw Hr Hf Hfr Hwf.
  destruct (handleOrientationChange_bounded st orientation now r f Hraw Hr Hf Hfr Hwf)
    as (h & Hh & H).
  exists h. split; [exact Hh|]. intros fuel Hfuel.
  rewrite (H fuel Hfuel). do 2 eexists. split; [reflexivity|].
  unfold wellFormed, getLastKnownOrientation, getSmoothingFactor.
  cbn [lastOrientation heading smoothingFactor]. repeat split; eauto.
Qed.

Lemma heading_stays_in_range_witness :
  extractHeading eastEvent = JS.Fin 90 /\
  -360 <= 90 <= 720 /\
  smoothingFactor fullySmoothed = JS.Fin 1 /\
  0 <= 1 <= 1 /\
  wellFormed fullySmoothed /\
  exists h,
    0 <= h < 360 /\
    forall fuel, (3 <= fuel)%nat ->
    exists data st',
      handleOrientationChange fuel eastEvent 1700000000100 fullySmoothed
        = Some (data, st') /\
      heading data = JS.Fin h /\
      getLastKnownOrientation st' = Some data /\
      getSmoothingFactor st' = JS.Fin 1 /\
      wellFormed st'.
Proof.
  assert (Hr : -360 <= 90 <= 720) by lra.
  assert (Hf : 0 <= 1 <= 1) by lra.
  assert (Hwf : wellFormed fullySmoothed).
  { exists 10. split; [reflexivity|]. lra. }
  split; [reflexivity|]. split; [exact Hr|]. split; [reflexivity|].
  split; [exact Hf|]. split; [exact Hwf|].
  exact (heading_stays_in_range fullySmoothed eastEvent 1700000000100 90 1
           eq_refl Hr eq_refl Hf Hwf).
Defined.

(** The normalisation loops make no progress on an infinite heading. *)
Lemma whileTooLarge_PInf (fuel : nat) : whileTooLarge fuel JS.PInf = None.
Proof. induction fuel as [|fuel IH]; [reflexivity|]. cbn. exact IH. Qed.

Lemma whileNegative_NInf (fuel : nat) : whileNegative fuel JS.NInf = None.
Proof. induction fuel as [|fuel IH]; [reflexivity|]. cbn. exact IH. Qed.

(** Infinite headings.  [normalizeHeading] does not return on
    [Infinity] or on [-Infinity] (subtracting or adding 360 leaves them
    unchanged), and neither does [handleOrientationChange] on an event
    whose heading is one of them, whatever the state. *)
Theorem infinite_heading_never_returns (now : Z) (st : t) :
  neverReturns (fun fuel => handleOrientationChange fuel (NumberEvent JS.PInf) now st) /\
  neverReturns (fun fuel => handleOrientationChange fuel (NumberEvent JS.NInf) now st) /\
  neverReturns (fun fuel => normalizeHeading fuel JS.PInf) /\
  neverReturns (fun fuel => normalizeHeading fuel JS.NInf).
Proof.
  assert (HP : forall fuel, normalizeHeading fuel JS.PInf = None).
  { intros [|fuel]; [reflexivity|]. unfold normalizeHeading.
    cbn [whileNegative JS.lt JS.zero]. apply whileTooLarge_PInf. }
  assert (HN : forall fuel, normalizeHeading fuel JS.NInf = None).
  { intros fuel. unfold normalizeHeading. now rewrite whileNegative_NInf. }
  unfold neverReturns, handleOrientationChange. cbn [extractHeading].
  repeat split; intros fuel; rewrite ?HP, ?HN; reflexivity.
Qed.

(** Smoothing factor 1.  With the smoothing factor at 1 and a last heading
    in [[0, 360)], [handleOrientationChange] notifies the last heading
    again whatever heading from -360 to 720 the event carries, within three
    tests of each loop condition: the reported heading no longer follows
    the sensor. *)
Theorem full_smoothing_freezes_heading (st : t) (orientation : OrientationEvent)
  (now : Z) (r c : R) (last : OrientationData) :
  extractHeading orientation = JS.Fin r -> -360 <= r <= 720 ->
  smoothingFactor st = JS.one ->
  lastOrientation st = Some last ->
  heading last = JS.Fin c -> 0 <= c < 360 ->
  forall fuel, (3 <= fuel)%nat ->
    exists data st',
      handleOrientationChange fuel orientation now st = Some (data, st') /\
      heading data = heading last /\
      lastOrientation st' = Some data /\
      smoothingFactor st' = JS.one.
Proof.
  intros Hraw Hr Hf Hlast Hc Hcr fuel Hfuel.
  destruct (normalizeHeading_bounded r Hr) as (n & Hnorm & Hf1).
  assert (H01 : 0 <= 1 <= 1) by lra.
  destruct (applySmoothingToHeading_bounded 1 c n H01 Hcr (proj1 Hnorm))
    as (x & h & Hx & Hn & Hf2).
  assert (Hxc : x = c) by (rewrite Hx; ring). clear Hx. subst x.
  assert (h = c)
    by (apply (normalized_unique c); [exact Hn | apply normalized_self; exact Hcr]).
  subst h.
  unfold handleOrientationChange. rewrite Hraw, Hf1, Hlast, Hf, Hc by lia.
  unfold JS.one. rewrite Hf2 by lia.
  do 2 eexists. split; [reflexivity|]. cbn [heading lastOrientation smoothingFactor].
  auto.
Qed.

Lemma full_smoothing_freezes_heading_witness :
  exists data st',
    handleOrientationChange 3 eastEvent 1700000000100 fullySmoothed
      = Some (data, st') /\
    heading data = JS.Fin 10 /\
    lastOrientation st' = Some data /\
    smoothingFactor st' = JS.one.
Proof.
  assert (Hr : -360 <= 90 <= 720) by lra.
  assert (Hc : 0 <= 10 < 360) by lra.
  exact (full_smoothing_freezes_heading fullySmoothed eastEvent 1700000000100 90 10
           {| heading := JS.Fin 10; accuracy := JS.Fin 1;
              timestamp := 1700000000000 |}
           eq_refl Hr eq_refl eq_refl eq_refl Hc 3%nat (le_n 3)).
Defined.

(** [setSmoothingFactor] clamps the factor into [[0, 1]]: a real factor in
    the interval is stored as it is, a smaller one (or [-Infinity]) as 0, a
    larger one (or [Infinity]) as 1; only a factor that is not a number is
    stored as such.  The last orientation is untouched. *)
Theorem setSmoothingFactor_clamps (factor : JS.number) (st : t) :
  let st' := setSmoothingFactor factor st in
  lastOrientation st' = lastOrientation st /\
  (factor <> JS.NaN ->
   exists f, getSmoothingFactor st' = JS.Fin f /\ 0 <= f <= 1) /\
  (forall x, factor = JS.Fin x -> 0 <= x <= 1 -> getSmoothingFactor st' = factor) /\
  (forall x, factor = JS.Fin x -> x < 0 -> getSmoothingFactor st' = JS.Fin 0) /\
  (forall x, factor = JS.Fin x -> 1 < x -> getSmoothingFactor st' = JS.Fin 1) /\
  (factor = JS.NaN -> getSmoothingFactor st' = JS.NaN).
Proof.
  cbv zeta. unfold setSmoothingFactor, getSmoothingFactor. cbn [lastOrientation smoothingFactor].
  assert (H01 : JS.lt JS.zero JS.one = true) by (apply Rltb_true; lra).
  assert (Hfin : forall x, JS.max JS.zero (JS.min JS.one (JS.Fin x)) =
                           JS.Fin (if Rlt_dec x 0 then 0 else if Rlt_dec 1 x then 1 else x)).
  { intros x. unfold JS.min, JS.one. cbn [JS.lt].
    destruct (JS.Rltb x 1) eqn:E1; unfold JS.max, JS.zero; cbn [JS.lt].
    - apply Rltb_true in E1. destruct (JS.Rltb 0 x) eqn:E0.
      + apply Rltb_true in E0. destruct (Rlt_dec x 0); [lra|].
        destruct (Rlt_dec 1 x); [lra|reflexivity].
      + apply Rltb_false in E0. destruct (Rlt_dec x 0); [reflexivity|].
        destruct (Rlt_dec 1 x); [lra|]. f_equal. lra.
    - apply Rltb_false in E1.
      assert (E : JS.Rltb 0 1 = true) by (apply Rltb_true; lra). rewrite E.
      destruct (Rlt_dec x 0); [lra|].
      destruct (Rlt_dec 1 x); [reflexivity|]. f_equal. lra. }
  split; [reflexivity|]. split; [|split; [|split; [|split]]].
  - intros Hn. destruct factor as [| | |x]; [congruence| | |].
    + exists 1. split; [|lra]. unfold JS.min, JS.max, JS.one, JS.zero. cbn [JS.lt].
      assert (E : JS.Rltb 0 1 = true) by (apply Rltb_true; lra). now rewrite E.
    + exists 0. split; [|lra]. unfold JS.min, JS.max, JS.one, JS.zero. cbn [JS.lt].
      reflexivity.
    + rewrite Hfin. eexists; split; [reflexivity|].
      destruct (Rlt_dec x 0); [lra|]. destruct (Rlt_dec 1 x); lra.
  - intros x -> Hx. rewrite Hfin. f_equal.
    destruct (Rlt_dec x 0); [lra|]. destruct (Rlt_dec 1 x); lra.
  - intros x -> Hx. rewrite Hfin. f_equal. destruct (Rlt_dec x 0); lra.
  - intros x -> Hx. rewrite Hfin. f_equal.
    destruct (Rlt_dec x 0); [lra|]. destruct (Rlt_dec 1 x); lra.
  - intros ->. reflexivity.
Qed.

End HeadingProps.

(** ** Magnetometer, device orientation and GPS bearings *)

Module BearingProps.
Import RoutingSpec SmootherSpec HeadingSpec.
Import OrientationService.
Import JSFacts.
Import SmootherProps HeadingProps.
Local Open Scope R_scope.

Lemma atan_pos (x : R) : 0 < x -> 0 < atan x.
Proof. intros H. rewrite <- atan_0. now apply atan_increasing. Qed.

Lemma atan_neg (x : R) : x < 0 -> atan x < 0.
Proof. intros H. rewrite <- atan_0. now apply atan_increasing. Qed.

Lemma Ratan2_range (y x : R) : - PI < JS.Ratan2 y x <= PI.
Proof.
  pose proof PI_RGT_0 as Hpi. unfold JS.Ratan2.
  pose proof (atan_bound (y / x)) as Hb.
  destruct (JS.Rltb 0 x) eqn:E1; [lra|].
  destruct (JS.Rltb x 0) eqn:E2.
  - apply Rltb_true in E2. destruct (JS.Rltb y 0) eqn:E3.
    + apply Rltb_true in E3.
      assert (0 < y / x).
      { unfold Rdiv. pose proof (Rinv_lt_0_compat x E2). nra. }
      pose proof (atan_pos _ H). lra.
    + apply Rltb_false in E3.
      assert (y / x <= 0).
      { unfold Rdiv. pose proof (Rinv_lt_0_compat x E2). nra. }
      destruct (Req_dec_T (y / x) 0) as [Hz | Hz].
      * rewrite Hz, atan_0. lra.
      * assert (y / x < 0) by lra. pose proof (atan_neg _ H0). lra.
  - destruct (JS.Rltb 0 y); [lra|]. destruct (JS.Rltb y 0); lra.
Qed.

Lemma atan2_range (y x : JS.number) :
  y <> JS.NaN -> x <> JS.NaN ->
  exists a, JS.atan2 y x = JS.Fin a /\ - PI <= a <= PI.
Proof.
  pose proof PI_RGT_0 as Hpi.
  destruct y as [| | |a], x as [| | |b]; intros Hy Hx; try congruence; cbn [JS.atan2];
    try (eexists; split; [reflexivity|]; lra).
  - destruct (JS.Rltb a 0); eexists; (split; [reflexivity|]); lra.
  - pose proof (Ratan2_range a b). eexists; split; [reflexivity|]. lra.
Qed.

(** [calculateHeadingFromMagnetometer] and the heading update made from
    it.  For every reading whose x and y components are numbers (infinite
    ones included) the heading computed from the reading is a number from
    0 to 360, both included (a small negative angle plus 360 may round to
    360), and [handleOrientationChange], on an event that carries the
    reading and no heading, with a smoothing factor in [[0, 1]] and a last
    heading, if any, in [[0, 360)], returns within three tests of each loop
    condition and notifies a heading in [[0, 360)], which becomes the last
    known orientation. *)
Theorem magnetometer_heading_in_range (magnetometer : Magnetometer)
  (accuracy_field : option JS.number) (now : Z) (st : t) (f : R) :
  mag_x magnetometer <> JS.NaN -> mag_y magnetometer <> JS.NaN ->
  smoothingFactor st = JS.Fin f -> 0 <= f <= 1 ->
  wellFormed st ->
  exists raw h,
    calculateHeadingFromMagnetometer magnetometer = JS.Fin raw /\
    0 <= raw <= 360 /\
    0 <= h < 360 /\
    forall fuel, (3 <= fuel)%nat ->
    exists data st',
      handleOrientationChange fuel (ObjectEvent None (Some magnetometer) accuracy_field)
        now st = Some (data, st') /\
      heading data = JS.Fin h /\
      getLastKnownOrientation st' = Some data.
Proof.
  intros Hx Hy Hf Hfr Hwf. pose proof PI_RGT_0 as Hpi.
  destruct (atan2_range _ _ Hy Hx) as (a & Ea & Ha).
  assert (Hh : exists raw, calculateHeadingFromMagnetometer magnetometer = JS.Fin raw /\
                           0 <= raw <= 360).
  { unfold calculateHeadingFromMagnetometer. rewrite Ea.
    unfold JS.PI. rewrite div_Fin by lra. cbn [JS.mul JS.lt JS.zero].
    assert (Hs : -180 <= a * (180 / PI) <= 180).
    { replace (a * (180 / PI)) with (180 * (a / PI)) by (field; lra).
      assert (-1 <= a / PI <= 1).
      { split.
        - apply Rmult_le_reg_r with PI; [lra|]. unfold Rdiv.
          rewrite Rmult_assoc, Rinv_l by lra. lra.
        - apply Rmult_le_reg_r with PI; [lra|]. unfold Rdiv.
          rewrite Rmult_assoc, Rinv_l by lra. lra. }
      lra. }
    destruct (JS.Rltb (a * (180 / PI)) 0) eqn:E.
    - apply Rltb_true in E. cbn [JS.add]. eexists; split; [reflexivity|]. lra.
    - apply Rltb_false in E. eexists; split; [reflexivity|]. lra. }
  destruct Hh as (raw & Eraw & Hraw).
  assert (Hbound : -360 <= raw <= 720) by lra.
  destruct (handleOrientationChange_bounded st
              (ObjectEvent None (Some magnetometer) accuracy_field) now raw f
              Eraw Hbound Hf Hfr Hwf) as (h & Hh & H).
  exists raw, h. split; [exact Eraw|]. split; [exact Hraw|]. split; [exact Hh|].
  intros fuel Hfuel. rewrite (H fuel Hfuel). do 2 eexists.
  split; [reflexivity|]. split; reflexivity.
Qed.

(** The bearing of two points with real coordinates. *)
Lemma calculateGPSBearing_real (lat1 lon1 lat2 lon2 : R) :
  let y := sin ((lon2 + - lon1) * PI / 180) * cos (lat2 * PI / 180) in
  let x := cos (lat1 * PI / 180) * sin (lat2 * PI / 180)
           + - (sin (lat1 * PI / 180) * cos (lat2 * PI / 180)
                * cos ((lon2 + - lon1) * PI / 180)) in
  exists b fuel0,
    normalized (JS.Ratan2 y x * 180 / PI) b /\
    forall fuel, (fuel0 <= fuel)%nat ->
      calculateGPSBearing fuel (at_ lat1 lon1) (at_ lat2 lon2) = Some (JS.Fin b).
Proof.
  cbv zeta. pose proof PI_RGT_0 as Hpi.
  unfold calculateGPSBearing, at_.
  cbn [latitude longitude JS.sub JS.neg JS.add JS.mul JS.PI].
  rewrite !div_Fin by lra.
  cbn [JS.sin JS.cos JS.add JS.mul JS.neg JS.sub JS.atan2].
  unfold JS.PI. rewrite div_Fin by lra.
  match goal with |- context [normalizeHeading _ (JS.Fin ?v)] =>
    destruct (normalizeHeading_real v) as (b & fuel0 & Hn & Hf) end.
  exists b, fuel0. split; [exact Hn | exact Hf].
Qed.

(** [calculateGPSBearing].  For two points with real coordinates the call
    returns a bearing in [[0, 360)].  It is a compass bearing: 0 towards a
    point due north (same longitude, latitude larger by less than 180),
    180 due south, and, on the equator, 90 towards a point to the east and
    270 towards a point to the west (longitudes less than 180 apart). *)
Theorem gps_bearing_compass (lat1 lon1 lat2 lon2 : R) :
  (exists b fuel0, 0 <= b < 360 /\
     forall fuel, (fuel0 <= fuel)%nat ->
       calculateGPSBearing fuel (at_ lat1 lon1) (at_ lat2 lon2) = Some (JS.Fin b)) /\
  (lon2 = lon1 -> 0 < lat2 - lat1 < 180 ->
   exists fuel0, forall fuel, (fuel0 <= fuel)%nat ->
     calculateGPSBearing fuel (at_ lat1 lon1) (at_ lat2 lon2) = Some (JS.Fin 0)) /\
  (lon2 = lon1 -> 0 < lat1 - lat2 < 180 ->
   exists fuel0, forall fuel, (fuel0 <= fuel)%nat ->
     calculateGPSBearing fuel (at_ lat1 lon1) (at_ lat2 lon2) = Some (JS.Fin 180)) /\
  (lat1 = 0 -> lat2 = 0 -> 0 < lon2 - lon1 < 180 ->
   exists fuel0, forall fuel, (fuel0 <= fuel)%nat ->
     calculateGPSBearing fuel (at_ lat1 lon1) (at_ lat2 lon2) = Some (JS.Fin 90)) /\
  (lat1 = 0 -> lat2 = 0 -> 0 < lon1 - lon2 < 180 ->
   exists fuel0, forall fuel, (fuel0 <= fuel)%nat ->
     calculateGPSBearing fuel (at_ lat1 lon1) (at_ lat2 lon2) = Some (JS.Fin 270)).
Proof.
  pose proof PI_RGT_0 as Hpi.
  destruct (calculateGPSBearing_real lat1 lon1 lat2 lon2) as (b & fuel0 & Hn & Hf).
  cbv zeta in Hn.
  set (y := sin ((lon2 + - lon1) * PI / 180) * cos (lat2 * PI / 180)) in *.
  set (x := cos (lat1 * PI / 180) * sin (lat2 * PI / 180)
            + - (sin (lat1 * PI / 180) * cos (lat2 * PI / 180)
                 * cos ((lon2 + - lon1) * PI / 180))) in *.
  assert (Hdir : forall v, 0 <= v < 360 -> JS.Ratan2 y x * 180 / PI = v ->
            exists fuel0, forall fuel, (fuel0 <= fuel)%nat ->
              calculateGPSBearing fuel (at_ lat1 lon1) (at_ lat2 lon2) = Some (JS.Fin v)).
  { intros v Hv E. rewrite E in Hn.
    assert (b = v) by (apply (normalized_unique v); [exact Hn | now apply normalized_self]).
    subst b. eauto. }
  split; [|split; [|split; [|split]]].
  - exists b, fuel0. split; [apply Hn | exact Hf].
  - intros -> Hlat. apply Hdir; [lra|].
    assert (Hy : y = 0).
    { unfold y. replace ((lon1 + - lon1) * PI / 180) with 0 by lra. rewrite sin_0. lra. }
    assert (Hx : 0 < x).
    { unfold x. replace ((lon1 + - lon1) * PI / 180) with 0 by lra. rewrite cos_0.
      replace (cos (lat1 * PI / 180) * sin (lat2 * PI / 180)
               + - (sin (lat1 * PI / 180) * cos (lat2 * PI / 180) * 1))
        with (sin (lat2 * PI / 180 - lat1 * PI / 180)) by (rewrite sin_minus; ring).
      apply sin_gt_0; nra. }
    unfold JS.Ratan2. assert (E : JS.Rltb 0 x = true) by (now apply Rltb_true).
    rewrite E, Hy. replace (0 / x) with 0 by (field; lra). rewrite atan_0. field. lra.
  - intros -> Hlat. apply Hdir; [lra|].
    assert (Hy : y = 0).
    { unfold y. replace ((lon1 + - lon1) * PI / 180) with 0 by lra. rewrite sin_0. lra. }
    assert (Hx : x < 0).
    { unfold x. replace ((lon1 + - lon1) * PI / 180) with 0 by lra. rewrite cos_0.
      replace (cos (lat1 * PI / 180) * sin (lat2 * PI / 180)
               + - (sin (lat1 * PI / 180) * cos (lat2 * PI / 180) * 1))
        with (- sin (lat1 * PI / 180 - lat2 * PI / 180)) by (rewrite sin_minus; ring).
      assert (0 < sin (lat1 * PI / 180 - lat2 * PI / 180)) by (apply sin_gt_0; nra).
      lra. }
    unfold JS.Ratan2.
    assert (E1 : JS.Rltb 0 x = false) by (apply Rltb_false; lra).
    assert (E2 : JS.Rltb x 0 = true) by (now apply Rltb_true).
    assert (E3 : JS.Rltb y 0 = false) by (apply Rltb_false; lra).
    rewrite E1, E2, E3, Hy. replace (0 / x) with 0 by (field; lra).
    rewrite atan_0. field. lra.
  - intros -> -> Hlon. apply Hdir; [lra|].
    assert (Hy : 0 < y).
    { unfold y. replace (0 * PI / 180) with 0 by lra. rewrite cos_0.
      assert (0 < sin ((lon2 + - lon1) * PI / 180)) by (apply sin_gt_0; nra). lra. }
    assert (Hx : x = 0).
    { unfold x. replace (0 * PI / 180) with 0 by lra. rewrite sin_0. ring. }
    unfold JS.Ratan2. rewrite Hx.
    assert (E1 : JS.Rltb 0 0 = false) by (apply Rltb_false; lra).
    assert (E2 : JS.Rltb 0 y = true) by (now apply Rltb_true).
    rewrite E1, E2. field. lra.
  - intros -> -> Hlon.
    assert (Hy : y < 0).
    { unfold y. replace (0 * PI / 180) with 0 by lra. rewrite cos_0.
      replace ((lon2 + - lon1) * PI / 180) with (- ((lon1 + - lon2) * PI / 180)) by lra.
      rewrite sin_neg.
      assert (0 < sin ((lon1 + - lon2) * PI / 180)) by (apply sin_gt_0; nra). lra. }
    assert (Hx : x = 0).
    { unfold x. replace (0 * PI / 180) with 0 by lra. rewrite sin_0. ring. }
    assert (E : JS.Ratan2 y x * 180 / PI = -90).
    { unfold JS.Ratan2. rewrite Hx.
      assert (E1 : JS.Rltb 0 0 = false) by (apply Rltb_false; lra).
      assert (E2 : JS.Rltb 0 y = false) by (apply Rltb_false; lra).
      assert (E3 : JS.Rltb y 0 = true) by (now apply Rltb_true).
      rewrite E1, E2, E3. field. lra. }
    rewrite E in Hn.
    assert (b = 270).
    { apply (normalized_unique (-90)); [exact Hn|].
      split; [lra|]. exists 1%Z. lra. }
    subst b. eauto.
Qed.

(** [handleDeviceOrientationChange].  With a real smoothing factor and a
    last heading in [[0, 360)], the call returns and notifies a heading in
    [[0, 360)] with accuracy 1.  On a service without a last heading it is
    the heading of the device orientation: 90 for LANDSCAPE-LEFT, 180 for
    PORTRAIT-UPSIDEDOWN, 270 for LANDSCAPE-RIGHT and 0 for PORTRAIT and for
    any other name. *)
Theorem device_orientation_heading (orientation : string) (now : Z) (st : t) (f : R) :
  smoothingFactor st = JS.Fin f ->
  wellFormed st ->
  exists h fuel0,
    0 <= h < 360 /\
    (lastOrientation st = None ->
     h = if String.eqb orientation "LANDSCAPE-LEFT" then 90
         else if String.eqb orientation "PORTRAIT-UPSIDEDOWN" then 180
         else if String.eqb orientation "LANDSCAPE-RIGHT" then 270
         else 0) /\
    forall fuel, (fuel0 <= fuel)%nat ->
    exists data st',
      handleDeviceOrientationChange fuel orientation now st = Some (data, st') /\
      heading data = JS.Fin h /\
      accuracy data = JS.Fin 1 /\
      wellFormed st'.
Proof.
  intros Hf Hwf. unfold handleDeviceOrientationChange.
  set (d := if String.eqb orientation "LANDSCAPE-LEFT" then 90
            else if String.eqb orientation "PORTRAIT-UPSIDEDOWN" then 180
            else if String.eqb orientation "LANDSCAPE-RIGHT" then 270
            else 0).
  assert (Hd : (if String.eqb orientation "PORTRAIT" then JS.Fin 0
                else if String.eqb orientation "LANDSCAPE-LEFT" then JS.Fin 90
                else if String.eqb orientation "PORTRAIT-UPSIDEDOWN" then JS.Fin 180
                else if String.eqb orientation "LANDSCAPE-RIGHT" then JS.Fin 270
                else JS.Fin 0) = JS.Fin d /\ 0 <= d < 360).
  { unfold d. destruct (String.eqb orientation "PORTRAIT") eqn:E0.
    - apply String.eqb_eq in E0. subst orientation. cbn. split; [reflexivity | lra].
    - destruct (String.eqb orientation "LANDSCAPE-LEFT"); [split; [reflexivity | lra]|].
      destruct (String.eqb orientation "PORTRAIT-UPSIDEDOWN"); [split; [reflexivity | lra]|].
      destruct (String.eqb orientation "LANDSCAPE-RIGHT"); split; (reflexivity || lra). }
  destruct Hd as (Ed & Hd). rewrite Ed.
  destruct (handleOrientationChange_real st
              (ObjectEvent (Some (JS.Fin d)) None (Some (JS.Fin 1))) now d f
              eq_refl Hf Hwf) as (h & fuel0 & Hh & Hfirst & H).
  exists h, fuel0. split; [exact Hh|]. split.
  - intros Hn. apply (normalized_unique d); [now apply Hfirst | now apply normalized_self].
  - intros fuel Hfuel. rewrite (H fuel Hfuel). do 2 eexists. split; [reflexivity|].
    cbn [heading accuracy extractAccuracy]. split; [reflexivity|]. split.
    + unfold JS.or_else. assert (E : JS.Reqb 1 0 = false) by (apply Reqb_false; lra).
      now rewrite E.
    + unfold wellFormed. cbn [lastOrientation heading]. eauto.
Qed.

(** [updateWithGPSBearing].  Between two points with real coordinates,
    with a real smoothing factor and a last heading in [[0, 360)], the call
    returns and notifies a heading in [[0, 360)] with accuracy 0.5, which
    becomes the last known orientation; on a service without a last
    heading it is the bearing of [calculateGPSBearing]. *)
Theorem gps_bearing_update (lat1 lon1 lat2 lon2 : R) (now : Z) (st : t) (f : R) :
  smoothingFactor st = JS.Fin f ->
  wellFormed st ->
  exists h fuel0,
    0 <= h < 360 /\
    forall fuel, (fuel0 <= fuel)%nat ->
    exists data st',
      updateWithGPSBearing fuel (at_ lat1 lon1) (at_ lat2 lon2) now st
        = Some (data, st') /\
      heading data = JS.Fin h /\
      accuracy data = JS.Fin (5 / 10) /\
      getLastKnownOrientation st' = Some data /\
      wellFormed st' /\
      (lastOrientation st = None ->
       calculateGPSBearing fuel (at_ lat1 lon1) (at_ lat2 lon2) = Some (JS.Fin h)).
Proof.
  intros Hf Hwf.
  destruct (calculateGPSBearing_real lat1 lon1 lat2 lon2) as (b & fuel1 & Hn & Hb).
  cbv zeta in Hn. unfold updateWithGPSBearing.
  destruct (lastOrientation st) as [last|] eqn:Hlast.
  - unfold wellFormed in Hwf. rewrite Hlast in Hwf.
    destruct Hwf as (c & Hc & Hcr).
    destruct (applySmoothingToHeading_real f c b) as (x & h & fuel2 & _ & (Hh & _) & Hf2).
    exists h, (Nat.max fuel1 fuel2). split; [exact Hh|].
    intros fuel Hfuel. rewrite Hb by lia. rewrite Hf, Hc, Hf2 by lia.
    do 2 eexists. split; [reflexivity|].
    unfold wellFormed, getLastKnownOrientation.
    cbn [lastOrientation heading accuracy]. repeat split; eauto. discriminate.
  - exists b, fuel1. split; [apply Hn|].
    intros fuel Hfuel. rewrite Hb by lia.
    do 2 eexists. split; [reflexivity|].
    unfold wellFormed, getLastKnownOrientation.
    cbn [lastOrientation heading accuracy].
    split; [reflexivity|]. split; [reflexivity|]. split; [reflexivity|].
    split; [exists b; split; [reflexivity | apply Hn]|]. auto.
Qed.

Lemma magnetometer_heading_in_range_witness :
  mag_x alongX <> JS.NaN /\ mag_y alongX <> JS.NaN /\
  smoothingFactor init = JS.Fin (8 / 10) /\ 0 <= 8 / 10 <= 1 /\
  wellFormed init /\
  exists raw h,
    calculateHeadingFromMagnetometer alongX = JS.Fin raw /\
    0 <= raw <= 360 /\
    0 <= h < 360 /\
    forall fuel, (3 <= fuel)%nat ->
    exists data st',
      handleOrientationChange fuel (ObjectEvent None (Some alongX) None)
        1700000000000 init = Some (data, st') /\
      heading data = JS.Fin h /\
      getLastKnownOrientation st' = Some data.
Proof.
  assert (Hx : mag_x alongX <> JS.NaN) by discriminate.
  assert (Hy : mag_y alongX <> JS.NaN) by discriminate.
  assert (Hf : 0 <= 8 / 10 <= 1) by lra.
  split; [exact Hx|]. split; [exact Hy|]. split; [reflexivity|].
  split; [exact Hf|]. split; [exact I|].
  exact (magnetometer_heading_in_range alongX None 1700000000000 init (8 / 10)
           Hx Hy eq_refl Hf I).
Defined.

Lemma device_orientation_heading_witness :
  exists h fuel0,
    0 <= h < 360 /\
    forall fuel, (fuel0 <= fuel)%nat ->
    exists data st',
      handleDeviceOrientationChange fuel "LANDSCAPE-LEFT" 1700000000000 init
        = Some (data, st') /\
      heading data = JS.Fin h.
Proof.
  destruct (device_orientation_heading "LANDSCAPE-LEFT" 1700000000000 init (8 / 10))
    as (h & fuel0 & Hh & _ & H).
  - reflexivity.
  - exact I.
  - exists h, fuel0. split; [exact Hh|]. intros fuel Hfuel.
    destruct (H fuel Hfuel) as (data & st' & H1 & H2 & _).
    exists data, st'. split; [exact H1 | exact H2].
Defined.

Lemma gps_bearing_update_witness :
  exists h fuel0,
    0 <= h < 360 /\
    forall fuel, (fuel0 <= fuel)%nat ->
    exists data st',
      updateWithGPSBearing fuel (at_ 0 0) (at_ 0 1) 1700000000000 init
        = Some (data, st') /\
      heading data = JS.Fin h /\
      accuracy data = JS.Fin (5 / 10).
Proof.
  destruct (gps_bearing_update 0 0 0 1 1700000000000 init (8 / 10))
    as (h & fuel0 & Hh & H).
  - reflexivity.
  - exact I.
  - exists h, fuel0. split; [exact Hh|]. intros fuel Hfuel.
    destruct (H fuel Hfuel) as (data & st' & H1 & H2 & H3 & _).
    exists data, st'. split; [exact H1|]. split; [exact H2 | exact H3].
Defined.

End BearingProps.

(** ** The mock provider ([getMockRoute]) *)

Module MockProps.
Import RoutingSpec MockSpec.
Import RoutingService.
Import JSFacts.
Import RoutingProps.
Import DistanceProps.

Lemma le_ofNat (i k : nat) : JS.le (JS.ofNat i) (JS.ofNat k) = (i <=? k)%nat.
Proof.
  unfold JS.ofNat. destruct (i <=? k)%nat eqn:E.
  - apply le_Fin. apply le_INR. now apply Nat.leb_le.
  - apply not_true_is_false. intros H. apply le_Fin in H. apply INR_le in H.
    apply Nat.leb_gt in E. lia.
Qed.

Lemma lt_ofNat (i k : nat) : JS.lt (JS.ofNat i) (JS.ofNat k) = (i <? k)%nat.
Proof.
  unfold JS.ofNat. destruct (i <? k)%nat eqn:E.
  - apply lt_Fin. apply lt_INR. now apply Nat.ltb_lt.
  - apply not_true_is_false. intros H. apply lt_Fin in H. apply INR_lt in H.
    apply Nat.ltb_ge in E. lia.
Qed.

Lemma le_ofNat_NaN (i : nat) : JS.le (JS.ofNat i) JS.NaN = false.
Proof. reflexivity. Qed.

(** The loop, for a number of steps that is a natural number. *)
Lemma mockLoop_spec (origin destination : Coordinates)
  (totalDistance totalDuration : JS.number) (k : nat) :
  forall n i fuel cs ss,
  (i + n = S k)%nat -> (n < fuel)%nat ->
  mockLoop fuel i origin destination totalDistance totalDuration (JS.ofNat k) cs ss =
  Some (cs ++ map (mockPoint origin destination (JS.ofNat k)) (seq i n),
        ss ++ map (mockStep origin destination totalDistance totalDuration (JS.ofNat k))
                  (seq i (n - 1))).
Proof.
  induction n as [|n IH]; intros i fuel cs ss Hi Hfuel.
  - destruct fuel as [|fuel]; [lia|]. cbn [mockLoop].
    rewrite le_ofNat. assert (E : (i <=? k)%nat = false) by (apply Nat.leb_gt; lia).
    rewrite E. cbn. now rewrite !app_nil_r.
  - destruct fuel as [|fuel]; [lia|]. cbn [mockLoop].
    rewrite le_ofNat. assert (E : (i <=? k)%nat = true) by (apply Nat.leb_le; lia).
    rewrite E. rewrite lt_ofNat.
    fold (mockPoint origin destination (JS.ofNat k) i).
    fold (mockStep origin destination totalDistance totalDuration (JS.ofNat k) i).
    rewrite IH by lia. cbn [seq map]. rewrite <- app_assoc. cbn [app].
    destruct (i <? k)%nat eqn:E1.
    + apply Nat.ltb_lt in E1. f_equal. f_equal.
      replace (S n - 1)%nat with (S (n - 1)) by lia. cbn [seq map].
      rewrite <- app_assoc. reflexivity.
    + apply Nat.ltb_ge in E1. assert (n = 0%nat) by lia. subst n. reflexivity.
Qed.

(** [numberOfSteps] is a whole number from 3 to 8 when the total distance
    is a real number. *)
Lemma numberOfSteps_real (d : R) :
  exists k : nat, (3 <= k <= 8)%nat /\
    JS.min (JS.max (JS.Fin 3) (JS.round (JS.div (JS.Fin d) (JS.Fin 1000)))) (JS.Fin 8)
    = JS.ofNat k.
Proof.
  rewrite div_Fin by lra. cbn [JS.round].
  set (z := Zfloor (d / 1000 + 1 / 2)).
  exists (Z.to_nat (Z.min (Z.max 3 z) 8)). split; [lia|].
  unfold JS.ofNat. rewrite INR_IZR_INZ, Z2Nat.id by lia.
  unfold JS.max. cbn [JS.lt].
  destruct (JS.Rltb 3 (IZR z)) eqn:E3.
  - apply Rltb_true in E3. apply lt_IZR in E3.
    unfold JS.min. cbn [JS.lt].
    destruct (JS.Rltb 8 (IZR z)) eqn:E8.
    + apply Rltb_true in E8. apply lt_IZR in E8. do 2 f_equal. lia.
    + apply Rltb_false in E8. apply le_IZR in E8. do 2 f_equal. lia.
  - apply Rltb_false in E3. apply le_IZR in E3.
    unfold JS.min. cbn [JS.lt].
    assert (E8 : JS.Rltb 8 3 = false) by (apply Rltb_false; lra).
    rewrite E8. f_equal. replace (Z.min (Z.max 3 z) 8) with 3%Z by lia. reflexivity.
Qed.

(** What [getMockRoute] returns when the distance from the origin to the
    destination is a real number. *)
Lemma getMockRoute_real (origin destination : Coordinates)
  (waypoints : option (list Coordinates)) (d : R) :
  calculateDistance origin destination = JS.Fin d ->
  exists k : nat, (3 <= k <= 8)%nat /\
  forall fuel, (10 <= fuel)%nat ->
  getMockRoute fuel origin destination waypoints =
  Some {| route_distance := JS.Fin d;
          route_duration := JS.round (JS.div (JS.Fin d) (JS.Fin (1389 / 100)));
          steps :=
            map (mockStep origin destination (JS.Fin d)
                   (JS.round (JS.div (JS.Fin d) (JS.Fin (1389 / 100)))) (JS.ofNat k))
                (seq 0 k);
          route_coordinates :=
            map (mockPoint origin destination (JS.ofNat k)) (seq 0 (S k)) |}.
Proof.
  intros Hd. destruct (numberOfSteps_real d) as (k & Hk & Ek).
  exists k. split; [exact Hk|]. intros fuel Hfuel.
  unfold getMockRoute. rewrite Hd, Ek.
  rewrite (mockLoop_spec origin destination _ _ k (S k) 0 fuel [] []) by lia.
  cbn [app]. replace (S k - 1)%nat with k by lia. reflexivity.
Qed.

(** [getMockRoute], undefined distance.  When the distance from the origin
    to the destination is not a number (a coordinate is missing, say), the
    call still returns: a route without steps and without points, whose
    distance and duration are not numbers. *)
Theorem getMockRoute_undefined_distance (origin destination : Coordinates)
  (waypoints : option (list Coordinates)) (fuel : nat) :
  calculateDistance origin destination = JS.NaN ->
  (1 <= fuel)%nat ->
  getMockRoute fuel origin destination waypoints =
  Some {| route_distance := JS.NaN; route_duration := JS.NaN;
          steps := []; route_coordinates := [] |}.
Proof.
  intros Hd Hfuel. unfold getMockRoute. rewrite Hd.
  destruct fuel as [|fuel]; [lia|]. reflexivity.
Qed.

Lemma getMockRoute_undefined_distance_witness :
  getMockRoute 1 noLatitude origin None =
  Some {| route_distance := JS.NaN; route_duration := JS.NaN;
          steps := []; route_coordinates := [] |}.
Proof.
  apply (getMockRoute_undefined_distance noLatitude origin None 1).
  - reflexivity.
  - lia.
Defined.

Lemma lastElement_nonempty {A : Type} (l : list A) :
  l <> [] -> exists e, lastElement l = Some e.
Proof.
  intros H. destruct l as [|x l]; [congruence|].
  unfold lastElement.
  destruct (nth_error (x :: l) (length (x :: l) - 1)) as [e|] eqn:E; eauto.
  apply nth_error_None in E. cbn in E. lia.
Qed.

(** On a route all of whose steps have geometry, [calculateProgress]
    returns for every index; past the last step it reports nothing left. *)
Lemma calculateProgress_total (pos : Coordinates) (route : NavigationRoute) (i : nat) :
  hasGeometry route ->
  exists p, calculateProgress pos route i = Ok p /\
    ((length (steps route) <= i)%nat ->
     p = {| remainingDistance := JS.zero; remainingTime := JS.zero;
            nextTurnInstruction := None; nextTurnDistance := None |}).
Proof.
  intros Hg. unfold hasGeometry in Hg. rewrite Forall_forall in Hg.
  destruct (nth_error (steps route) i) as [cur|] eqn:Hcur.
  - destruct (lastElement_nonempty (coordinates cur)) as (e & He).
    { apply Hg. eapply nth_error_In; eauto. }
    destruct (calculateProgress_returns pos route i cur e Hcur He) as (p & Hp & _).
    { intros nxt Hn. apply Hg. eapply nth_error_In; eauto. }
    exists p. split; [exact Hp|]. intros Hle.
    assert (i < length (steps route))%nat by (apply nth_error_Some; congruence). lia.
  - apply nth_error_None in Hcur. unfold calculateProgress.
    assert (E1 : (i <? length (steps route))%nat = false) by (apply Nat.ltb_ge; lia).
    assert (E2 : (i + 1 <? length (steps route))%nat = false) by (apply Nat.ltb_ge; lia).
    rewrite E1, E2. cbn. eexists; split; [reflexivity|]. reflexivity.
Qed.

(** [calculateProgress] throws nothing but [TypeError]. *)
Lemma calculateProgress_throws_TypeError (pos : Coordinates) (route : NavigationRoute)
  (i : nat) (e : exn) :
  calculateProgress pos route i = Throw e -> e = TypeError.
Proof.
  unfold calculateProgress.
  destruct (i <? length (steps route))%nat.
  - destruct (nth_error (steps route) i) as [cur|]; cbn [bind];
      [|intros H; congruence].
    destruct (lastElement (coordinates cur)); cbn [calculateDistanceTo bind];
      [|intros H; congruence].
    destruct (i + 1 <? length (steps route))%nat; cbn [bind]; [|discriminate].
    destruct (nth_error (steps route) (i + 1)) as [nxt|]; cbn [bind];
      [|intros H; congruence].
    destruct (nth_error (coordinates nxt) 0); cbn [calculateDistanceTo bind];
      [discriminate | intros H; congruence].
  - cbn [bind].
    destruct (i + 1 <? length (steps route))%nat; cbn [bind]; [|discriminate].
    destruct (nth_error (steps route) (i + 1)) as [nxt|]; cbn [bind];
      [|intros H; congruence].
    destruct (nth_error (coordinates nxt) 0); cbn [calculateDistanceTo bind];
      [discriminate | intros H; congruence].
Qed.

(** [calculateProgress], when it throws.  On a route all of whose steps
    have at least one geometry point the call returns for every position
    and every step index, and past the last step it reports that nothing is
    left (zero distance and time, no next turn).  It throws only a
    [TypeError], and only when the step at the index or the step after it
    has no geometry point. *)
Theorem calculateProgress_throws_only_without_geometry (pos : Coordinates)
  (route : NavigationRoute) (i : nat) :
  (hasGeometry route -> exists p, calculateProgress pos route i = Ok p) /\
  ((length (steps route) <= i)%nat ->
   calculateProgress pos route i =
     Ok {| remainingDistance := JS.zero; remainingTime := JS.zero;
           nextTurnInstruction := None; nextTurnDistance := None |}) /\
  (forall e, calculateProgress pos route i = Throw e ->
     e = TypeError /\
     exists s, (nth_error (steps route) i = Some s \/
                nth_error (steps route) (i + 1) = Some s) /\
               coordinates s = []).
Proof.
  split; [|split].
  - intros Hg. destruct (calculateProgress_total pos route i Hg) as (p & Hp & _).
    exists p. exact Hp.
  - intros Hle. unfold calculateProgress.
    assert (E1 : (i <? length (steps route))%nat = false) by (apply Nat.ltb_ge; lia).
    assert (E2 : (i + 1 <? length (steps route))%nat = false) by (apply Nat.ltb_ge; lia).
    rewrite E1, E2. reflexivity.
  - intros e He. split; [exact (calculateProgress_throws_TypeError _ _ _ _ He)|].
    destruct (nth_error (steps route) i) as [cur|] eqn:Hcur.
    + destruct (coordinates cur) as [|c0 cs] eqn:Ec.
      { exists cur. split; [left; reflexivity | exact Ec]. }
      destruct (nth_error (steps route) (i + 1)) as [nxt|] eqn:Hnxt.
      * destruct (coordinates nxt) as [|n0 ns] eqn:En.
        { exists nxt. split; [right; reflexivity | exact En]. }
        exfalso.
        destruct (lastElement_nonempty (coordinates cur)) as (l & Hl);
          [rewrite Ec; discriminate|].
        destruct (calculateProgress_returns pos route i cur l Hcur Hl) as (p & Hp & _).
        { intros nxt' Hn'. rewrite Hnxt in Hn'. injection Hn' as <-.
          rewrite En. discriminate. }
        congruence.
      * exfalso.
        destruct (lastElement_nonempty (coordinates cur)) as (l & Hl);
          [rewrite Ec; discriminate|].
        destruct (calculateProgress_returns pos route i cur l Hcur Hl) as (p & Hp & _).
        { intros nxt' Hn'. rewrite Hnxt in Hn'. discriminate. }
        congruence.
    + exfalso. apply nth_error_None in Hcur. revert He. unfold calculateProgress.
      assert (E1 : (i <? length (steps route))%nat = false) by (apply Nat.ltb_ge; lia).
      assert (E2 : (i + 1 <? length (steps route))%nat = false)
        by (apply Nat.ltb_ge; lia).
      rewrite E1, E2. discriminate.
Qed.

(** The index found is that of a step of the route. *)
Lemma findCurrentStepIndex_bound (pos : Coordinates) (route : NavigationRoute) :
  (findCurrentStepIndex pos route < Nat.max 1 (length (steps route)))%nat.
Proof.
  unfold findCurrentStepIndex.
  pose proof (visitSteps_spec pos (steps route) 0 JS.Infinity 0%nat) as H.
  cbv zeta in H. destruct H as (_ & _ & _ & [E | (_ & k & s & p & Hk & _ & _ & Hi & _)]).
  - discriminate.
  - rewrite E. cbn [snd]. lia.
  - rewrite Hi. assert (k < length (steps route))%nat by (apply nth_error_Some; congruence).
    lia.
Qed.

Lemma eqb_ofNat_zero (i : nat) : JS.eqb (JS.ofNat i) JS.zero = (i =? 0)%nat.
Proof.
  unfold JS.ofNat, JS.zero. destruct (i =? 0)%nat eqn:E.
  - apply Nat.eqb_eq in E. subst. apply eqb_Fin. reflexivity.
  - apply not_true_is_false. intros H. apply eqb_Fin in H.
    apply Nat.eqb_neq in E. apply E. apply INR_eq. exact H.
Qed.

Lemma eqb_ofNat_pred (i k : nat) :
  JS.eqb (JS.ofNat i) (JS.sub (JS.ofNat k) JS.one) = (S i =? k)%nat.
Proof.
  unfold JS.ofNat, JS.one. cbn [JS.sub JS.neg JS.add].
  destruct (S i =? k)%nat eqn:E.
  - apply Nat.eqb_eq in E. subst k. apply eqb_Fin. rewrite S_INR. lra.
  - apply not_true_is_false. intros H. apply eqb_Fin in H.
    apply Nat.eqb_neq in E. apply E. apply INR_eq. rewrite S_INR. lra.
Qed.

Lemma nth_error_map_seq {A : Type} (f : nat -> A) (k i : nat) :
  (i < k)%nat -> nth_error (map f (seq 0 k)) i = Some (f i).
Proof.
  intros H. rewrite nth_error_map, nth_error_seq.
  assert (E : (i <? k)%nat = true) by (now apply Nat.ltb_lt). rewrite E. reflexivity.
Qed.

(** [getMockRoute], shape of the route.  When the distance [d] from the
    origin to the destination is a real number, the call returns (ten
    rounds of the loop suffice) a route of [k] steps and [k + 1] points
    with [k] from 3 to 8, whose distance is [d].  Every step has distance
    [d / k] and exactly one geometry point, the point of the route with the
    same index.  The first step is the departure ("Head north on current
    road"), the last one the arrival ("Arrive at destination"), and every
    step between them is a turn whose instruction is built from its
    direction and a road name. *)
Theorem getMockRoute_shape (origin destination : Coordinates)
  (waypoints : option (list Coordinates)) (d : R) :
  calculateDistance origin destination = JS.Fin d ->
  exists (k : nat) (route : NavigationRoute),
    (3 <= k <= 8)%nat /\
    (forall fuel, (10 <= fuel)%nat ->
       getMockRoute fuel origin destination waypoints = Some route) /\
    route_distance route = JS.Fin d /\
    length (steps route) = k /\
    length (route_coordinates route) = S k /\
    (forall i s, nth_error (steps route) i = Some s ->
       distance s = JS.Fin (d / INR k) /\
       coordinates s = firstn 1 (skipn i (route_coordinates route)) /\
       length (coordinates s) = 1%nat /\
       (i = 0%nat ->
        instruction s = "Head north on current road"%string /\
        option_map maneuver_type (maneuver s) = Some "depart"%string) /\
       (i = (k - 1)%nat ->
        instruction s = "Arrive at destination"%string /\
        option_map maneuver_type (maneuver s) = Some "arrive"%string) /\
       ((0 < i < k - 1)%nat ->
        exists direction road,
          maneuver s = Some {| maneuver_type := "turn"; modifier := Some direction |} /\
          instruction s =
            if String.eqb direction "straight"
            then ("Continue straight on " ++ road)%string
            else ("Turn " ++ direction ++ " onto " ++ road)%string)).
Proof.
  intros Hd.
  destruct (getMockRoute_real origin destination waypoints d Hd) as (k & Hk & Hroute).
  eexists k, _. split; [exact Hk|]. split; [exact Hroute|].
  cbn [route_distance steps route_coordinates].
  split; [reflexivity|]. split; [now rewrite length_map, length_seq|].
  split; [now rewrite length_map, length_seq|].
  intros i s Hs.
  assert (Hi : (i < k)%nat).
  { assert (H : (i < length (map (mockStep origin destination (JS.Fin d)
                     (JS.round (JS.div (JS.Fin d) (JS.Fin (1389 / 100)))) (JS.ofNat k))
                     (seq 0 k)))%nat) by (apply nth_error_Some; congruence).
    now rewrite length_map, length_seq in H. }
  rewrite nth_error_map_seq in Hs by exact Hi. inversion Hs; subst s. clear Hs.
  assert (HkR : INR k <> 0%R) by (apply not_0_INR; lia).
  cbn [mockStep distance coordinates instruction maneuver option_map maneuver_type].
  split; [unfold JS.ofNat; now rewrite div_Fin|].
  split.
  { assert (E : nth_error (map (mockPoint origin destination (JS.ofNat k)) (seq 0 (S k))) i
                = Some (mockPoint origin destination (JS.ofNat k) i))
      by (apply nth_error_map_seq; lia).
    rewrite (skipn_nth_error _ _ _ E). reflexivity. }
  split; [reflexivity|].
  unfold generateMockInstruction. rewrite eqb_ofNat_zero, eqb_ofNat_pred.
  split; [|split].
  - intros ->. split; reflexivity.
  - intros ->. assert (E : (S (k - 1) =? k)%nat = true) by (apply Nat.eqb_eq; lia).
    rewrite E. destruct (k - 1 =? 0)%nat eqn:E0; [apply Nat.eqb_eq in E0; lia|].
    split; reflexivity.
  - intros Hmid.
    assert (E0 : (i =? 0)%nat = false) by (apply Nat.eqb_neq; lia).
    assert (E1 : (S i =? k)%nat = false) by (apply Nat.eqb_neq; lia).
    rewrite E0, E1. cbn [length].
    pose proof (Nat.mod_upper_bound i 3 ltac:(lia)) as H3.
    exists (nth (i mod 3) ["left"; "right"; "straight"]%string ""%string),
           (nth (i mod 5)
              ["Main Road"; "Boulevard"; "Street"; "Avenue"; "Lane"]%string ""%string).
    split; [|reflexivity].
    destruct (i mod 3)%nat as [|[|[|m]]]; try lia; reflexivity.
Qed.

Lemma getMockRoute_shape_witness :
  exists d k route,
    calculateDistance (at_ 0 0) (at_ 0 1) = JS.Fin d /\
    (3 <= k <= 8)%nat /\
    (forall fuel, (10 <= fuel)%nat ->
       getMockRoute fuel (at_ 0 0) (at_ 0 1) None = Some route) /\
    length (steps route) = k /\
    length (route_coordinates route) = S k.
Proof.
  destruct (calculateDistance_valid 0 0 0 1) as (d & Hd & _); [lra | lra |].
  destruct (getMockRoute_shape (at_ 0 0) (at_ 0 1) None d Hd)
    as (k & route & Hk & Hr & _ & Hl & Hc & _).
  exists d, k, route. auto.
Defined.

Lemma mockPoint_zero (lat1 lon1 lat2 lon2 : R) (k : nat) :
  (0 < k)%nat ->
  mockPoint (at_ lat1 lon1) (at_ lat2 lon2) (JS.ofNat k) 0 = at_ lat1 lon1.
Proof.
  intros Hk. assert (HkR : INR k <> 0%R) by (apply not_0_INR; lia).
  unfold mockPoint, at_, JS.ofNat. cbn [latitude longitude INR].
  rewrite div_Fin by exact HkR. cbn [JS.sub JS.neg JS.add JS.mul].
  f_equal; f_equal; field; exact HkR.
Qed.

Lemma sumDistances_constant (l : list RouteStep) (c : R) :
  Forall (fun s => distance s = JS.Fin c) l ->
  sumDistances l = JS.Fin (INR (length l) * c).
Proof.
  induction 1 as [|s l Hs _ IH]; cbn [sumDistances fold_right length].
  - unfold JS.zero. f_equal. cbn. lra.
  - fold (sumDistances l). rewrite Hs, IH. cbn [JS.add]. f_equal.
    rewrite S_INR. lra.
Qed.

(** At the origin of a route, step 0 being the one that holds the origin:
    no point of the route is nearer. *)
Lemma findCurrentStepIndex_at_start (pos : Coordinates) (route : NavigationRoute)
  (s0 : RouteStep) :
  nth_error (steps route) 0 = Some s0 ->
  In pos (coordinates s0) ->
  calculateDistance pos pos = JS.Fin 0 ->
  findCurrentStepIndex pos route = 0%nat.
Proof.
  intros Hs0 Hin Hself. unfold findCurrentStepIndex.
  pose proof (visitSteps_spec pos (steps route) 0 JS.Infinity 0%nat) as H.
  cbv zeta in H.
  destruct H as (Hn & _ & _ & [E | (_ & k & s & p & Hk & Hp & Hd & Hi & Hearlier)]).
  - discriminate.
  - rewrite E. reflexivity.
  - rewrite Hi. destruct k as [|k]; [reflexivity|]. exfalso.
    pose proof (Hearlier 0%nat s0 pos ltac:(lia) Hs0 Hin) as Hfar.
    rewrite Hself in Hfar.
    destruct (calculateDistance_range pos p) as [E | (x & E & Hx)];
      rewrite <- Hd, E in *.
    + apply Hn. reflexivity.
    + assert (JS.le (JS.Fin 0) (JS.Fin x) = true) by (apply le_Fin; lra). congruence.
Qed.

(** Navigation on a mock route.  Between two points with real coordinates
    at a real distance [d], the mock route has geometry in every step, so
    [calculateProgress] never throws on it.  At the origin
    [findCurrentStepIndex] finds step 0, and [calculateProgress] reports
    the distance of the steps after the first, [(k - 1) * (d / k)], as
    the remaining distance (the first step ends at the origin itself); when
    [d] is 0 the remaining time is not a number. *)
Theorem mock_route_navigation (lat1 lon1 lat2 lon2 d : R)
  (waypoints : option (list Coordinates)) :
  calculateDistance (at_ lat1 lon1) (at_ lat2 lon2) = JS.Fin d ->
  exists (k : nat) (route : NavigationRoute),
    (3 <= k <= 8)%nat /\
    (forall fuel, (10 <= fuel)%nat ->
       getMockRoute fuel (at_ lat1 lon1) (at_ lat2 lon2) waypoints = Some route) /\
    hasGeometry route /\
    (forall pos i, exists p, calculateProgress pos route i = Ok p) /\
    findCurrentStepIndex (at_ lat1 lon1) route = 0%nat /\
    exists p,
      calculateProgress (at_ lat1 lon1) route 0 = Ok p /\
      remainingDistance p = JS.Fin (INR (k - 1) * (d / INR k)) /\
      (d = 0%R -> remainingTime p = JS.NaN).
Proof.
  intros Hd.
  destruct (getMockRoute_real (at_ lat1 lon1) (at_ lat2 lon2) waypoints d Hd)
    as (k & Hk & Hroute).
  assert (HkR : INR k <> 0%R) by (apply not_0_INR; lia).
  set (T := JS.round (JS.div (JS.Fin d) (JS.Fin (1389 / 100)))) in *.
  set (step := mockStep (at_ lat1 lon1) (at_ lat2 lon2) (JS.Fin d) T (JS.ofNat k)) in *.
  eexists k, _. split; [exact Hk|]. split; [exact Hroute|].
  match goal with |- hasGeometry ?r /\ _ => set (route := r) end.
  assert (Hg : hasGeometry route).
  { unfold hasGeometry, route. cbn [steps]. apply Forall_forall.
    intros s Hs. apply in_map_iff in Hs. destruct Hs as (i & <- & _). discriminate. }
  assert (Hs0 : nth_error (steps route) 0 = Some (step 0%nat))
    by (apply nth_error_map_seq; lia).
  assert (Hc0 : coordinates (step 0%nat) = [at_ lat1 lon1]).
  { unfold step. cbn [mockStep coordinates]. rewrite mockPoint_zero by lia. reflexivity. }
  split; [exact Hg|]. split.
  { intros pos i. destruct (calculateProgress_total pos route i Hg) as (p & Hp & _).
    eauto. }
  split.
  { apply (findCurrentStepIndex_at_start _ _ (step 0%nat) Hs0).
    - rewrite Hc0. left. reflexivity.
    - apply calculateDistance_self. }
  destruct (calculateProgress_returns (at_ lat1 lon1) route 0 (step 0%nat) (at_ lat1 lon1) Hs0)
    as (p & Hp & Hdist & Htime & _).
  { rewrite Hc0. reflexivity. }
  { intros nxt Hn. unfold hasGeometry in Hg. rewrite Forall_forall in Hg.
    apply Hg. eapply nth_error_In; eauto. }
  exists p. split; [exact Hp|]. split.
  - rewrite Hdist, calculateDistance_self.
    rewrite (sumDistances_constant _ (d / INR k)).
    + rewrite length_skipn. unfold route. cbn [steps].
      rewrite length_map, length_seq. cbn [JS.add]. f_equal.
      replace (k - (0 + 1))%nat with (k - 1)%nat by lia. lra.
    + apply Forall_forall. intros s Hs.
      assert (Hs' : In s (steps route)).
      { rewrite <- (firstn_skipn (0 + 1) (steps route)). apply in_or_app. now right. }
      clear Hs. rename Hs' into Hs.
      unfold route in Hs. cbn [steps] in Hs. apply in_map_iff in Hs.
      destruct Hs as (i & <- & _). unfold step. cbn [mockStep distance].
      unfold JS.ofNat. now rewrite div_Fin.
  - intros Hz. rewrite Htime, calculateDistance_self.
    unfold step. cbn [mockStep distance duration]. unfold JS.ofNat.
    rewrite div_Fin by exact HkR. subst d.
    replace (0 / INR k)%R with 0%R by (field; exact HkR).
    change (JS.Fin 0) with JS.zero. rewrite div_zero_zero. reflexivity.
Qed.

Lemma mock_route_navigation_witness :
  exists d k route,
    calculateDistance (at_ 0 0) (at_ 0 1) = JS.Fin d /\
    (forall fuel, (10 <= fuel)%nat ->
       getMockRoute fuel (at_ 0 0) (at_ 0 1) None = Some route) /\
    findCurrentStepIndex (at_ 0 0) route = 0%nat /\
    exists p,
      calculateProgress (at_ 0 0) route 0 = Ok p /\
      remainingDistance p = JS.Fin (INR (k - 1) * (d / INR k)).
Proof.
  destruct (calculateDistance_valid 0 0 0 1) as (d & Hd & _); [lra | lra |].
  destruct (mock_route_navigation 0 0 0 1 d None Hd)
    as (k & route & _ & Hr & _ & _ & Hi & p & Hp & Hrem & _).
  exists d, k, route. split; [exact Hd|]. split; [exact Hr|]. split; [exact Hi|].
  exists p. split; [exact Hp | exact Hrem].
Defined.

End MockProps.

(** ** Polylines ([decodePolyline]) *)

Module PolylineProps.
Import PolylineSpec.
Import RoutingService.
Local Open Scope Z_scope.

Lemma toInt32_small (z : Z) : - 2 ^ 31 <= z < 2 ^ 31 -> JS.toInt32 z = z.
Proof.
  intros H. unfold JS.toInt32. rewrite Z.mod_small by lia. lia.
Qed.

Lemma land_low_high (a c s : Z) :
  0 <= s -> 0 <= a < 2 ^ s -> Z.land a (c * 2 ^ s) = 0.
Proof.
  intros Hs Ha. apply Z.bits_inj'. intros n Hn.
  rewrite Z.land_spec, Z.bits_0.
  destruct (Z.lt_ge_cases n s) as [Hlt | Hge].
  - rewrite Z.mul_pow2_bits_low by lia. apply andb_false_r.
  - destruct (Z.eq_dec a 0) as [-> | Hne].
    + now rewrite Z.bits_0.
    + rewrite Z.bits_above_log2; [reflexivity | lia |].
      assert (Z.log2 a < s) by (apply Z.log2_lt_pow2; lia). lia.
Qed.

Lemma lor_low_high (a c s : Z) :
  0 <= s -> 0 <= a < 2 ^ s -> Z.lor a (c * 2 ^ s) = a + c * 2 ^ s.
Proof.
  intros Hs Ha. pose proof (land_low_high a c s Hs Ha) as H.
  rewrite <- Z.lxor_lor by exact H. symmetry. now apply Z.add_nocarry_lxor.
Qed.

Lemma land_31 (x : Z) : Z.land x 31 = x mod 32.
Proof. change 31 with (Z.ones 5). rewrite Z.land_ones by lia. reflexivity. Qed.

Lemma land_1 (x : Z) : Z.land x 1 = x mod 2.
Proof. change 1 with (Z.ones 1). rewrite Z.land_ones by lia. reflexivity. Qed.

(** Decoding undoes [zigzag]. *)
Lemma delta_zigzag (v : Z) : - 2 ^ 30 <= v < 2 ^ 30 -> delta (zigzag v) = v.
Proof.
  intros Hv. unfold delta, zigzag, JS.bitand, JS.sar, JS.bitnot.
  change (1 mod 32) with 1. rewrite (toInt32_small 1) by lia.
  destruct (v <? 0) eqn:E.
  - apply Z.ltb_lt in E. rewrite !(toInt32_small (- (2 * v) - 1)) by lia.
    rewrite land_1.
    assert (E1 : (- (2 * v) - 1) mod 2 = 1) by (Z.div_mod_to_equations; lia).
    rewrite E1. change (1 =? 0) with false. cbv iota.
    rewrite Z.shiftr_div_pow2 by lia. change (2 ^ 1) with 2.
    assert (E2 : (- (2 * v) - 1) / 2 = - v - 1) by (Z.div_mod_to_equations; lia).
    rewrite E2. rewrite toInt32_small by lia. rewrite Z.lnot_eq_pred_opp. lia.
  - apply Z.ltb_ge in E. rewrite !(toInt32_small (2 * v)) by lia.
    rewrite land_1.
    assert (E1 : (2 * v) mod 2 = 0) by (Z.div_mod_to_equations; lia).
    rewrite E1. change (0 =? 0) with true. cbv iota.
    rewrite Z.shiftr_div_pow2 by lia. change (2 ^ 1) with 2.
    Z.div_mod_to_equations; lia.
Qed.

Local Open Scope nat_scope.

Lemma string_length_append (s1 s2 : string) :
  String.length (s1 ++ s2) = String.length s1 + String.length s2.
Proof. induction s1 as [|a s1 IH]; cbn; [reflexivity | now rewrite IH]. Qed.

Lemma string_append_assoc (s1 s2 s3 : string) :
  ((s1 ++ s2) ++ s3 = s1 ++ s2 ++ s3)%string.
Proof. induction s1 as [|a s1 IH]; cbn; [reflexivity | now rewrite IH]. Qed.

Lemma string_append_nil_r (s : string) : (s ++ "" = s)%string.
Proof. induction s as [|a s IH]; cbn; [reflexivity | now rewrite IH]. Qed.

Lemma get_Some_lt (s : string) : forall i a, String.get i s = Some a -> i < String.length s.
Proof.
  induction s as [|c s IH]; intros [|i] a H; cbn in *; try discriminate; try lia.
  apply IH in H. lia.
Qed.

Lemma charCodeAt_Some_lt (s : string) (i : nat) (c : Z) :
  charCodeAt s i = Some c -> i < String.length s.
Proof.
  unfold charCodeAt. destruct (String.get i s) as [a|] eqn:E; [|discriminate].
  intros _. eapply get_Some_lt; eauto.
Qed.

Lemma charCodeAt_at (pre rest : string) (c : Z) :
  (0 <= c < 256)%Z ->
  charCodeAt (pre ++ String (Ascii.ascii_of_nat (Z.to_nat c)) rest) (String.length pre)
  = Some c.
Proof.
  intros Hc. unfold charCodeAt.
  pose proof (append_correct2 pre (String (Ascii.ascii_of_nat (Z.to_nat c)) rest) 0) as H.
  cbn [Nat.add] in H. rewrite <- H.
  cbn [String.get option_map]. rewrite Ascii.nat_ascii_embedding by lia.
  f_equal. lia.
Qed.

(** *** [decodePolyline] returns *)

Lemma readValue_returns (encoded : string) :
  forall fuel index shift result,
  String.length encoded - index < fuel ->
  exists index' r,
    readValue fuel encoded index shift result = Some (index', r) /\ index < index'.
Proof.
  induction fuel as [|fuel IH]; intros index shift result Hf; [lia|].
  cbn [readValue].
  destruct (charCodeAt encoded index) as [c|] eqn:Ec; cbn [option_map].
  - destruct (32 <=? c - 63)%Z.
    + apply charCodeAt_Some_lt in Ec.
      destruct (IH (S index) (shift + 5)%Z
                  (JS.bitor result
                     (JS.shl (JS.bitand (JS.toInt32_opt (Some (c - 63)%Z)) 31) shift)))
        as (i' & r & E & Hi); [lia|].
      exists i', r. split; [exact E | lia].
    + eauto.
  - eauto.
Qed.

Lemma readValue_fuel_mono (encoded : string) :
  forall fuel fuel' index shift result v,
  fuel <= fuel' ->
  readValue fuel encoded index shift result = Some v ->
  readValue fuel' encoded index shift result = Some v.
Proof.
  induction fuel as [|fuel IH]; intros fuel' index shift result v Hle H; [discriminate|].
  destruct fuel' as [|fuel']; [lia|]. cbn [readValue] in *.
  destruct (match option_map (fun c => (c - 63)%Z) (charCodeAt encoded index) with
            | Some b => (32 <=? b)%Z
            | None => false
            end); [|exact H].
  eapply IH; [|exact H]. lia.
Qed.

Lemma decodeLoop_fuel_mono (encoded : string) :
  forall fuel fuel' index lat lng cs r,
  fuel <= fuel' ->
  decodeLoop fuel encoded index lat lng cs = Some r ->
  decodeLoop fuel' encoded index lat lng cs = Some r.
Proof.
  induction fuel as [|fuel IH]; intros fuel' index lat lng cs r Hle H; [discriminate|].
  destruct fuel' as [|fuel']; [lia|]. cbn [decodeLoop] in *.
  destruct (index <? String.length encoded); [|exact H].
  destruct (readValue (S fuel) encoded index 0 0) as [[i1 r1]|] eqn:E1; [|discriminate].
  rewrite (readValue_fuel_mono encoded (S fuel) (S fuel') _ _ _ _ ltac:(lia) E1).
  destruct (readValue (S fuel) encoded i1 0 0) as [[i2 r2]|] eqn:E2; [|discriminate].
  rewrite (readValue_fuel_mono encoded (S fuel) (S fuel') _ _ _ _ ltac:(lia) E2).
  eapply IH; [|exact H]. lia.
Qed.

Lemma decodeLoop_returns (encoded : string) :
  forall fuel index lat lng cs,
  String.length encoded - index < fuel ->
  exists r, decodeLoop fuel encoded index lat lng cs = Some r /\
            length r <= length cs + (String.length encoded - index + 1) / 2.
Proof.
  induction fuel as [|fuel IH]; intros index lat lng cs Hf; [lia|].
  cbn [decodeLoop].
  destruct (index <? String.length encoded) eqn:E.
  - apply Nat.ltb_lt in E.
    destruct (readValue_returns encoded (S fuel) index 0%Z 0%Z Hf) as (i1 & r1 & E1 & H1).
    rewrite E1.
    destruct (readValue_returns encoded (S fuel) i1 0%Z 0%Z ltac:(lia))
      as (i2 & r2 & E2 & H2).
    rewrite E2.
    match goal with |- context [decodeLoop fuel encoded i2 ?a ?b ?c] =>
      destruct (IH i2 a b c ltac:(lia)) as (r & Er & Hr) end.
    exists r. split; [exact Er|]. rewrite length_app in Hr. cbn [length] in Hr.
    assert (H : (String.length encoded - i2 + 1) / 2 + 1
                <= (String.length encoded - index + 1) / 2).
    { replace (String.length encoded - index + 1)
        with ((String.length encoded - index - 1) + 1 * 2) by lia.
      rewrite Nat.div_add by lia.
      assert ((String.length encoded - i2 + 1) / 2
              <= (String.length encoded - index - 1) / 2); [|lia].
      destruct (Nat.eq_dec (String.length encoded - index) 1) as [E1' | E1'].
      - replace (String.length encoded - i2) with 0 by lia.
        replace (String.length encoded - index - 1) with 0 by lia. reflexivity.
      - apply Nat.Div0.div_le_mono. lia. }
    lia.
  - exists cs. split; [reflexivity | lia].
Qed.

(** [decodePolyline] returns on every string, well formed or not (any
    fuel above the length of the string suffices), and yields at most one
    point for every two characters. *)
Theorem decodePolyline_returns (encoded : string) :
  exists points,
    (forall fuel, String.length encoded < fuel ->
                  decodePolyline fuel encoded = Some points) /\
    length points <= (String.length encoded + 1) / 2.
Proof.
  unfold decodePolyline.
  destruct (decodeLoop_returns encoded (S (String.length encoded)) 0 0%Z 0%Z [])
    as (r & Er & Hr); [lia|].
  exists r. split.
  - intros fuel Hf. eapply decodeLoop_fuel_mono; [|exact Er]. lia.
  - cbn [length] in Hr. rewrite Nat.sub_0_r in Hr. exact Hr.
Qed.

(** *** [decodePolyline] inverts the encoding *)

Lemma stringOfCodes_length (codes : list Z) :
  String.length (stringOfCodes codes) = length codes.
Proof. induction codes as [|c l IH]; cbn; [reflexivity | now rewrite IH]. Qed.

Lemma chunks_S (f : nat) (n : Z) :
  chunks (S f) n =
  if (32 <=? n)%Z then (n mod 32 + 32 + 63)%Z :: chunks f (n / 32) else [(n + 63)%Z].
Proof. reflexivity. Qed.

Lemma chunks_nonempty (f : nat) (n : Z) : 1 <= length (chunks (S f) n).
Proof. cbn [chunks]. destruct (32 <=? n)%Z; cbn; lia. Qed.

(** One value: the loop reads the chunks of [n] and adds [n], shifted, to
    [result]. *)
Lemma readValue_chunks :
  forall f n shift result pre post fuel,
  (0 <= shift < 32)%Z -> (0 <= result < 2 ^ shift)%Z -> (0 <= n < 32 ^ Z.of_nat (S f))%Z ->
  (result + n * 2 ^ shift < 2 ^ 31)%Z ->
  length (chunks (S f) n) <= fuel ->
  readValue fuel (pre ++ stringOfCodes (chunks (S f) n) ++ post)
    (String.length pre) shift result
  = Some (String.length pre + length (chunks (S f) n), (result + n * 2 ^ shift)%Z).
Proof.
  induction f as [|f IH]; intros n shift result pre post fuel Hs Hr Hn Hsum Hfuel.
  - (* a single chunk *)
    assert (Hn32 : (n < 32)%Z) by (change (32 ^ Z.of_nat 1)%Z with 32%Z in Hn; lia).
    cbn [chunks] in *. assert (E : (32 <=? n)%Z = false) by (apply Z.leb_gt; lia).
    rewrite E in *. cbn [length stringOfCodes String.append] in *.
    destruct fuel as [|fuel]; [lia|]. cbn [readValue].
    rewrite charCodeAt_at by lia. cbn [option_map JS.toInt32_opt].
    replace (n + 63 - 63)%Z with n by lia. rewrite E.
    f_equal. f_equal; [lia|].
    assert (Hp : (0 < 2 ^ shift)%Z) by (apply Z.pow_pos_nonneg; lia).
    unfold JS.bitor, JS.shl, JS.bitand.
    rewrite !(toInt32_small n), (toInt32_small 31), land_31 by lia.
    rewrite (Z.mod_small n 32), (Z.mod_small shift 32) by lia.
    rewrite ?(toInt32_small n) by lia.
    rewrite Z.shiftl_mul_pow2 by lia.
    assert (0 <= n * 2 ^ shift)%Z by nia.
    rewrite !(toInt32_small (n * 2 ^ shift)) by lia.
    rewrite (toInt32_small result) by lia.
    apply lor_low_high; lia.
  - (* a chunk, and the rest *)
    rewrite (chunks_S (S f) n) in *. destruct (32 <=? n)%Z eqn:E.
    + apply Z.leb_le in E.
      assert (Hp : (0 < 2 ^ shift)%Z) by (apply Z.pow_pos_nonneg; lia).
      assert (Hm : (0 <= n mod 32 < 32)%Z) by (apply Z.mod_pos_bound; lia).
      assert (Hd : (1 <= n / 32)%Z) by (Z.div_mod_to_equations; lia).
      assert (Hnd : (n = 32 * (n / 32) + n mod 32)%Z) by (apply Z.div_mod; lia).
      assert (Hpow : (2 ^ (shift + 5) = 32 * 2 ^ shift)%Z).
      { rewrite Z.pow_add_r by lia. change (2 ^ 5)%Z with 32%Z. lia. }
      assert (Hshift : (shift + 5 < 32)%Z).
      { destruct (Z.lt_ge_cases (shift + 5) 32) as [?|Hge]; [assumption|].
        assert (2 ^ 27 <= 2 ^ shift)%Z by (apply Z.pow_le_mono_r; lia).
        exfalso. nia. }
      cbn [length stringOfCodes String.append] in *.
      destruct fuel as [|fuel]; [lia|]. cbn [readValue].
      rewrite charCodeAt_at by lia. cbn [option_map JS.toInt32_opt].
      replace (n mod 32 + 32 + 63 - 63)%Z with (n mod 32 + 32)%Z by lia.
      assert (E' : (32 <=? n mod 32 + 32)%Z = true) by (apply Z.leb_le; lia).
      rewrite E'.
      assert (Hres : JS.bitor result
                (JS.shl (JS.bitand (JS.toInt32 (n mod 32 + 32)) 31) shift)
              = (result + n mod 32 * 2 ^ shift)%Z).
      { unfold JS.bitor, JS.shl, JS.bitand.
        rewrite !(toInt32_small (n mod 32 + 32)), (toInt32_small 31), land_31 by lia.
        replace ((n mod 32 + 32) mod 32)%Z with (n mod 32)%Z
          by (Z.div_mod_to_equations; lia).
        rewrite (Z.mod_small shift 32) by lia.
        rewrite ?(toInt32_small (n mod 32)) by lia.
        rewrite Z.shiftl_mul_pow2 by lia.
        assert (0 <= n mod 32 * 2 ^ shift)%Z by nia.
        assert (n mod 32 * 2 ^ shift <= n * 2 ^ shift)%Z by nia.
        rewrite !(toInt32_small (n mod 32 * 2 ^ shift)) by lia.
        rewrite (toInt32_small result) by lia.
        apply lor_low_high; lia. }
      rewrite Hres.
      set (a := Ascii.ascii_of_nat (Z.to_nat (n mod 32 + 32 + 63))).
      replace (pre ++ String a (stringOfCodes (chunks (S f) (n / 32)) ++ post))%string
        with ((pre ++ String a "") ++ stringOfCodes (chunks (S f) (n / 32)) ++ post)%string
        by (rewrite string_append_assoc; reflexivity).
      replace (S (String.length pre)) with (String.length (pre ++ String a ""))
        by (rewrite string_length_append; cbn; lia).
      rewrite IH.
      * f_equal. f_equal.
        -- rewrite string_length_append. cbn. lia.
        -- rewrite Hpow. lia.
      * lia.
      * rewrite Hpow. nia.
      * split; [lia|]. apply Z.div_lt_upper_bound; [lia|].
        replace (32 * 32 ^ Z.of_nat (S f))%Z with (32 ^ Z.of_nat (S (S f)))%Z; [lia|].
        rewrite (Nat2Z.inj_succ (S f)), Z.pow_succ_r by lia. reflexivity.
      * rewrite Hpow. nia.
      * lia.
    + apply Z.leb_gt in E. cbn [length stringOfCodes String.append] in *.
      destruct fuel as [|fuel]; [lia|]. cbn [readValue].
      rewrite charCodeAt_at by lia. cbn [option_map JS.toInt32_opt].
      replace (n + 63 - 63)%Z with n by lia.
      assert (E' : (32 <=? n)%Z = false) by (apply Z.leb_gt; lia). rewrite E'.
      f_equal. f_equal; [lia|].
      assert (Hp : (0 < 2 ^ shift)%Z) by (apply Z.pow_pos_nonneg; lia).
      unfold JS.bitor, JS.shl, JS.bitand.
      rewrite !(toInt32_small n), (toInt32_small 31), land_31 by lia.
      rewrite (Z.mod_small n 32), (Z.mod_small shift 32) by lia.
      rewrite ?(toInt32_small n) by lia.
      rewrite Z.shiftl_mul_pow2 by lia.
      assert (0 <= n * 2 ^ shift)%Z by nia.
      rewrite !(toInt32_small (n * 2 ^ shift)) by lia.
      rewrite (toInt32_small result) by lia.
      apply lor_low_high; lia.
Qed.

Lemma zigzag_range (v : Z) :
  (- 2 ^ 30 <= v < 2 ^ 30)%Z -> (0 <= zigzag v < 2 ^ 31)%Z.
Proof. intros H. unfold zigzag. destruct (v <? 0)%Z eqn:E; lia. Qed.

(** One value at the end of [pre]. *)
Lemma readValue_encodeValue (v : Z) (pre post : string) (fuel : nat) :
  (- 2 ^ 30 <= v < 2 ^ 30)%Z ->
  String.length (encodeValue v) <= fuel ->
  readValue fuel (pre ++ encodeValue v ++ post) (String.length pre) 0 0
  = Some (String.length (pre ++ encodeValue v), zigzag v).
Proof.
  intros Hv Hfuel. pose proof (zigzag_range v Hv) as Hz.
  unfold encodeValue in *. rewrite stringOfCodes_length in Hfuel.
  rewrite (readValue_chunks 6 (zigzag v) 0 0 pre post fuel); try lia.
  rewrite string_length_append, stringOfCodes_length. f_equal. f_equal. lia.
Qed.

Lemma encodeValue_nonempty (v : Z) : 1 <= String.length (encodeValue v).
Proof. unfold encodeValue. rewrite stringOfCodes_length. apply chunks_nonempty. Qed.

(** The loop over a path encoded at the end of [pre]. *)
Lemma decodeLoop_encodePath :
  forall points lat lng pre fuel cs,
  Forall onEarth points ->
  (-18000000 <= lat <= 18000000)%Z -> (-18000000 <= lng <= 18000000)%Z ->
  String.length (encodePath lat lng points) < fuel ->
  decodeLoop fuel (pre ++ encodePath lat lng points) (String.length pre) lat lng cs
  = Some (cs ++ map e5 points).
Proof.
  induction points as [|[lat' lng'] points IH]; intros lat lng pre fuel cs Hall Hlat Hlng Hf.
  - cbn [encodePath map] in *. destruct fuel as [|fuel]; [lia|]. cbn [decodeLoop].
    rewrite string_append_nil_r, Nat.ltb_irrefl, app_nil_r. reflexivity.
  - inversion Hall as [|? ? [Hlat' Hlng'] Hrest]; subst. cbn [fst snd] in *.
    cbn [encodePath map] in *.
    set (e1 := encodeValue (lat' - lat)) in *.
    set (e2 := encodeValue (lng' - lng)) in *.
    set (tail := encodePath lat' lng' points) in *.
    rewrite !string_length_append in Hf.
    pose proof (encodeValue_nonempty (lat' - lat)) as H1. fold e1 in H1.
    pose proof (encodeValue_nonempty (lng' - lng)) as H2. fold e2 in H2.
    destruct fuel as [|fuel]; [lia|]. cbn [decodeLoop].
    assert (E : (String.length pre <? String.length (pre ++ e1 ++ e2 ++ tail)) = true).
    { apply Nat.ltb_lt. rewrite !string_length_append. lia. }
    rewrite E.
    assert (R1 : readValue (S fuel) (pre ++ e1 ++ e2 ++ tail) (String.length pre) 0 0
                 = Some (String.length (pre ++ e1), zigzag (lat' - lat))).
    { apply readValue_encodeValue; [lia | fold e1; lia]. }
    rewrite R1, delta_zigzag by lia.
    assert (R2 : readValue (S fuel) (pre ++ e1 ++ e2 ++ tail) (String.length (pre ++ e1)) 0 0
                 = Some (String.length ((pre ++ e1) ++ e2), zigzag (lng' - lng))).
    { replace (pre ++ e1 ++ e2 ++ tail)%string with ((pre ++ e1) ++ e2 ++ tail)%string
        by (rewrite string_append_assoc; reflexivity).
      apply readValue_encodeValue; [lia | fold e2; lia]. }
    rewrite R2, delta_zigzag by lia.
    replace (pre ++ e1 ++ e2 ++ tail)%string with (((pre ++ e1) ++ e2) ++ tail)%string
      by (rewrite !string_append_assoc; reflexivity).
    replace (lat + (lat' - lat))%Z with lat' by lia.
    replace (lng + (lng' - lng))%Z with lng' by lia.
    unfold tail. rewrite IH by (assumption || lia || (fold tail; lia)).
    rewrite <- app_assoc. reflexivity.
Qed.

(** [decodePolyline] inverts the polyline encoding.  For every path of
    points on Earth given in units of 1e-5 degrees, decoding the encoded
    path gives back the points, in order, each coordinate being the
    integer divided by 1e5. *)
Theorem decodePolyline_inverts_encoding (points : list (Z * Z)) (fuel : nat) :
  Forall onEarth points ->
  String.length (encodePolyline points) < fuel ->
  decodePolyline fuel (encodePolyline points) = Some (map e5 points).
Proof.
  intros Hall Hf. unfold decodePolyline, encodePolyline in *.
  apply (decodeLoop_encodePath points 0%Z 0%Z ""%string fuel []); (assumption || lia).
Qed.

Lemma decodePolyline_inverts_encoding_witness :
  Forall onEarth westernPath /\
  (String.length (encodePolyline westernPath) < 100)%nat /\
  encodePolyline westernPath = "_p~iF~ps|U_ulLnnqC_mqNvxq`@"%string /\
  decodePolyline 100 (encodePolyline westernPath) = Some (map e5 westernPath).
Proof.
  assert (H1 : Forall onEarth westernPath).
  { repeat constructor; cbn; lia. }
  assert (H2 : (String.length (encodePolyline westernPath) < 100)%nat).
  { vm_compute. lia. }
  split; [exact H1|]. split; [exact H2|]. split; [vm_compute; reflexivity|].
  exact (decodePolyline_inverts_encoding westernPath 100 H1 H2).
Defined.

End PolylineProps.

(** ** The component: invariants, progress updates, the location listener *)

Module ComponentProps.
Import ThrottleSpec MapSpec ComponentSpec MockSpec.
Import CarParkingMap.
Import MockProps.
Local Open Scope Z_scope.

(** What the location listener does: it stores an accepted sample and
    nothing else. *)
Lemma onLocation_cases (mounted : Z) (location : UserLocation) (now now' : Z)
  (optimizer : PerformanceOptimizer.t) (st : t) :
  onLocation mounted location now now' optimizer st =
    Ok (snd (PerformanceOptimizer.shouldUpdateLocation location now now' optimizer),
        if fst (PerformanceOptimizer.shouldUpdateLocation location now now' optimizer)
        then setUserLocation location st else st).
Proof.
  unfold onLocation.
  destruct (PerformanceOptimizer.shouldUpdateLocation location now now' optimizer)
    as [accepted optimizer'].
  destruct accepted; reflexivity.
Qed.

Lemma act_Sample (mounted : Z) (location : UserLocation) (now now' : Z)
  (optimizer : PerformanceOptimizer.t) (st : t) :
  act mounted (Sample location now now' optimizer) st = setUserLocation location st \/
  act mounted (Sample location now now' optimizer) st = st.
Proof.
  cbn [act]. rewrite onLocation_cases.
  destruct (fst _); [left | right]; reflexivity.
Qed.

Lemma act_consistent (mounted : Z) (a : Action) (st : t) :
  sheetConsistent st /\ timerConsistent st /\ closureConsistent st ->
  sheetConsistent (act mounted a st) /\ timerConsistent (act mounted a st) /\
  closureConsistent (act mounted a st).
Proof.
  unfold sheetConsistent, timerConsistent, closureConsistent. intros (Hs & Ht & Hc).
  destruct a as [| slot | | slot outcome now | now | current
                 | location now now' optimizer | e].
  - cbn [act]. unfold handleMapPress. destruct (isBottomSheetVisible st) eqn:E.
    + cbn. split; [split; [discriminate | congruence]|]. split; assumption.
    + rewrite <- E in Hs. repeat split; tauto.
  - cbn. split; [split; [discriminate | reflexivity]|]. split; assumption.
  - cbn. split; [split; [discriminate | congruence]|]. split; assumption.
  - cbn [act]. unfold handleStartNavigation. destruct (userLocation st).
    + destruct (RoutingService.getRoute outcome).
      * cbn. split; [split; [discriminate | congruence]|]. split; [exact Ht|].
        intros H. apply orb_false_elim in H. destruct H as (H1 & H2).
        rewrite (Hc H1).
        destruct (isNavigating (navigationState st)); [reflexivity | discriminate].
      * cbn. repeat split; tauto.
    + cbn. repeat split; tauto.
  - cbn. split; [exact Hs|]. split; [congruence | discriminate].
  - cbn. split; [exact Hs|]. split; [exact Ht | discriminate].
  - destruct (act_Sample mounted location now now' optimizer st) as [-> | ->].
    + cbn. split; [exact Hs|]. split; [exact Ht | discriminate].
    + repeat split; tauto.
  - cbn [act]. destruct e as [now| now |]; cbn [step].
    + unfold handleUserMapInteraction.
      destruct (PerformanceOptimizer.throttle 100 now (interactionLastCallTime st))
        as [run last].
      destruct run; [|repeat split; tauto].
      unfold onInteraction. cbn.
      destruct (interactionIsNavigating st) eqn:En; cbn.
      * split; [exact Hs|]. split; [reflexivity | discriminate].
      * split; [exact Hs|]. split; [congruence | discriminate].
    + destruct (userIdleTimeout st) as [due|] eqn:E;
        [|rewrite E; repeat split; tauto].
      destruct (due <=? now); [|rewrite E; repeat split; tauto].
      cbn. split; [exact Hs|]. split; [congruence | discriminate].
    + unfold render. destruct (callbackStale st) eqn:E; [|repeat split; tauto].
      cbn. split; [exact Hs|]. split; [exact Ht | reflexivity].
Qed.

Lemma perform_consistent (mounted : Z) (actions : list Action) :
  sheetConsistent (perform mounted actions (init mounted)) /\
  timerConsistent (perform mounted actions (init mounted)) /\
  closureConsistent (perform mounted actions (init mounted)).
Proof.
  assert (H : forall st, sheetConsistent st /\ timerConsistent st /\
                         closureConsistent st ->
                         sheetConsistent (perform mounted actions st) /\
                         timerConsistent (perform mounted actions st) /\
                         closureConsistent (perform mounted actions st)).
  { induction actions as [|a actions IH]; intros st Hst; cbn [perform].
    - exact Hst.
    - apply IH. now apply act_consistent. }
  apply H. unfold sheetConsistent, timerConsistent, closureConsistent. cbn.
  split; [split; [discriminate | congruence] |]. split; [congruence | reflexivity].
Qed.


(** A gesture handled after navigation has ended but before the component
    has rendered again runs the closure that saw the navigation: it leaves
    an idle timer pending although no navigation is running. *)
Lemma stale_gesture_arms_timer_after_end :
  let st :=
    perform t0
      [Located someLocation; MapEvent Render;
       Navigate someSlot (RoutingService.Fetched RoutingSpec.routeThreeLegs) (t0 + 1000);
       MapEvent Render; EndNavigation (t0 + 2000);
       MapEvent (Interact (t0 + 3000))]
      (init t0) in
  isNavigating (navigationState st) = false /\
  userIdleTimeout st = Some (t0 + 3000 + USER_IDLE_TIMEOUT).
Proof. split; reflexivity. Qed.

Lemma untouched_run (events : list Event) :
  untouched events ->
  forall st, userIdleTimeout st = None ->
  userIdleTimeout (run events st) = None /\
  cameraState (run events st) = cameraState st /\
  navigationState (run events st) = navigationState st.
Proof.
  induction 1 as [|e events He _ IH]; intros st Ht; cbn [run].
  - auto.
  - assert (Hs : userIdleTimeout (step e st) = None /\
                 cameraState (step e st) = cameraState st /\
                 navigationState (step e st) = navigationState st).
    { destruct e as [now | now |]; [contradiction| |]; cbn [step].
      - rewrite Ht. auto.
      - unfold render. destruct (callbackStale st); cbn; auto. }
    destruct Hs as (H1 & H2 & H3). destruct (IH _ H1) as (I1 & I2 & I3).
    rewrite I2, I3. auto.
Qed.

(** Starting navigation does not move the camera.  In a state with no
    idle timer pending, [handleStartNavigation] (whatever the provider
    answers) followed by any number of renders and timer turns leaves the
    camera state as it was and sets no idle timer: a camera that the user
    had taken stays user-controlled until the user touches the map
    again. *)
Theorem start_navigation_keeps_camera (st : t) (parkingSlot : ParkingSlot)
  (outcome : RoutingService.ProviderOutcome) (now : Z) (events : list Event) :
  userIdleTimeout st = None ->
  untouched events ->
  let st' := run events (handleStartNavigation parkingSlot outcome now st) in
  cameraState st' = cameraState st /\
  userIdleTimeout st' = None.
Proof.
  cbv zeta. intros Ht Hev.
  set (st1 := handleStartNavigation parkingSlot outcome now st).
  assert (H1 : userIdleTimeout st1 = None /\ cameraState st1 = cameraState st).
  { unfold st1, handleStartNavigation. destruct (userLocation st).
    - destruct (RoutingService.getRoute outcome); cbn; auto.
    - cbn; auto. }
  destruct H1 as (H1 & H2).
  destruct (untouched_run events Hev st1 H1) as (I1 & I2 & _).
  rewrite I2, H2. auto.
Qed.

Lemma start_navigation_keeps_camera_witness :
  let st := perform t0 [Located someLocation; MapEvent (Interact (t0 + 500))]
              (init t0) in
  let st' := run [Render; Tick (t0 + 20000); Render]
               (handleStartNavigation someSlot
                  (RoutingService.Fetched RoutingSpec.routeThreeLegs) (t0 + 1000) st) in
  isNavigating (navigationState st') = true /\
  isUserControlled (cameraState st) = true /\
  cameraState st' = cameraState st /\
  userIdleTimeout st' = None.
Proof.
  cbv zeta. split; [reflexivity|]. split; [reflexivity|].
  apply (start_navigation_keeps_camera
           (perform t0 [Located someLocation; MapEvent (Interact (t0 + 500))] (init t0))
           someSlot (RoutingService.Fetched RoutingSpec.routeThreeLegs) (t0 + 1000)
           [Render; Tick (t0 + 20000); Render]).
  - reflexivity.
  - repeat constructor.
Defined.

(** [updateNavigationProgress] on a route with geometry.  When the closure
    sees a running navigation on a route that has steps, all of them with
    geometry, the call does not throw; it stores the index found by
    [findCurrentStepIndex], which is that of a step of the route, and the
    progress of [calculateProgress], and leaves alone the arrival time set
    when navigation started (it is never recomputed), the route, the
    target, the camera state, the user location and the idle timer. *)
Theorem navigation_progress_update (closed : NavigationState) (route : NavigationRoute)
  (location : UserLocation) (st : t) :
  isNavigating closed = true ->
  currentRoute closed = Some route ->
  steps route <> [] ->
  hasGeometry route ->
  exists st',
    updateNavigationProgress closed location st = Ok st' /\
    (currentStepIndex (navigationState st') < length (steps route))%nat /\
    currentStepIndex (navigationState st')
      = RoutingService.findCurrentStepIndex (loc_coordinates location) route /\
    estimatedTimeArrival (navigationState st')
      = estimatedTimeArrival (navigationState st) /\
    isNavigating (navigationState st') = isNavigating (navigationState st) /\
    currentRoute (navigationState st') = currentRoute (navigationState st) /\
    targetParkingSlot (navigationState st') = targetParkingSlot (navigationState st) /\
    cameraState st' = cameraState st /\
    userLocation st' = userLocation st /\
    userIdleTimeout st' = userIdleTimeout st.
Proof.
  intros Hn Hr Hne Hg. unfold updateNavigationProgress. rewrite Hn, Hr. cbn [negb].
  destruct (calculateProgress_total (loc_coordinates location) route
              (RoutingService.findCurrentStepIndex (loc_coordinates location) route) Hg)
    as (p & Hp & _).
  rewrite Hp. cbn [bind]. eexists. split; [reflexivity|].
  cbn. split.
  { pose proof (findCurrentStepIndex_bound (loc_coordinates location) route) as Hb.
    destruct (steps route) as [|s0 l]; [congruence|]. cbn [length] in *. lia. }
  repeat split.
Qed.

Lemma navigation_progress_update_witness :
  steps RoutingSpec.routeThreeLegs <> [] /\
  hasGeometry RoutingSpec.routeThreeLegs /\
  exists st',
    updateNavigationProgress (navigationState navigating) someLocation navigating
      = Ok st' /\
    (currentStepIndex (navigationState st') < 3)%nat /\
    estimatedTimeArrival (navigationState st')
      = estimatedTimeArrival (navigationState navigating).
Proof.
  assert (Hne : steps RoutingSpec.routeThreeLegs <> []) by discriminate.
  assert (Hg : hasGeometry RoutingSpec.routeThreeLegs).
  { repeat constructor; discriminate. }
  split; [exact Hne|]. split; [exact Hg|].
  destruct (navigation_progress_update (navigationState navigating)
              RoutingSpec.routeThreeLegs someLocation navigating)
    as (st' & H1 & H2 & _ & H3 & _).
  - reflexivity.
  - reflexivity.
  - exact Hne.
  - exact Hg.
  - exists st'. split; [exact H1|]. split; [exact H2 | exact H3].
Defined.

Lemma act_frozen (mounted : Z) (a : Action) (st : t) :
  progressFrozen st -> progressFrozen (act mounted a st).
Proof.
  unfold progressFrozen. intros H.
  destruct a as [| slot | | slot outcome now | now | current
                 | location now now' optimizer | e].
  - cbn [act]. unfold handleMapPress. destruct (isBottomSheetVisible st);
      [cbn; exact H | exact H].
  - cbn. exact H.
  - cbn. exact H.
  - cbn [act]. unfold handleStartNavigation.
    destruct (userLocation st) as [loc|] eqn:El.
    + destruct (RoutingService.getRoute outcome) as [route|e].
      * cbn. intros _. split; [rewrite El; discriminate|].
        exists route. repeat split.
      * cbn. rewrite El. exact H.
    + cbn. rewrite El. exact H.
  - cbn. discriminate.
  - cbn. intros Hn. destruct (H Hn) as (_ & Hr). split; [discriminate | exact Hr].
  - destruct (act_Sample mounted location now now' optimizer st) as [-> | ->].
    + cbn. intros Hn. destruct (H Hn) as (_ & Hr). split; [discriminate | exact Hr].
    + exact H.
  - cbn [act]. destruct e as [now| now |]; cbn [step].
    + unfold handleUserMapInteraction.
      destruct (PerformanceOptimizer.throttle 100 now (interactionLastCallTime st))
        as [run last].
      destruct run; [|exact H].
      unfold onInteraction. cbn.
      destruct (interactionIsNavigating st); cbn; exact H.
    + destruct (userIdleTimeout st) as [due|]; [|exact H].
      destruct (due <=? now); [|exact H]. cbn. exact H.
    + unfold render. destruct (callbackStale st); [|exact H]. cbn. exact H.
Qed.

Lemma perform_frozen (mounted : Z) (actions : list Action) :
  progressFrozen (perform mounted actions (init mounted)).
Proof.
  assert (H : forall st, progressFrozen st ->
                         progressFrozen (perform mounted actions st)).
  { induction actions as [|a actions IH]; intros st Hst; cbn [perform].
    - exact Hst.
    - apply IH. now apply act_frozen. }
  apply H. unfold progressFrozen. cbn. discriminate.
Qed.

(** The location listener is stale.  The listener registered at mount
    calls the [updateNavigationProgress] of the first render, which sees
    the initial navigation state and returns at once: a location sample
    never changes the navigation state; an accepted one is stored as the
    user location and nothing else happens.  Hence, whatever happens after
    mount, the progress shown during navigation is the one set when
    navigation started: step 0, the whole distance of the route and the
    first instruction. *)
Theorem location_listener_is_stale (mounted : Z) (actions : list Action)
  (location : UserLocation) (now now' : Z) (optimizer : PerformanceOptimizer.t) :
  let st := perform mounted actions (init mounted) in
  progressFrozen st /\
  exists st',
    onLocation mounted location now now' optimizer st
      = Ok (snd (PerformanceOptimizer.shouldUpdateLocation location now now' optimizer),
            st') /\
    navigationState st' = navigationState st /\
    (fst (PerformanceOptimizer.shouldUpdateLocation location now now' optimizer) = true ->
     st' = setUserLocation location st) /\
    (fst (PerformanceOptimizer.shouldUpdateLocation location now now' optimizer) = false ->
     st' = st).
Proof.
  cbv zeta. split; [apply perform_frozen|].
  rewrite onLocation_cases. eexists. split; [reflexivity|].
  destruct (fst _); repeat split; congruence.
Qed.

End ComponentProps.
